(** * The BEM solver orchestration layer of capytaine ([capytaine/bem/solver.py])

    A shallow embedding of [BEMSolver]: the single-problem [solve], the batch
    [solve_all] with its failure isolation, the two diagnostic checks, the
    field evaluations from stored sources and the legacy chunked evaluation.

    Python floats are IEEE doubles and are embedded as primitive floats, so
    that [==], [!=] and [<] against [0.0] and [np.inf] behave as in the code
    (signed zeros, NaN).  Complex scalars, meshes, the matrix engine, the
    Green function and the normalisation of points are collaborators of the
    solver that live outside [solver.py]; they enter as interfaces. *)

From Stdlib Require Import List String Ascii ZArith Lia Bool PrimFloat Permutation.
From stdpp Require Import gmap strings pretty.
Import ListNotations.

Local Open Scope string_scope.
Local Open Scope list_scope.

(** ** Python values used by the solver *)

(** [a != b] on floats. *)
Definition float_ne (a b : float) : bool := negb (PrimFloat.eqb a b).

(** [x in {0.0, np.inf}]: set membership compares with [==]. *)
Definition in_zero_inf (x : float) : bool :=
  PrimFloat.eqb x 0%float || PrimFloat.eqb x infinity.

(** [str.lower] on the ASCII range; bytes outside it are left alone (no
    character outside ASCII lower-cases to a letter of the words compared
    below). *)
Definition ascii_lower (c : ascii) : ascii :=
  let n := nat_of_ascii c in
  if Nat.leb 65 n && Nat.leb n 90 then ascii_of_nat (n + 32) else c.

Fixpoint lower (s : string) : string :=
  match s with
  | EmptyString => EmptyString
  | String c s' => String (ascii_lower c) (lower s')
  end.

(** [x in {s1, ..., sn}] for strings. *)
Definition str_in (x : string) (l : list string) : bool :=
  existsb (String.eqb x) l.

(** [needle in haystack] for strings. *)
Fixpoint contains (needle haystack : string) : bool :=
  String.prefix needle haystack ||
  match haystack with
  | EmptyString => false
  | String _ rest => contains needle rest
  end.

(** The double quote and the line feed, for the messages that contain them. *)
Definition dquote : string := String (ascii_of_nat 34) EmptyString.
Definition newline : string := String (ascii_of_nat 10) EmptyString.

(** The exceptions [solver.py] raises or lets through.  All of them are
    subclasses of [Exception], which is what [_solve_and_catch_errors]
    catches. *)
Inductive exn : Type :=
| ValueError (msg : string)
| NotImplementedError (msg : string)
| ImportError (msg : string)
| PyException (msg : string)
| IndexError (msg : string)
| LinAlgError (msg : string).

Inductive outcome (A : Type) : Type :=
| Return (a : A)
| Raise (e : exn).
Arguments Return {A} a.
Arguments Raise {A} e.

(** [range(start, stop, step)] as the list it enumerates. *)
Definition py_range (start stop step : Z) : outcome (list Z) :=
  if Z.eqb step 0 then Raise (ValueError "range() arg 3 must not be zero")
  else
    let count : Z :=
      if Z.ltb 0 step
      then (if Z.ltb start stop then Z.div (stop - start + step - 1) step else 0%Z)
      else (if Z.ltb stop start then Z.div (start - stop - step - 1) (Z.opp step) else 0%Z) in
    Return (map (fun k => Z.add start (Z.mul (Z.of_nat k) step)) (seq 0 (Z.to_nat count))).

(** ** Complex scalars and numpy vectors *)

(** [complex128] values.  Rounding is not modelled: the operations are an
    interface, and a matrix-vector product is the row-by-row sum of products
    in index order. *)
Class Complex128 (C : Type) : Type := {
  Cof : float -> C;            (* a float promoted to complex *)
  Cj : C;                      (* 1j *)
  Cneg : C -> C;
  Cadd : C -> C -> C;
  Csub : C -> C -> C;
  Cmul : C -> C -> C;
  Cdiv : C -> C -> C;
  uninit : C                   (* what [np.empty] leaves in memory *)
}.

(** Meshes are owned by the mesh library. *)
Class MeshModel (Mesh : Type) : Type := {
  nb_faces : Mesh -> nat;
  extract_faces : Mesh -> list nat -> Mesh;
  mesh_name : Mesh -> string
}.

Section Arrays.
Context {C : Type} `{Complex128 C}.

(** A two-dimensional array: [ncols] is kept apart so that an array with no
    row still has a shape. *)
Record Matrix : Type := { ncols : nat; rows : list (list C) }.

(** The gradient of the Green function, of shape (points, faces, 3). *)
Record Tensor3 : Type := { t_ncols : nat; t_rows : list (list (C * C * C)) }.

Definition dot (row v : list C) : C :=
  fold_left Cadd (map (fun p => Cmul (fst p) (snd p)) (combine row v)) (Cof 0%float).

(** [S @ v]. *)
Definition matmul (S : Matrix) (v : list C) : outcome (list C) :=
  if Nat.eqb (ncols S) (length v)
  then Return (map (fun row => dot row v) (rows S))
  else Raise (ValueError "matmul: Input operand 1 has a mismatch in its core dimension 0").

(** [np.einsum('ijk,j->ik', gradG, v)]. *)
Definition einsum_ijk_j (G : Tensor3) (v : list C) : outcome (list (C * C * C)) :=
  if Nat.eqb (t_ncols G) (length v)
  then Return (map (fun row =>
                      (dot (map (fun g => fst (fst g)) row) v,
                       dot (map (fun g => snd (fst g)) row) v,
                       dot (map snd row) v)) (t_rows G))
  else Raise (ValueError "operands could not be broadcast together").

(** [c * v] for a scalar [c]. *)
Definition scale (c : C) (v : list C) : list C := map (Cmul c) v.

(** [a += b] on one-dimensional arrays, with numpy's broadcasting of a
    one-element right-hand side. *)
Definition iadd (a b : list C) : outcome (list C) :=
  if Nat.eqb (length b) (length a)
  then Return (map (fun p => Cadd (fst p) (snd p)) (combine a b))
  else match b with
       | [x] => Return (map (fun y => Cadd y x) a)
       | _ => Raise (ValueError "operands could not be broadcast together")
       end.

(** [phi[i:j] = v] on a one-dimensional array, with the slice clamped to the
    array and a one-element [v] broadcast. *)
Definition slice_assign (phi : list C) (i j : nat) (v : list C) : outcome (list C) :=
  let i' := Nat.min i (length phi) in
  let j' := Nat.max i' (Nat.min j (length phi)) in
  if Nat.eqb (length v) (j' - i')
  then Return (firstn i' phi ++ v ++ skipn j' phi)
  else match v with
       | [x] => Return (firstn i' phi ++ repeat x (j' - i') ++ skipn j' phi)
       | _ => Raise (ValueError "could not broadcast input array")
       end.

(** [np.empty((n,), dtype=np.complex128)]. *)
Definition np_empty (n : nat) : list C := repeat uninit n.

(** [a.reshape(shape)]: the data in row-major order with its new shape. *)
Definition reshape {A : Type} (data : list A) (shape : list nat) : outcome (list nat * list A) :=
  if Nat.eqb (fold_right Nat.mul 1 shape) (length data)
  then Return (shape, data)
  else Raise (ValueError "cannot reshape array").

End Arrays.
Arguments Matrix C : clear implicits.
Arguments Tensor3 C : clear implicits.

(** ** The data model consumed by the solver *)

Section DataModel.
Context {C : Type} {Mesh : Type}.

(** A floating body, seen through the attributes and methods the solver
    uses.  [integrate_pressure] returns the named force components. *)
Record FloatingBody : Type := {
  body_name : string;
  mesh : Mesh;
  lid_mesh : option Mesh;
  mesh_including_lid : Mesh;
  minimal_computable_wavelength : float;
  faces_radiuses_max : float;
  first_irregular_frequency_estimate : float -> float;
  integrate_pressure : list C -> list (string * C)
}.

(** [isinstance(problem, DiffractionProblem)]. *)
Inductive problem_kind : Type := RadiationProblem | DiffractionProblem.

(** The attribute a problem's frequency was given with
    ([provided_freq_type]). *)
Inductive freq_type : Type := Omega | Freq | Period | Wavenumber | Wavelength.

Record Problem : Type := {
  kind : problem_kind;
  body : FloatingBody;
  free_surface : float;
  water_depth : float;
  omega : float;
  freq : float;
  period : float;
  wavenumber : float;
  wavelength : float;
  encounter_omega : float;
  encounter_wavenumber : float;
  forward_speed : float;
  rho : float;
  g : float;
  boundary_condition : list C;
  provided_freq_type : freq_type
}.

Definition is_diffraction (pb : Problem) : bool :=
  match kind pb with DiffractionProblem => true | RadiationProblem => false end.

(** [pb.__getattribute__(freq_type)]. *)
Definition getattribute (pb : Problem) (ft : freq_type) : float :=
  match ft with
  | Omega => omega pb
  | Freq => freq pb
  | Period => period pb
  | Wavenumber => wavenumber pb
  | Wavelength => wavelength pb
  end.

(** A result refers to its problem and holds the solver's outputs;
    [fs_elevation] is the mapping the legacy free-surface helper writes
    into, keyed by the identity of the free-surface object. *)
Record Result : Type := {
  res_problem : Problem;
  forces : option (list (string * C));
  sources : option (list C);
  potential : option (list C);
  pressure : option (list C);
  fs_elevation : gmap positive (list C)
}.

Record FailedResult : Type := {
  failed_problem : Problem;
  exception : exn
}.

Inductive any_result : Type :=
| Solved (r : Result)
| Failed (f : FailedResult).

Definition problem_of (r : any_result) : Problem :=
  match r with
  | Solved r => res_problem r
  | Failed f => failed_problem f
  end.

(** Modelled from the spec: [problem.make_results_container] of the problem
    model, which is not in [solver.py].  The result owns a reference to the
    originating problem next to the outputs it is given; every output is
    optional, and the elevation mapping starts empty. *)
Definition make_results_container (pb : Problem)
    (forces : option (list (string * C))) (sources potential pressure : option (list C)) : Result :=
  {| res_problem := pb; forces := forces; sources := sources;
     potential := potential; pressure := pressure; fs_elevation := ∅ |}.

(** Modelled from the spec: [problem.make_failed_results_container], which
    wraps the triggering error and the problem, without numerical output. *)
Definition make_failed_results_container (pb : Problem) (e : exn) : FailedResult :=
  {| failed_problem := pb; exception := e |}.

(** A meshed free surface handed to [get_free_surface_elevation]. *)
Record FreeSurface : Type := { fs_id : positive; fs_mesh : Mesh }.

(** *** What the solver writes: log records and progress bars *)

Inductive level : Type := DEBUG | INFO | WARNING.

(** One constructor per message of [solver.py]; the fields are the values
    the format string is filled with.  The range shown for several risky
    problems is the minimum and maximum of [freqs]. *)
Inductive message : Type :=
| SolveMsg (pb : Problem)
| DoneMsg
| SkippedMsg (pb : Problem) (e : exn)
| TimerSummaryMsg (ledger : gmap string nat)
| CheckMeshResolutionMsg
| CheckIrregularFrequencyMsg
| MeshResolutionOneMsg (pb : Problem) (ft : freq_type) (f : float) (radius : float)
| MeshResolutionManyMsg (n : nat) (ft : freq_type) (freqs : list float)
| IrregularOneMsg (pb : Problem) (ft : freq_type) (f : float) (recommendation : string)
| IrregularManyMsg (n : nat) (ft : freq_type) (freqs : list float) (recommendation : string)
| ComputePotentialMsg (on_mesh : string) (r : Result)
| DoneComputePotentialMsg (on_mesh : string) (r : Result).

Inductive event : Type :=
| Log (l : level) (m : message)
| Track (description : string) (total : nat).

(** *** The solver's mutable state

    [timer] is the ledger [self.timer]: for each named accumulator, the
    number of timings recorded so far (the elapsed times themselves are
    wall-clock readings).  [events] is everything logged or displayed, oldest
    first. *)
Record State : Type := {
  timer : gmap string nat;
  events : list event
}.

(** Computations of the solver: they read and write the state and either
    return or raise; what was written before a raise stays written. *)
Definition M (A : Type) : Type := State -> outcome A * State.

Definition ret {A : Type} (a : A) : M A := fun st => (Return a, st).

Definition raise {A : Type} (e : exn) : M A := fun st => (Raise e, st).

Definition bind {A B : Type} (m : M A) (k : A -> M B) : M B :=
  fun st =>
    match m st with
    | (Return a, st') => k a st'
    | (Raise e, st') => (Raise e, st')
    end.

(** A pure step that may raise. *)
Definition lift {A : Type} (o : outcome A) : M A := fun st => (o, st).

(** [LOG.debug], [LOG.info], [LOG.warning]. *)
Definition log (l : level) (m : message) : M unit :=
  fun st => (Return tt, {| timer := timer st; events := events st ++ [Log l m] |}).

(** [track(...)]. *)
Definition track (description : string) (total : nat) : M unit :=
  fun st => (Return tt, {| timer := timer st; events := events st ++ [Track description total] |}).

Definition get_timer : M (gmap string nat) := fun st => (Return (timer st), st).

(** Modelled from the spec: a [Timer] used as a context manager
    ([capytaine.tools.timer], not in [solver.py]).  Leaving the block records
    one more timing, also when the block raised. *)
Definition timed {A : Type} (name : string) (m : M A) : M A :=
  fun st =>
    let '(r, st') := m st in
    (r, {| timer := alter S name (timer st'); events := events st' |}).

(** [try: ... except Exception as e: ...]. *)
Definition try_except {A : Type} (m : M A) (handler : exn -> M A) : M A :=
  fun st =>
    match m st with
    | (Return a, st') => (Return a, st')
    | (Raise e, st') => handler e st'
    end.

(** [[f(x) for x in xs]]. *)
Fixpoint for_each {A B : Type} (f : A -> M B) (xs : list A) : M (list B) :=
  match xs with
  | [] => ret []
  | x :: xs' => bind (f x) (fun y => bind (for_each f xs') (fun ys => ret (y :: ys)))
  end.

End DataModel.

Arguments FloatingBody C Mesh : clear implicits.
Arguments Problem C Mesh : clear implicits.
Arguments Result C Mesh : clear implicits.
Arguments FailedResult C Mesh : clear implicits.
Arguments any_result C Mesh : clear implicits.
Arguments FreeSurface Mesh : clear implicits.
Arguments message C Mesh : clear implicits.
Arguments event C Mesh : clear implicits.
Arguments State C Mesh : clear implicits.
Arguments M C Mesh A : clear implicits.

Notation "x <- c1 ;; c2" := (bind c1 (fun x => c2))
  (at level 20, c1 at level 99, c2 at level 200, only parsing).
Notation "' pat <- c1 ;; c2" := (bind c1 (fun x => match x with pat => c2 end))
  (at level 20, pat pattern, c1 at level 99, c2 at level 200, only parsing).
Notation "c1 ;; c2" := (bind c1 (fun _ => c2))
  (at level 100, c2 at level 200, only parsing, right associativity).

(** ** The solver's collaborators *)

(** Point specifications and their normalisation
    ([capytaine.tools.lists_of_points]): a normalised point set together
    with the shape the output is to be given. *)
Class PointsModel (Mesh Points : Type) : Type := {
  points_of_mesh : Mesh -> Points;
  _normalize_points : Points -> Points * list nat;
  _normalize_free_surface_points : Points -> Points * list nat
}.

Section Solver.
Context {C : Type} `{Complex128 C} {Mesh : Type} `{MeshModel Mesh}
        {Points : Type} `{PointsModel Mesh Points}.

(** [green_function.evaluate(points, mesh, free_surface, water_depth,
    wavenumber, early_dot_product)]: the single-layer coefficients and the
    gradient tensor. *)
Record GreenFunction : Type := {
  evaluate : Points -> Mesh -> float -> float -> float -> bool -> Matrix C * Tensor3 C
}.

(** The matrix engine.  [linear_solver] is the engine's solver behind
    [supporting_symbolic_multiplication]; it may raise. *)
Record MatrixEngine : Type := {
  build_matrices :
    Mesh -> Mesh -> float -> float -> float -> GreenFunction -> bool -> Matrix C * Matrix C;
  build_S_matrix :
    Mesh -> Mesh -> float -> float -> float -> GreenFunction -> Matrix C;
  linear_solver : Matrix C -> list C -> outcome (list C);
  engine_str : string
}.

(** What the solver needs of the problem model beyond its fields: the order
    [sorted] uses ([__lt__]), the grouping policy of the parallel path and
    the text a result is printed as. *)
Class ProblemModel : Type := {
  problem_lt : Problem C Mesh -> Problem C Mesh -> bool;
  _group_for_parallel_resolution : list (Problem C Mesh) -> list (list (Problem C Mesh));
  result_str : Result C Mesh -> string
}.
Context `{ProblemModel}.

(** The process the solver runs in: [os.environ], and [joblib] when it can
    be imported.  The executor is given [n_jobs] and the delayed calls and
    yields their results in dispatch order; how it schedules them is its
    own business. *)
Record Runtime : Type := {
  environ : gmap string string;
  joblib : option (Z -> list (M C Mesh (list (any_result C Mesh)))
                   -> M C Mesh (list (list (any_result C Mesh))))
}.

Record BEMSolver : Type := {
  green_function : GreenFunction;
  engine : MatrixEngine;
  method : string
}.

Definition initial_timer : gmap string nat :=
  <["Solve total" := 0]> (<["  Green function" := 0]> (<["  Linear solver" := 0]> ∅)).

(** [BEMSolver.__init__] (the exportable settings are left out): the method
    is validated and stored lower-cased, the ledger starts empty. *)
Definition BEMSolver_init (gf : GreenFunction) (eng : MatrixEngine) (method_arg : string)
  : outcome (BEMSolver * State C Mesh) :=
  if negb (str_in (lower method_arg) ["direct"; "indirect"])
  then Raise (ValueError ("Unrecognized method when initializing solver: '" +:+ method_arg +:+
                          "'. Expected " +:+ dquote +:+ "direct" +:+ dquote +:+ " or " +:+
                          dquote +:+ "indirect" +:+ dquote +:+ "."))
  else Return ({| green_function := gf; engine := eng; method := lower method_arg |},
               {| timer := initial_timer; events := [] |}).

(** ** Diagnostic checks *)

Definition mesh_resolution_risky (pb : Problem C Mesh) : bool :=
  PrimFloat.ltb 0%float (wavelength pb) &&
  PrimFloat.ltb (wavelength pb) (minimal_computable_wavelength (body pb)).

Definition _check_wavelength_and_mesh_resolution (problems : list (Problem C Mesh))
  : M C Mesh unit :=
  log DEBUG CheckMeshResolutionMsg ;;
  let risky_problems := List.filter mesh_resolution_risky problems in
  match risky_problems with
  | [] => ret tt
  | [pb] =>
      let ft := provided_freq_type pb in
      log WARNING (MeshResolutionOneMsg pb ft (getattribute pb ft)
                     (faces_radiuses_max (body pb)))
  | pb0 :: _ =>
      let ft := provided_freq_type pb0 in
      log WARNING (MeshResolutionManyMsg (length risky_problems) ft
                     (map (fun pb => getattribute pb ft) risky_problems))
  end.

(** [pb.free_surface != np.inf and
     pb.body.first_irregular_frequency_estimate(g=pb.g) < pb.omega < np.inf]. *)
Definition irregular_frequency_risky (pb : Problem C Mesh) : bool :=
  float_ne (free_surface pb) infinity &&
  (PrimFloat.ltb (first_irregular_frequency_estimate (body pb) (g pb)) (omega pb) &&
   PrimFloat.ltb (omega pb) infinity).

Definition has_no_lid (pb : Problem C Mesh) : bool :=
  match lid_mesh (body pb) with None => true | Some _ => false end.

Definition set_lid_recommendation : string :=
  "Setting a lid for the floating body is recommended.".
Definition lid_closer_recommendation : string :=
  "The lid might need to be closer to the free surface.".

Definition _check_wavelength_and_irregular_frequencies (problems : list (Problem C Mesh))
  : M C Mesh unit :=
  log DEBUG CheckIrregularFrequencyMsg ;;
  let risky_problems := List.filter irregular_frequency_risky problems in
  match risky_problems with
  | [] => ret tt
  | pb0 :: others =>
      let recommendation :=
        if existsb has_no_lid problems
        then set_lid_recommendation
        else lid_closer_recommendation in
      let ft := provided_freq_type pb0 in
      match others with
      | [] => log WARNING (IrregularOneMsg pb0 ft (getattribute pb0 ft) recommendation)
      | _ => log WARNING (IrregularManyMsg (length risky_problems) ft
                            (map (fun pb => getattribute pb ft) risky_problems)
                            recommendation)
      end
  end.

(** ** Field evaluation from stored sources *)

(** A numpy shape [(n,)] as printed. *)
Definition shape_str (n : nat) : string := "(" +:+ pretty n +:+ ",)".

(** The message of [compute_potential] and [get_potential_on_mesh] when the
    result holds no sources. *)
Definition sources_missing_msg (result : Result C Mesh) : string :=
  "The values of the sources of " +:+ result_str result +:+ " cannot been found." +:+ newline +:+
  "            They probably have not been stored by the solver because the option keep_details=True have not been set or the direct method has been used." +:+ newline +:+
  "            Please re-run the resolution with the indirect method and keep_details=True.".

(** The message of [_compute_potential_gradient] in the same situation. *)
Definition sources_missing_gradient_msg (result : Result C Mesh) : string :=
  "The values of the sources of " +:+ result_str result +:+ " cannot been found." +:+ newline +:+
  "            They probably have not been stored by the solver because the option keep_details=True have not been set." +:+ newline +:+
  "            Please re-run the resolution with this option.".

(** An array whose shape is the output shape followed by 3 is kept as its output shape and
    the list of its 3-vectors; [x_of] is the component of index 0. *)
Definition x_of (v : C * C * C) : C := fst (fst v).

Definition compute_potential (self : BEMSolver) (points : Points) (result : Result C Mesh)
  : M C Mesh (list nat * list C) :=
  let '(points, output_shape) := _normalize_points points in
  match sources result with
  | None => raise (PyException (sources_missing_msg result))
  | Some src =>
      let pb := res_problem result in
      '(Sm, _) <- timed "  Green function"
                   (ret (evaluate (green_function self) points (mesh_including_lid (body pb))
                           (free_surface pb) (water_depth pb) (encounter_wavenumber pb) true)) ;;
      potential <- lift (matmul Sm src) ;;
      lift (reshape potential output_shape)
  end.

Definition _compute_potential_gradient (self : BEMSolver) (points : Points)
    (result : Result C Mesh) : M C Mesh (list nat * list (C * C * C)) :=
  let '(points, output_shape) := _normalize_points points in
  match sources result with
  | None => raise (PyException (sources_missing_gradient_msg result))
  | Some src =>
      let pb := res_problem result in
      '(_, gradG) <- timed "  Green function"
                       (ret (evaluate (green_function self) points (mesh_including_lid (body pb))
                               (free_surface pb) (water_depth pb) (encounter_wavenumber pb) false)) ;;
      velocities <- lift (einsum_ijk_j gradG src) ;;
      lift (reshape velocities output_shape)
  end.

Definition compute_velocity (self : BEMSolver) (points : Points) (result : Result C Mesh)
  : M C Mesh (list nat * list (C * C * C)) :=
  '(shape, nabla_phi) <- _compute_potential_gradient self points result ;;
  let U := forward_speed (res_problem result) in
  if float_ne U 0%float
  then ret (shape, map (fun v => (Csub (x_of v) (Cof U), snd (fst v), snd v)) nabla_phi)
  else ret (shape, nabla_phi).

Definition compute_pressure (self : BEMSolver) (points : Points) (result : Result C Mesh)
  : M C Mesh (list nat * list C) :=
  let pb := res_problem result in
  if float_ne (forward_speed pb) 0%float then
    '(shape, phi) <- compute_potential self points result ;;
    let pressure := scale (Cmul (Cmul Cj (Cof (encounter_omega pb))) (Cof (rho pb))) phi in
    '(_, nabla_phi) <- _compute_potential_gradient self points result ;;
    pressure <- lift (iadd pressure
                        (scale (Cof (PrimFloat.mul (rho pb) (forward_speed pb)))
                           (map x_of nabla_phi))) ;;
    ret (shape, pressure)
  else
    '(shape, phi) <- compute_potential self points result ;;
    ret (shape, scale (Cmul (Cmul Cj (Cof (omega pb))) (Cof (rho pb))) phi).

Definition compute_free_surface_elevation (self : BEMSolver) (points : Points)
    (result : Result C Mesh) : M C Mesh (list nat * list C) :=
  let '(points, output_shape) := _normalize_free_surface_points points in
  let pb := res_problem result in
  let minus_one_over_g := PrimFloat.div (PrimFloat.opp 1%float) (g pb) in
  if float_ne (forward_speed pb) 0%float then
    '(_, phi) <- compute_potential self points result ;;
    let fs_elevation :=
      scale (Cmul (Cof minus_one_over_g) (Cmul (Cneg Cj) (Cof (encounter_omega pb)))) phi in
    '(_, nabla_phi) <- _compute_potential_gradient self points result ;;
    fs_elevation <- lift (iadd fs_elevation
                            (scale (Cof (PrimFloat.mul minus_one_over_g (forward_speed pb)))
                               (map x_of nabla_phi))) ;;
    lift (reshape fs_elevation output_shape)
  else
    '(_, phi) <- compute_potential self points result ;;
    lift (reshape (scale (Cmul (Cof minus_one_over_g) (Cmul (Cneg Cj) (Cof (omega pb)))) phi)
            output_shape).

(** ** Single-problem solve *)

Definition zero_or_infinite_frequency_msg : string :=
  "Diffraction problems at zero or infinite frequency are not defined".

Definition direct_forward_speed_msg : string :=
  "Direct solver is not able to solve problems with forward speed.".

Definition shape_mismatch_msg (self : BEMSolver) (got expected : nat) : string :=
  "Error in linear solver of " +:+ engine_str (engine self) +:+
  ": the shape of the output (" +:+ shape_str got +:+
  ") does not match the expected shape (" +:+ shape_str expected +:+ ")".

(** The direct formulation (lines 148-164): no source distribution. *)
Definition solve_direct (self : BEMSolver) (problem : Problem C Mesh)
    (omega_ wavenumber_ : float) : M C Mesh (option (list C) * list C * list C) :=
  (if float_ne (forward_speed problem) 0%float
   then raise (NotImplementedError direct_forward_speed_msg) else ret tt) ;;
  '(Sm, Dm) <- timed "  Green function"
               (ret (build_matrices (engine self)
                       (mesh_including_lid (body problem)) (mesh_including_lid (body problem))
                       (free_surface problem) (water_depth problem) wavenumber_
                       (green_function self) false)) ;;
  rhs <- lift (matmul Sm (boundary_condition problem)) ;;
  potential <- timed "  Linear solver" (lift (linear_solver (engine self) Dm rhs)) ;;
  (if negb (Nat.eqb (length potential) (length (boundary_condition problem)))
   then raise (ValueError (shape_mismatch_msg self (length potential)
                             (length (boundary_condition problem))))
   else ret tt) ;;
  let pressure := scale (Cmul (Cmul Cj (Cof omega_)) (Cof (rho problem))) potential in
  ret (None, potential, pressure).

(** The indirect formulation (lines 166-184), with the forward-speed term. *)
Definition solve_indirect (self : BEMSolver) (problem : Problem C Mesh)
    (omega_ wavenumber_ : float) : M C Mesh (option (list C) * list C * list C) :=
  '(Sm, Km) <- timed "  Green function"
               (ret (build_matrices (engine self)
                       (mesh_including_lid (body problem)) (mesh_including_lid (body problem))
                       (free_surface problem) (water_depth problem) wavenumber_
                       (green_function self) true)) ;;
  sources <- timed "  Linear solver"
               (lift (linear_solver (engine self) Km (boundary_condition problem))) ;;
  (if negb (Nat.eqb (length sources) (length (boundary_condition problem)))
   then raise (ValueError (shape_mismatch_msg self (length sources)
                             (length (boundary_condition problem))))
   else ret tt) ;;
  potential <- lift (matmul Sm sources) ;;
  let pressure := scale (Cmul (Cmul Cj (Cof omega_)) (Cof (rho problem))) potential in
  if float_ne (forward_speed problem) 0%float then
    let result := make_results_container problem None (Some sources) None None in
    '(shape, nabla_phi) <- _compute_potential_gradient self
                             (points_of_mesh (mesh_including_lid (body problem))) result ;;
    let correction :=
      scale (Cof (PrimFloat.mul (rho problem) (forward_speed problem))) (map x_of nabla_phi) in
    (* [nabla_phi[:, 0]] needs two axes; with more than two the in-place sum
       cannot hold the product. *)
    match shape with
    | [] => raise (IndexError "too many indices for array")
    | [_] => pressure <- lift (iadd pressure correction) ;;
             ret (Some sources, potential, pressure)
    | _ => raise (ValueError "non-broadcastable output operand")
    end
  else ret (Some sources, potential, pressure).

(** [BEMSolver.solve] as written (lines 101-196). *)
Definition solve_unwrapped (self : BEMSolver) (problem : Problem C Mesh)
    (method_arg : option string) (keep_details _check_wavelength : bool)
  : M C Mesh (Result C Mesh) :=
  log INFO (SolveMsg problem) ;;
  (if _check_wavelength
   then _check_wavelength_and_mesh_resolution [problem] ;;
        _check_wavelength_and_irregular_frequencies [problem]
   else ret tt) ;;
  (if is_diffraction problem && in_zero_inf (encounter_omega problem)
   then raise (ValueError zero_or_infinite_frequency_msg) else ret tt) ;;
  let '(omega_, wavenumber_) :=
    if float_ne (forward_speed problem) 0%float
    then (encounter_omega problem, encounter_wavenumber problem)
    else (omega problem, wavenumber problem) in
  let method_ := match method_arg with Some m => m | None => method self end in
  '(sources, potential, pressure) <-
    (if String.eqb method_ "direct"
     then solve_direct self problem omega_ wavenumber_
     else solve_indirect self problem omega_ wavenumber_) ;;
  let pressure_on_hull := firstn (nb_faces (mesh (body problem))) pressure in
  let forces := integrate_pressure (body problem) pressure_on_hull in
  let result :=
    if negb keep_details
    then make_results_container problem (Some forces) None None None
    else make_results_container problem (Some forces) sources (Some potential) (Some pressure) in
  log DEBUG DoneMsg ;;
  ret result.

(** [self.solve] after [__init__] has wrapped it in the "Solve total"
    timer. *)
Definition solve (self : BEMSolver) (problem : Problem C Mesh)
    (method_arg : option string) (keep_details _check_wavelength : bool)
  : M C Mesh (Result C Mesh) :=
  timed "Solve total" (solve_unwrapped self problem method_arg keep_details _check_wavelength).

Definition _solve_and_catch_errors (self : BEMSolver) (problem : Problem C Mesh)
    (method_arg : option string) (keep_details _check_wavelength : bool)
  : M C Mesh (any_result C Mesh) :=
  try_except
    (res <- solve self problem method_arg keep_details _check_wavelength ;; ret (Solved res))
    (fun e =>
       log INFO (SkippedMsg problem e) ;;
       ret (Failed (make_failed_results_container problem e))).

(** ** Batch resolution *)

(** [sorted(problems)]: a stable sort by the problems' [__lt__].  Each
    problem is placed after the problems already placed that are not greater
    than it. *)
Fixpoint insert_sorted (x : Problem C Mesh) (l : list (Problem C Mesh)) : list (Problem C Mesh) :=
  match l with
  | [] => [x]
  | y :: l' => if problem_lt x y then x :: y :: l' else y :: insert_sorted x l'
  end.

Definition sorted (problems : list (Problem C Mesh)) : list (Problem C Mesh) :=
  fold_left (fun acc x => insert_sorted x acc) problems [].

(** The progress-bar setting (lines 241-251): the argument, else the
    environment variable, else true. *)
Definition invalid_progress_bar_msg (value : string) : string :=
  "Invalid value '" +:+ value +:+ "' for the environment variable CAPYTAINE_PROGRESS_BAR.".

Definition progress_bar_setting (progress_bar : option bool) (environ : gmap string string)
  : outcome bool :=
  match progress_bar with
  | Some b => Return b
  | None =>
      match environ !! "CAPYTAINE_PROGRESS_BAR" with
      | Some value =>
          let env_var := lower value in
          if str_in env_var ["true"; "1"; "t"] then Return true
          else if str_in env_var ["false"; "0"; "f"] then Return false
          else Raise (ValueError (invalid_progress_bar_msg value))
      | None => Return true
      end
  end.

(** The sequential resolution (lines 254-257). *)
Definition sequential_resolution (self : BEMSolver) (problems : list (Problem C Mesh))
    (method_arg : option string) (progress_bar keep_details : bool)
  : M C Mesh (list (any_result C Mesh)) :=
  let problems := sorted problems in
  (if progress_bar then track "Solving BEM problems" (length problems) else ret tt) ;;
  for_each (fun pb => _solve_and_catch_errors self pb method_arg keep_details false) problems.

(** [self.solve_all(grp, method=method, n_jobs=1, progress_bar=False,
    _check_wavelength=False, **kwargs)], the call the parallel path delays
    for each group. *)
Definition solve_all_group (self : BEMSolver) (grp : list (Problem C Mesh))
    (method_arg : option string) (keep_details : bool) : M C Mesh (list (any_result C Mesh)) :=
  results <- sequential_resolution self grp method_arg false keep_details ;;
  ledger <- get_timer ;;
  log INFO (TimerSummaryMsg ledger) ;;
  ret results.

Definition missing_joblib_msg (n_jobs : Z) : string :=
  "Setting the `n_jobs` argument to " +:+ pretty n_jobs +:+
  " requires the missing optional dependency 'joblib'.".

(** [BEMSolver.solve_all] (lines 208-271); [keep_details] is the keyword
    argument passed on to [solve]. *)
Definition solve_all (rt : Runtime) (self : BEMSolver) (problems : list (Problem C Mesh))
    (method_arg : option string) (n_jobs : Z) (progress_bar : option bool)
    (_check_wavelength keep_details : bool) : M C Mesh (list (any_result C Mesh)) :=
  (if _check_wavelength
   then _check_wavelength_and_mesh_resolution problems ;;
        _check_wavelength_and_irregular_frequencies problems
   else ret tt) ;;
  progress_bar <- lift (progress_bar_setting progress_bar (environ rt)) ;;
  results <-
    (if Z.eqb n_jobs 1
     then sequential_resolution self problems method_arg progress_bar keep_details
     else
       match joblib rt with
       | None => raise (ImportError (missing_joblib_msg n_jobs))
       | Some parallel =>
           let groups_of_problems := _group_for_parallel_resolution problems in
           groups_of_results <-
             parallel n_jobs
               (map (fun grp => solve_all_group self grp method_arg keep_details)
                  groups_of_problems) ;;
           (if progress_bar
            then track ("Solving BEM problems with " +:+ pretty n_jobs +:+ " threads:")
                   (length groups_of_problems)
            else ret tt) ;;
           ret (concat groups_of_results)
       end) ;;
  ledger <- get_timer ;;
  log INFO (TimerSummaryMsg ledger) ;;
  ret results.

(** ** Legacy evaluation on a mesh *)

(** [for x in xs: acc = body(x, acc)]. *)
Fixpoint for_loop {A B : Type} (body_ : A -> B -> M C Mesh B) (xs : list A) (acc : B)
  : M C Mesh B :=
  match xs with
  | [] => ret acc
  | x :: xs' => acc' <- body_ x acc ;; for_loop body_ xs' acc'
  end.

(** [build_S_matrix] as [get_potential_on_mesh] calls it for a target
    mesh. *)
Definition potential_matrix (self : BEMSolver) (result : Result C Mesh) (m : Mesh) : Matrix C :=
  let pb := res_problem result in
  build_S_matrix (engine self) m (mesh_including_lid (body pb))
    (free_surface pb) (water_depth pb) (wavenumber pb) (green_function self).

(** One turn of the chunk loop (lines 552-559), for the chunk that starts at
    face [i]. *)
Definition potential_chunk (self : BEMSolver) (result : Result C Mesh) (mesh_ : Mesh)
    (chunk_size : Z) (src : list C) (i : Z) (phi : list C) : M C Mesh (list C) :=
  faces_to_extract <-
    lift (py_range i (Z.min (i + chunk_size) (Z.of_nat (nb_faces mesh_))) 1) ;;
  v <- lift (matmul (potential_matrix self result
                       (extract_faces mesh_ (map Z.to_nat faces_to_extract))) src) ;;
  lift (slice_assign phi (Z.to_nat i) (Z.to_nat (i + chunk_size)) v).

Definition get_potential_on_mesh (self : BEMSolver) (result : Result C Mesh)
    (mesh_ : Mesh) (chunk_size : Z) : M C Mesh (list C) :=
  log INFO (ComputePotentialMsg (mesh_name mesh_) result) ;;
  match sources result with
  | None => raise (PyException (sources_missing_msg result))
  | Some src =>
      phi <-
        (if Z.ltb (Z.of_nat (nb_faces mesh_)) chunk_size
         then lift (matmul (potential_matrix self result mesh_) src)
         else
           starts <- lift (py_range 0 (Z.of_nat (nb_faces mesh_)) chunk_size) ;;
           for_loop (potential_chunk self result mesh_ chunk_size src)
             starts (np_empty (nb_faces mesh_))) ;;
      log DEBUG (DoneComputePotentialMsg (mesh_name mesh_) result) ;;
      ret phi
  end.

Definition free_surface_forward_speed_msg : string :=
  "For free surface elevation with forward speed, please use the `compute_free_surface_elevation` method.".

(** [result.fs_elevation[free_surface] = fs_elevation]. *)
Definition set_fs_elevation (result : Result C Mesh) (key : positive) (value : list C)
  : Result C Mesh :=
  {| res_problem := res_problem result; forces := forces result; sources := sources result;
     potential := potential result; pressure := pressure result;
     fs_elevation := <[key := value]> (fs_elevation result) |}.

(** [get_free_surface_elevation] may write into the result it is given; the
    result object after the call is returned next to the outcome and the
    solver state. *)
Definition get_free_surface_elevation (self : BEMSolver) (result : Result C Mesh)
    (free_surface_ : FreeSurface Mesh) (keep_details : bool) (st : State C Mesh)
  : outcome (list C) * State C Mesh * Result C Mesh :=
  let pb := res_problem result in
  if float_ne (forward_speed pb) 0%float
  then (Raise (NotImplementedError free_surface_forward_speed_msg), st, result)
  else
    match get_potential_on_mesh self result (fs_mesh free_surface_) 50 st with
    | (Raise e, st') => (Raise e, st', result)
    | (Return phi, st') =>
        let fs_elevation := scale (Cdiv (Cmul Cj (Cof (omega pb))) (Cof (g pb))) phi in
        (Return fs_elevation, st',
         if keep_details then set_fs_elevation result (fs_id free_surface_) fs_elevation
         else result)
    end.

End Solver.

(** ** Notions used to state the properties *)

Section Statements.
Context {C : Type} `{Complex128 C} {Mesh : Type} `{MeshModel Mesh}
        {Points : Type} `{PointsModel Mesh Points} `{@ProblemModel C Mesh}.

Definition empty_state : State C Mesh := {| timer := ∅; events := [] |}.

(** Both checks in a row, as [solve] and [solve_all] run them when
    [_check_wavelength] is set. *)
Definition diagnostics (enabled : bool) (problems : list (Problem C Mesh)) : M C Mesh unit :=
  if enabled
  then _check_wavelength_and_mesh_resolution problems ;;
       _check_wavelength_and_irregular_frequencies problems
  else ret tt.

(** The method and the frequency pair [solve] works with (lines 140-146). *)
Definition selected_method (self : @BEMSolver C Mesh Points) (method_arg : option string) : string :=
  match method_arg with Some m => m | None => method self end.

Definition selected_frequency (pb : Problem C Mesh) : float * float :=
  if float_ne (forward_speed pb) 0%float
  then (encounter_omega pb, encounter_wavenumber pb)
  else (omega pb, wavenumber pb).

(** What [solve] returns or raises; the state it starts from has no part in
    it (see [solve_stateless]). *)
Definition solve_outcome (self : BEMSolver) (pb : Problem C Mesh) (method_arg : option string)
    (keep_details _check_wavelength : bool) : outcome (Result C Mesh) :=
  fst (solve self pb method_arg keep_details _check_wavelength empty_state).

(** The entry of the batch output that belongs to one problem. *)
Definition isolated (self : BEMSolver) (method_arg : option string) (keep_details : bool)
    (pb : Problem C Mesh) : any_result C Mesh :=
  match solve_outcome self pb method_arg keep_details false with
  | Return res => Solved res
  | Raise e => Failed (make_failed_results_container pb e)
  end.

(** A diffraction problem whose encounter frequency is zero or infinite. *)
Definition undefined_diffraction (pb : Problem C Mesh) : bool :=
  is_diffraction pb && in_zero_inf (encounter_omega pb).

(** A batch output with exactly one entry per submitted problem, in which
    an undefined diffraction problem has the [FailedResult] wrapping the
    domain error and a problem on which [solve] succeeds has its [Result]. *)
Definition isolated_batch (self : @BEMSolver C Mesh Points) (method_arg : option string)
    (keep_details : bool) (problems : list (Problem C Mesh))
    (results : list (any_result C Mesh)) : Prop :=
  Permutation (map problem_of results) problems /\
  Forall (fun r =>
            (is_diffraction (problem_of r) = true ->
             in_zero_inf (encounter_omega (problem_of r)) = true ->
             r = Failed (make_failed_results_container (problem_of r)
                           (ValueError zero_or_infinite_frequency_msg))) /\
            (forall res st',
                fst (solve self (problem_of r) method_arg keep_details false st') = Return res ->
                r = Solved res))
    results.

(** A list in which no problem comes before a smaller one: [sorted] leaves
    it as it is. *)
Fixpoint in_order (l : list (Problem C Mesh)) : Prop :=
  match l with
  | [] => True
  | x :: l' => Forall (fun y => problem_lt y x = false) l' /\ in_order l'
  end.

(** The computation does not read the state to decide what it returns. *)
Definition stateless {A : Type} (m : M C Mesh A) : Prop :=
  forall st1 st2, fst (m st1) = fst (m st2).

(** Rows [i, i + k) of a matrix. *)
Definition submatrix (A : Matrix C) (i k : nat) : Matrix C :=
  {| ncols := ncols A; rows := firstn k (skipn i (rows A)) |}.

(** The solver's engine builds the single-layer matrix with one row per
    face of the target mesh, and the row of a face does not depend on which
    other faces are evaluated with it. *)
Definition row_local (self : @BEMSolver C Mesh Points) : Prop :=
  (forall m b fs wd k,
     length (rows (build_S_matrix (engine self) m b fs wd k (green_function self)))
     = nb_faces m) /\
  (forall m b fs wd k i n, i + n <= nb_faces m ->
     build_S_matrix (engine self) (extract_faces m (seq i n)) b fs wd k (green_function self)
     = submatrix (build_S_matrix (engine self) m b fs wd k (green_function self)) i n).

(** The solver's engine builds [S] with one row per face of the mesh it is
    given. *)
Definition one_row_per_face (self : @BEMSolver C Mesh Points) : Prop :=
  forall m1 m2 fs wd k adj,
    length (rows (fst (build_matrices (engine self) m1 m2 fs wd k (green_function self) adj)))
    = nb_faces m1.

(** What the parallel path relies on: the executor hands back the value of
    every delayed call, in dispatch order, and the grouping policy neither
    loses nor duplicates a problem. *)
Definition dispatches_in_order
    (parallel : Z -> list (M C Mesh (list (any_result C Mesh)))
                -> M C Mesh (list (list (any_result C Mesh)))) : Prop :=
  forall n_jobs tasks values st,
    Forall2 (fun task v => forall s, fst (task s) = Return v) tasks values ->
    fst (parallel n_jobs tasks st) = Return values.

Definition grouping_is_a_partition (problems : list (Problem C Mesh)) : Prop :=
  Permutation (concat (_group_for_parallel_resolution problems)) problems.

(** The recommendation carried by a warning of the irregular-frequency
    check. *)
Definition recommendation_of (e : event C Mesh) : option string :=
  match e with
  | Log WARNING (IrregularOneMsg _ _ _ r) => Some r
  | Log WARNING (IrregularManyMsg _ _ _ r) => Some r
  | _ => None
  end.

End Statements.

(** ** A small concrete setting

    A one-dimensional stand-in for the collaborators, used to run the solver
    on explicit inputs: complex numbers are pairs of floats, a mesh is the
    list of the abscissae of its faces, the single-layer coefficient between
    two faces is the product of their abscissae, and the double-layer
    operator is the identity. *)

Definition toy_complex : Type := float * float.

#[export] Instance toy_Complex128 : Complex128 toy_complex := {|
  Cof := fun x => (x, 0%float);
  Cj := (0%float, 1%float);
  Cneg := fun z => (PrimFloat.opp (fst z), PrimFloat.opp (snd z));
  Cadd := fun z w => (PrimFloat.add (fst z) (fst w), PrimFloat.add (snd z) (snd w));
  Csub := fun z w => (PrimFloat.sub (fst z) (fst w), PrimFloat.sub (snd z) (snd w));
  Cmul := fun z w =>
    (PrimFloat.sub (PrimFloat.mul (fst z) (fst w)) (PrimFloat.mul (snd z) (snd w)),
     PrimFloat.add (PrimFloat.mul (fst z) (snd w)) (PrimFloat.mul (snd z) (fst w)));
  Cdiv := fun z w =>
    let d := PrimFloat.add (PrimFloat.mul (fst w) (fst w)) (PrimFloat.mul (snd w) (snd w)) in
    (PrimFloat.div (PrimFloat.add (PrimFloat.mul (fst z) (fst w)) (PrimFloat.mul (snd z) (snd w))) d,
     PrimFloat.div (PrimFloat.sub (PrimFloat.mul (snd z) (fst w)) (PrimFloat.mul (fst z) (snd w))) d);
  uninit := (nan, nan)
|}.

Record toy_mesh : Type := { toy_name : string; toy_faces : list float }.

#[export] Instance toy_MeshModel : MeshModel toy_mesh := {|
  nb_faces := fun m => length (toy_faces m);
  extract_faces := fun m ids =>
    {| toy_name := toy_name m; toy_faces := map (fun i => nth i (toy_faces m) 0%float) ids |};
  mesh_name := toy_name
|}.

#[export] Instance toy_PointsModel : PointsModel toy_mesh toy_mesh := {|
  points_of_mesh := fun m => m;
  _normalize_points := fun p => (p, [length (toy_faces p)]);
  _normalize_free_surface_points := fun p => (p, [length (toy_faces p)])
|}.

#[export] Instance toy_ProblemModel : @ProblemModel toy_complex toy_mesh := {|
  problem_lt := fun a b => PrimFloat.ltb (omega a) (omega b);
  _group_for_parallel_resolution := fun problems => map (fun pb => [pb]) problems;
  result_str := fun r => "Result(" +:+ body_name (body (res_problem r)) +:+ ")"
|}.

Definition toy_green_function : @GreenFunction toy_complex toy_mesh toy_mesh := {|
  evaluate := fun points m _ _ _ _ =>
    ({| ncols := length (toy_faces m);
        rows := map (fun x => map (fun y => Cof (PrimFloat.mul x y)) (toy_faces m))
                  (toy_faces points) |},
     {| t_ncols := length (toy_faces m);
        t_rows := map (fun x => map (fun y => (Cof y, Cof 0%float, Cof 0%float)) (toy_faces m))
                    (toy_faces points) |})
|}.

Definition toy_identity (n : nat) : Matrix toy_complex :=
  {| ncols := n;
     rows := map (fun i => map (fun j => if Nat.eqb i j then Cof 1%float else Cof 0%float)
                             (seq 0 n)) (seq 0 n) |}.

Definition toy_engine : @MatrixEngine toy_complex toy_mesh toy_mesh := {|
  build_matrices := fun m1 m2 fs wd k gf _ =>
    (fst (evaluate gf m1 m2 fs wd k true), toy_identity (length (toy_faces m1)));
  build_S_matrix := fun m1 m2 fs wd k gf => fst (evaluate gf m1 m2 fs wd k true);
  linear_solver := fun A b =>
    if Nat.eqb (ncols A) (length b) then Return b
    else Raise (LinAlgError "incompatible dimensions");
  engine_str := "ToyEngine"
|}.

Definition toy_solver (m : string) : @BEMSolver toy_complex toy_mesh toy_mesh :=
  {| green_function := toy_green_function; engine := toy_engine; method := m |}.

Definition toy_state : State toy_complex toy_mesh :=
  {| timer := initial_timer; events := [] |}.

(** An executor that runs every delayed call on a copy of the solver, as
    worker processes do, and leaves the caller's state alone. *)
Fixpoint toy_gather (tasks : list (M toy_complex toy_mesh (list (any_result toy_complex toy_mesh))))
    (st : State toy_complex toy_mesh) : outcome (list (list (any_result toy_complex toy_mesh))) :=
  match tasks with
  | [] => Return []
  | task :: tasks' =>
      match fst (task st), toy_gather tasks' st with
      | Return v, Return vs => Return (v :: vs)
      | Raise e, _ => Raise e
      | _, Raise e => Raise e
      end
  end.

Definition toy_parallel (n_jobs : Z)
    (tasks : list (M toy_complex toy_mesh (list (any_result toy_complex toy_mesh))))
  : M toy_complex toy_mesh (list (list (any_result toy_complex toy_mesh))) :=
  fun st => (toy_gather tasks st, st).

Definition toy_runtime_with_joblib : @Runtime toy_complex toy_mesh :=
  {| environ := ∅; joblib := Some toy_parallel |}.

Definition toy_runtime (env : gmap string string) : @Runtime toy_complex toy_mesh :=
  {| environ := env; joblib := None |}.

(** A hull of two faces, with or without a lid of one face. *)
Definition toy_hull : toy_mesh := {| toy_name := "hull"; toy_faces := [1%float; 2%float] |}.
Definition toy_lid : toy_mesh := {| toy_name := "lid"; toy_faces := [3%float] |}.
Definition toy_hull_and_lid : toy_mesh :=
  {| toy_name := "hull+lid"; toy_faces := [1%float; 2%float; 3%float] |}.
Definition toy_empty_mesh : toy_mesh := {| toy_name := "empty"; toy_faces := [] |}.

Definition toy_forces (p : list toy_complex) : list (string * toy_complex) :=
  [("Heave", fold_left Cadd p (Cof 0%float))].

Definition toy_body_with_lid : FloatingBody toy_complex toy_mesh := {|
  body_name := "lidded"; mesh := toy_hull; lid_mesh := Some toy_lid;
  mesh_including_lid := toy_hull_and_lid;
  minimal_computable_wavelength := 0.5%float; faces_radiuses_max := 0.0625%float;
  first_irregular_frequency_estimate := fun _ => 4%float;
  integrate_pressure := toy_forces
|}.

Definition toy_body_without_lid : FloatingBody toy_complex toy_mesh := {|
  body_name := "bare"; mesh := toy_hull; lid_mesh := None;
  mesh_including_lid := toy_hull;
  minimal_computable_wavelength := 0.5%float; faces_radiuses_max := 0.0625%float;
  first_irregular_frequency_estimate := fun _ => 4%float;
  integrate_pressure := toy_forces
|}.

(** A problem on the given body, of the given kind, at angular frequency [w]
    (encounter frequency [we]) and forward speed [U]. *)
Definition toy_problem (b : FloatingBody toy_complex toy_mesh) (k : @problem_kind)
    (w we U : float) : Problem toy_complex toy_mesh := {|
  kind := k; body := b; free_surface := 0%float; water_depth := infinity;
  omega := w; freq := PrimFloat.div w 6.25%float;
  period := PrimFloat.div 6.25%float w;
  wavenumber := PrimFloat.div (PrimFloat.mul w w) 10%float;
  wavelength := PrimFloat.div 62.5%float (PrimFloat.mul w w);
  encounter_omega := we;
  encounter_wavenumber := PrimFloat.div (PrimFloat.mul we we) 10%float;
  forward_speed := U; rho := 1000%float; g := 10%float;
  boundary_condition := map (fun _ => Cof 1%float) (toy_faces (mesh_including_lid b));
  provided_freq_type := Omega
|}.

Definition toy_radiation_1 : Problem toy_complex toy_mesh :=
  toy_problem toy_body_with_lid RadiationProblem 1%float 1%float 0%float.
Definition toy_radiation_2 : Problem toy_complex toy_mesh :=
  toy_problem toy_body_with_lid RadiationProblem 2%float 2%float 0%float.
Definition toy_diffraction_0 : Problem toy_complex toy_mesh :=
  toy_problem toy_body_with_lid DiffractionProblem 0%float 0%float 0%float.
Definition toy_diffraction_moving : Problem toy_complex toy_mesh :=
  toy_problem toy_body_with_lid DiffractionProblem 2%float 0%float 5%float.
Definition toy_radiation_moving : Problem toy_complex toy_mesh :=
  toy_problem toy_body_with_lid RadiationProblem 2%float 1.5%float 1%float.
Definition toy_bare_risky : Problem toy_complex toy_mesh :=
  toy_problem toy_body_without_lid RadiationProblem 5%float 5%float 0%float.

(** Stored sources on the lid-inclusive mesh, and results that hold them. *)
Definition toy_sources : list toy_complex := [Cof 1%float; Cof 1%float; Cof 1%float].

Definition toy_result_with_sources : Result toy_complex toy_mesh :=
  make_results_container toy_radiation_1 None (Some toy_sources) None None.

Definition toy_moving_result : Result toy_complex toy_mesh :=
  make_results_container toy_radiation_moving None (Some toy_sources) None None.

(** What the direct method returns for [toy_radiation_1] with details kept
    (see [toy_direct_solve]): no sources. *)
Definition toy_direct_result : Result toy_complex toy_mesh :=
  make_results_container toy_radiation_1
    (Some [("Heave", (0%float, 18000%float))])
    None
    (Some [(6%float, 0%float); (12%float, 0%float); (18%float, 0%float)])
    (Some [(0%float, 6000%float); (0%float, 12000%float); (0%float, 18000%float)]).

Definition toy_free_surface : FreeSurface toy_mesh := {| fs_id := 1%positive; fs_mesh := toy_hull |}.

(** [CAPYTAINE_PROGRESS_BAR=banana]. *)
Definition toy_banana_environ : gmap string string :=
  <["CAPYTAINE_PROGRESS_BAR" := "banana"]> ∅.

(** ** Further notions: the ledger, the warnings, settings and datasets *)

Section FurtherStatements.
Context {C : Type} `{Complex128 C} {Mesh : Type} `{MeshModel Mesh}
        {Points : Type} `{PointsModel Mesh Points} `{@ProblemModel C Mesh}.

(** [self.timer[name].nb_timings]; [None] when the ledger has no such
    accumulator. *)
Definition nb_timings (name : string) (st : State C Mesh) : option nat := timer st !! name.

(** The computation leaves the accumulator [name] alone, whether it returns
    or raises. *)
Definition preserves_timer (name : string) {A : Type} (m : M C Mesh A) : Prop :=
  forall st, nb_timings name (snd (m st)) = nb_timings name st.

Definition is_warning (e : event C Mesh) : bool :=
  match e with
  | Log WARNING _ => true
  | _ => false
  end.

(** The number of [LOG.warning] records among some events. *)
Definition warnings (evs : list (event C Mesh)) : nat := length (List.filter is_warning evs).

(** The computation only appends to the log, and at most [n] warnings. *)
Definition logs_at_most (n : nat) {A : Type} (m : M C Mesh A) : Prop :=
  forall st, exists delta,
    events (snd (m st)) = events st ++ delta /\ warnings delta <= n.

(** The engine takes the single-layer matrix of a mesh against itself from
    the solver's Green function, evaluated at the faces of the mesh. *)
Definition engine_uses_green_function (self : @BEMSolver C Mesh Points) : Prop :=
  forall m fs wd k adj,
    fst (build_matrices (engine self) m m fs wd k (green_function self) adj)
    = fst (evaluate (green_function self) (fst (_normalize_points (points_of_mesh m)))
             m fs wd k true).

(** [build_S_matrix] builds the [S] that [build_matrices] returns. *)
Definition S_matrices_agree (self : @BEMSolver C Mesh Points) : Prop :=
  forall m1 m2 fs wd k,
    build_S_matrix (engine self) m1 m2 fs wd k (green_function self)
    = fst (build_matrices (engine self) m1 m2 fs wd k (green_function self) true).

(** A mesh given as points is normalised to one output entry per face. *)
Definition mesh_points_keep_faces (m : Mesh) : Prop :=
  snd (_normalize_points (points_of_mesh m)) = [nb_faces m].

(** *** Exportable settings and [fill_dataset] *)

(** [self.exportable_settings] as [__init__] computes it (lines 70-77):
    the settings of the Green function, then those of the engine, then the
    method; [None] stands for a collaborator that has no
    [exportable_settings] attribute, in which case the [AttributeError] is
    caught and nothing is exported. *)
Definition exportable_settings (gf_settings eng_settings : option (gmap string string))
    (self : @BEMSolver C Mesh Points) : gmap string string :=
  match gf_settings, eng_settings with
  | Some gs, Some es => <["method" := method self]> (es ∪ gs)
  | _, _ => ∅
  end.

(** The attributes [fill_dataset] stamps the dataset with (lines 362-365);
    [now] is [datetime.now().isoformat()]. *)
Definition fill_dataset_attrs (now : string) (settings : gmap string string)
    (method_arg : option string) : gmap string string :=
  let attrs := settings ∪ {[ "start_of_computation" := now ]} in
  match method_arg with
  | Some m => <["method" := m]> attrs
  | None => attrs
  end.

End FurtherStatements.

(** The dataset layer ([capytaine.io.xarray]), as [fill_dataset] uses it:
    whether the dataset has a [theta] coordinate, the problems it stands
    for, the assembly of results, the Kochin data for the [theta] of a
    dataset, and [dataset.update]. *)
Class DatasetModel (C Mesh Dataset : Type) : Type := {
  has_theta : Dataset -> bool;
  problems_from_dataset : Dataset -> list (FloatingBody C Mesh) -> list (Problem C Mesh);
  assemble_dataset : list (any_result C Mesh) -> gmap string string -> Dataset;
  kochin_data_array : list (any_result C Mesh) -> Dataset -> Dataset;
  dataset_update : Dataset -> Dataset -> Dataset
}.

Section FillDataset.
Context {C : Type} `{Complex128 C} {Mesh : Type} `{MeshModel Mesh}
        {Points : Type} `{PointsModel Mesh Points} `{@ProblemModel C Mesh}
        {Dataset : Type} `{DatasetModel C Mesh Dataset}.

(** [BEMSolver.fill_dataset] (lines 332-375); [settings] is
    [self.exportable_settings]. *)
Definition fill_dataset (rt : @Runtime C Mesh) (self : @BEMSolver C Mesh Points)
    (settings : gmap string string) (now : string)
    (dataset : Dataset) (bodies : list (FloatingBody C Mesh))
    (method_arg : option string) (n_jobs : Z) (_check_wavelength : bool)
    (progress_bar : option bool) : M C Mesh Dataset :=
  let attrs := fill_dataset_attrs now settings method_arg in
  let problems := problems_from_dataset dataset bodies in
  if has_theta dataset then
    results <- solve_all rt self problems method_arg n_jobs progress_bar
                 _check_wavelength true ;;
    let kochin := kochin_data_array results dataset in
    ret (dataset_update (assemble_dataset results attrs) kochin)
  else
    results <- solve_all rt self problems method_arg n_jobs progress_bar
                 _check_wavelength false ;;
    ret (assemble_dataset results attrs).

End FillDataset.

(** A dataset of the concrete setting: a flag for the [theta] coordinate,
    the problems it stands for, and, once filled, the results, the
    attributes and whether Kochin data were merged in. *)
Record toy_dataset : Type := {
  toy_theta : bool;
  toy_grid : list (Problem toy_complex toy_mesh);
  toy_filled : list (any_result toy_complex toy_mesh);
  toy_attrs : gmap string string;
  toy_kochin : bool
}.

#[export] Instance toy_DatasetModel : DatasetModel toy_complex toy_mesh toy_dataset := {|
  has_theta := toy_theta;
  problems_from_dataset := fun ds _ => toy_grid ds;
  assemble_dataset := fun results attrs =>
    {| toy_theta := false; toy_grid := []; toy_filled := results; toy_attrs := attrs;
       toy_kochin := false |};
  kochin_data_array := fun results ds =>
    {| toy_theta := toy_theta ds; toy_grid := []; toy_filled := results; toy_attrs := ∅;
       toy_kochin := true |};
  dataset_update := fun ds extra =>
    {| toy_theta := toy_theta extra; toy_grid := toy_grid ds; toy_filled := toy_filled ds;
       toy_attrs := toy_attrs ds; toy_kochin := toy_kochin extra |}
|}.

Definition toy_grid_dataset (theta : bool) : toy_dataset :=
  {| toy_theta := theta; toy_grid := [toy_radiation_2; toy_radiation_1];
     toy_filled := []; toy_attrs := ∅; toy_kochin := false |}.

(** An engine whose linear solver loses the first entry of the right-hand
    side, and a solver built on it. *)
Definition toy_short_engine : @MatrixEngine toy_complex toy_mesh toy_mesh := {|
  build_matrices := build_matrices toy_engine;
  build_S_matrix := build_S_matrix toy_engine;
  linear_solver := fun _ b => Return (tl b);
  engine_str := "ShortEngine"
|}.

Definition toy_short_solver (m : string) : @BEMSolver toy_complex toy_mesh toy_mesh :=
  {| green_function := toy_green_function; engine := toy_short_engine; method := m |}.

(** * Properties *)

Section Properties.
Context {C : Type} `{Complex128 C} {Mesh : Type} `{MeshModel Mesh}
        {Points : Type} `{PointsModel Mesh Points} `{@ProblemModel C Mesh}.

Implicit Types (self : @BEMSolver C Mesh Points) (pb : Problem C Mesh)
  (st : State C Mesh) (problems : list (Problem C Mesh)).

(** ** Running computations *)

Lemma bind_run {A B : Type} (m : M C Mesh A) (k : A -> M C Mesh B) st :
  bind m k st =
  match m st with
  | (Return a, st') => k a st'
  | (Raise e, st') => (Raise e, st')
  end.
Proof. reflexivity. Qed.

Lemma bind_returns {A B : Type} (m : M C Mesh A) (k : A -> M C Mesh B) st a st' :
  m st = (Return a, st') -> bind m k st = k a st'.
Proof. intros Hm. unfold bind. now rewrite Hm. Qed.

Lemma bind_raises {A B : Type} (m : M C Mesh A) (k : A -> M C Mesh B) st e st' :
  m st = (Raise e, st') -> bind m k st = (Raise e, st').
Proof. intros Hm. unfold bind. now rewrite Hm. Qed.

(** ** Computations that do not read the state *)

Lemma stateless_ret {A : Type} (a : A) : stateless (ret (C:=C) (Mesh:=Mesh) a).
Proof. intros st1 st2. reflexivity. Qed.

Lemma stateless_raise {A : Type} (e : exn) : stateless (raise (C:=C) (Mesh:=Mesh) (A:=A) e).
Proof. intros st1 st2. reflexivity. Qed.

Lemma stateless_lift {A : Type} (o : outcome A) : stateless (lift (C:=C) (Mesh:=Mesh) o).
Proof. intros st1 st2. reflexivity. Qed.

Lemma stateless_log l (m : message C Mesh) : stateless (log l m).
Proof. intros st1 st2. reflexivity. Qed.

Lemma stateless_track d n : stateless (track (C:=C) (Mesh:=Mesh) d n).
Proof. intros st1 st2. reflexivity. Qed.

Lemma stateless_bind {A B : Type} (m : M C Mesh A) (k : A -> M C Mesh B) :
  stateless m -> (forall a, stateless (k a)) -> stateless (bind m k).
Proof.
  intros Hm Hk st1 st2. unfold bind.
  specialize (Hm st1 st2).
  destruct (m st1) as [[a1|e1] s1], (m st2) as [[a2|e2] s2]; simpl in Hm;
    try discriminate; inversion Hm; subst; [apply Hk | reflexivity].
Qed.

Lemma stateless_timed {A : Type} name (m : M C Mesh A) :
  stateless m -> stateless (timed name m).
Proof.
  intros Hm st1 st2. unfold timed. specialize (Hm st1 st2).
  destruct (m st1) as [r1 s1], (m st2) as [r2 s2]. exact Hm.
Qed.

Lemma stateless_try_except {A : Type} (m : M C Mesh A) (h : exn -> M C Mesh A) :
  stateless m -> (forall e, stateless (h e)) -> stateless (try_except m h).
Proof.
  intros Hm Hh st1 st2. unfold try_except. specialize (Hm st1 st2).
  destruct (m st1) as [[a1|e1] s1], (m st2) as [[a2|e2] s2]; simpl in Hm;
    try discriminate; inversion Hm; subst; [reflexivity | apply Hh].
Qed.

Lemma stateless_for_each {A B : Type} (f : A -> M C Mesh B) (xs : list A) :
  (forall x, stateless (f x)) -> stateless (for_each f xs).
Proof.
  intros Hf. induction xs as [|x xs IH]; simpl.
  - apply stateless_ret.
  - apply stateless_bind; [apply Hf | intros y].
    apply stateless_bind; [exact IH | intros ys; apply stateless_ret].
Qed.

(** Splits a goal [stateless m] along the structure of [m]. *)
Ltac stateless_step :=
  match goal with
  | |- stateless (bind _ _) => apply stateless_bind; [| intros ?]
  | |- stateless (ret _) => apply stateless_ret
  | |- stateless (raise _) => apply stateless_raise
  | |- stateless (lift _) => apply stateless_lift
  | |- stateless (log _ _) => apply stateless_log
  | |- stateless (track _ _) => apply stateless_track
  | |- stateless (timed _ _) => apply stateless_timed
  | |- stateless (if ?b then _ else _) => destruct b
  | |- stateless (match ?x with _ => _ end) => destruct x
  | |- stateless (let '(_, _) := ?x in _) => destruct x
  end.

(** ** The diagnostic checks only log *)

Lemma check_mesh_resolution_run problems st :
  exists evs,
    _check_wavelength_and_mesh_resolution problems st
    = (Return tt, {| timer := timer st; events := events st ++ evs |}).
Proof.
  unfold _check_wavelength_and_mesh_resolution, bind, log, ret.
  destruct (List.filter mesh_resolution_risky problems) as [|pb0 [|pb1 rest]];
    simpl; rewrite <- ?app_assoc; eexists; reflexivity.
Qed.

Lemma check_irregular_frequencies_run problems st :
  exists evs,
    _check_wavelength_and_irregular_frequencies problems st
    = (Return tt, {| timer := timer st; events := events st ++ evs |}).
Proof.
  unfold _check_wavelength_and_irregular_frequencies, bind, log, ret.
  destruct (List.filter irregular_frequency_risky problems) as [|pb0 [|pb1 rest]];
    simpl; rewrite <- ?app_assoc; eexists; reflexivity.
Qed.

Lemma diagnostics_run enabled problems st :
  exists evs,
    diagnostics enabled problems st
    = (Return tt, {| timer := timer st; events := events st ++ evs |}).
Proof.
  unfold diagnostics. destruct enabled.
  - destruct (check_mesh_resolution_run problems st) as [e1 E1].
    rewrite (bind_returns _ _ _ _ _ E1).
    destruct (check_irregular_frequencies_run problems
                {| timer := timer st; events := events st ++ e1 |}) as [e2 E2].
    rewrite E2. cbn [timer events]. rewrite <- app_assoc. eexists; reflexivity.
  - exists []. rewrite app_nil_r. destruct st; reflexivity.
Qed.

Lemma stateless_check_mesh_resolution problems :
  stateless (_check_wavelength_and_mesh_resolution problems).
Proof.
  intros st1 st2.
  destruct (check_mesh_resolution_run problems st1) as [e1 ->].
  destruct (check_mesh_resolution_run problems st2) as [e2 ->]. reflexivity.
Qed.

Lemma stateless_check_irregular_frequencies problems :
  stateless (_check_wavelength_and_irregular_frequencies problems).
Proof.
  intros st1 st2.
  destruct (check_irregular_frequencies_run problems st1) as [e1 ->].
  destruct (check_irregular_frequencies_run problems st2) as [e2 ->]. reflexivity.
Qed.

(** ** [solve] does not read the state *)

Ltac stateless_tac :=
  repeat first
    [ apply stateless_check_mesh_resolution
    | apply stateless_check_irregular_frequencies
    | stateless_step ].

Lemma stateless_compute_potential_gradient self (points : Points) (result : Result C Mesh) :
  stateless (_compute_potential_gradient self points result).
Proof. unfold _compute_potential_gradient. stateless_tac. Qed.

Lemma stateless_solve_direct self pb w k : stateless (solve_direct self pb w k).
Proof. unfold solve_direct. stateless_tac. Qed.

Lemma stateless_solve_indirect self pb w k : stateless (solve_indirect self pb w k).
Proof.
  unfold solve_indirect.
  repeat first [ apply stateless_compute_potential_gradient | stateless_step ].
Qed.

Lemma solve_stateless self pb method_arg kd cw :
  stateless (solve self pb method_arg kd cw).
Proof.
  unfold solve, solve_unwrapped. apply stateless_timed.
  repeat first
    [ apply stateless_solve_direct
    | apply stateless_solve_indirect
    | apply stateless_check_mesh_resolution
    | apply stateless_check_irregular_frequencies
    | stateless_step ].
Qed.

Lemma solve_fst self pb method_arg kd cw st :
  fst (solve self pb method_arg kd cw st) = solve_outcome self pb method_arg kd cw.
Proof. apply solve_stateless. Qed.

(** ** The failure-isolating wrapper and the sequential resolution *)

Lemma solve_and_catch_errors_fst self pb method_arg kd st :
  fst (_solve_and_catch_errors self pb method_arg kd false st)
  = Return (isolated self method_arg kd pb).
Proof.
  unfold _solve_and_catch_errors, try_except, isolated.
  rewrite <- (solve_fst self pb method_arg kd false st).
  rewrite bind_run.
  destruct (solve self pb method_arg kd false st) as [[res|e] st']; reflexivity.
Qed.

Lemma for_each_fst {A B : Type} (f : A -> M C Mesh B) (g : A -> B) (xs : list A) :
  (forall x st, fst (f x st) = Return (g x)) ->
  forall st, fst (for_each f xs st) = Return (map g xs).
Proof.
  intros Hf. induction xs as [|x xs IH]; intros st; simpl.
  - reflexivity.
  - rewrite bind_run. specialize (Hf x st).
    destruct (f x st) as [[y|e] st1]; simpl in Hf; [|discriminate].
    inversion Hf; subst. rewrite bind_run. specialize (IH st1).
    destruct (for_each f xs st1) as [[ys|e] st2]; simpl in IH; [|discriminate].
    inversion IH; subst. reflexivity.
Qed.

Lemma sequential_resolution_fst self problems method_arg b kd st :
  fst (sequential_resolution self problems method_arg b kd st)
  = Return (map (isolated self method_arg kd) (sorted problems)).
Proof.
  unfold sequential_resolution. rewrite bind_run.
  destruct b; simpl; apply for_each_fst; intros; apply solve_and_catch_errors_fst.
Qed.

(** [solve_all] on the sequential path, once the progress-bar setting is
    known: one isolated entry per problem, in sorted order. *)
Lemma solve_all_sequential_fst (rt : @Runtime C Mesh) self problems method_arg
    progress_bar cw kd st b :
  progress_bar_setting progress_bar (environ rt) = Return b ->
  fst (solve_all rt self problems method_arg 1 progress_bar cw kd st)
  = Return (map (isolated self method_arg kd) (sorted problems)).
Proof.
  intros Hb. unfold solve_all.
  destruct (diagnostics_run cw problems st) as [evs Hd].
  change (if cw then _ else _) with (diagnostics cw problems).
  rewrite (bind_returns _ _ _ _ _ Hd).
  rewrite Hb. rewrite bind_run. cbn [lift Z.eqb Pos.eqb].
  rewrite bind_run.
  pose proof (sequential_resolution_fst self problems method_arg b kd
                {| timer := timer st; events := events st ++ evs |}) as Hs.
  destruct (sequential_resolution self problems method_arg b kd _) as [[rs|e] st1];
    simpl in Hs; [|discriminate].
  inversion Hs; subst. reflexivity.
Qed.

(** ** [sorted] *)

Lemma insert_sorted_permutation (x : Problem C Mesh) l :
  Permutation (insert_sorted x l) (x :: l).
Proof.
  induction l as [|y l IH]; simpl.
  - reflexivity.
  - destruct (problem_lt x y); [reflexivity|].
    rewrite IH. apply perm_swap.
Qed.

Lemma sorted_permutation problems : Permutation (sorted problems) problems.
Proof.
  unfold sorted.
  assert (Hgen : forall l acc,
             Permutation (fold_left (fun acc x => insert_sorted x acc) l acc) (acc ++ l)).
  { induction l as [|x l IH]; intros acc; simpl.
    - now rewrite app_nil_r.
    - rewrite IH, insert_sorted_permutation.
      change (x :: acc ++ l) with ((x :: acc) ++ l).
      rewrite (Permutation_cons_append acc x), <- app_assoc. reflexivity. }
  apply (Hgen problems []).
Qed.

Lemma insert_sorted_last (x : Problem C Mesh) l :
  Forall (fun y => problem_lt x y = false) l -> insert_sorted x l = l ++ [x].
Proof.
  induction 1 as [|y l Hy _ IH]; simpl; [reflexivity|].
  now rewrite Hy, IH.
Qed.

Lemma in_order_app_cons (l1 l2 : list (Problem C Mesh)) x :
  in_order (l1 ++ x :: l2) ->
  Forall (fun y => problem_lt x y = false) l1 /\ in_order ((l1 ++ [x]) ++ l2).
Proof.
  rewrite <- app_assoc. simpl. intros Hio. split; [|exact Hio].
  induction l1 as [|a l1 IH]; simpl in *; [constructor|].
  destruct Hio as [Ha Hio]. constructor; [|now apply IH].
  rewrite List.Forall_forall in Ha. apply Ha. apply in_or_app. right. now left.
Qed.

Lemma sorted_in_order problems : in_order problems -> sorted problems = problems.
Proof.
  unfold sorted.
  assert (Hgen : forall l acc, in_order (acc ++ l) ->
             fold_left (fun acc x => insert_sorted x acc) l acc = acc ++ l).
  { induction l as [|x l IH]; intros acc Hio; simpl.
    - now rewrite app_nil_r.
    - apply in_order_app_cons in Hio. destruct Hio as [Hx Hio].
      rewrite (insert_sorted_last _ _ Hx), (IH _ Hio), <- app_assoc. reflexivity. }
  apply (Hgen problems []).
Qed.

(** ** What a successful [solve] has computed *)

Lemma bind_inv {A B : Type} (m : M C Mesh A) (k : A -> M C Mesh B) st b st2 :
  bind m k st = (Return b, st2) ->
  exists a st1, m st = (Return a, st1) /\ k a st1 = (Return b, st2).
Proof.
  unfold bind. destruct (m st) as [[a|e] st1]; [|discriminate].
  intros Hk. now exists a, st1.
Qed.

Lemma timed_inv {A : Type} name (m : M C Mesh A) st a st2 :
  timed name m st = (Return a, st2) -> exists st1, m st = (Return a, st1).
Proof.
  unfold timed. destruct (m st) as [r st1]. intros Ht. inversion Ht; subst. now exists st1.
Qed.

Lemma guard_inv (c : bool) (e : exn) st (u : unit) st1 :
  (if c then raise e else ret tt) st = (Return u, st1) -> c = false /\ st1 = st.
Proof. destruct c; [discriminate|]. intros Hr. inversion Hr. now split. Qed.

Lemma lift_inv {A : Type} (o : outcome A) st a st1 :
  lift (C:=C) (Mesh:=Mesh) o st = (Return a, st1) -> o = Return a.
Proof. unfold lift. intros Hl. now inversion Hl. Qed.

Lemma ret_inv {A : Type} (x : A) st a st1 :
  ret (C:=C) (Mesh:=Mesh) x st = (Return a, st1) -> a = x.
Proof. unfold ret. intros Hr. now inversion Hr. Qed.

Lemma length_scale (c : C) (v : list C) : length (scale c v) = length v.
Proof. apply length_map. Qed.

Lemma iadd_length (a b c : list C) : iadd a b = Return c -> length c = length a.
Proof.
  unfold iadd. destruct (Nat.eqb (length b) (length a)) eqn:E.
  - intros Hc. inversion Hc; subst. apply Nat.eqb_eq in E.
    rewrite length_map, length_combine. lia.
  - destruct b as [|x [|y b]]; try discriminate.
    intros Hc. inversion Hc; subst. apply length_map.
Qed.

Lemma matmul_length (A : Matrix C) (v w : list C) :
  matmul A v = Return w -> length w = length (rows A).
Proof.
  unfold matmul. destruct (Nat.eqb (ncols A) (length v)); [|discriminate].
  intros Hw. inversion Hw; subst. apply length_map.
Qed.

Lemma solve_direct_returns self pb w k st src phi p st' :
  solve_direct self pb w k st = (Return (src, phi, p), st') ->
  src = None /\ float_ne (forward_speed pb) 0%float = false /\
  length phi = length (boundary_condition pb) /\ length p = length phi.
Proof.
  unfold solve_direct. intros Hs.
  apply bind_inv in Hs. destruct Hs as (u & s1 & Hg & Hs).
  apply guard_inv in Hg. destruct Hg as [HU ->].
  apply bind_inv in Hs. destruct Hs as ([Sm Dm] & s2 & _ & Hs).
  apply bind_inv in Hs. destruct Hs as (rhs & s3 & _ & Hs).
  apply bind_inv in Hs. destruct Hs as (phi' & s4 & _ & Hs).
  apply bind_inv in Hs. destruct Hs as (u' & s5 & Hg & Hs).
  apply guard_inv in Hg. destruct Hg as [Hlen ->].
  apply ret_inv in Hs. inversion Hs; subst.
  apply negb_false_iff, Nat.eqb_eq in Hlen.
  repeat split; [exact HU | exact Hlen | apply length_scale].
Qed.

Lemma solve_indirect_returns self pb w k st src phi p st' :
  solve_indirect self pb w k st = (Return (src, phi, p), st') ->
  exists s,
    src = Some s /\ length s = length (boundary_condition pb) /\
    matmul (fst (build_matrices (engine self)
                   (mesh_including_lid (body pb)) (mesh_including_lid (body pb))
                   (free_surface pb) (water_depth pb) k (green_function self) true)) s
    = Return phi /\
    length p = length phi.
Proof.
  unfold solve_indirect. intros Hs.
  apply bind_inv in Hs. destruct Hs as ([Sm Km] & s1 & Hb & Hs).
  apply timed_inv in Hb. destruct Hb as [s0 Hb]. apply ret_inv in Hb.
  apply bind_inv in Hs. destruct Hs as (srcs & s2 & _ & Hs).
  apply bind_inv in Hs. destruct Hs as (u & s3 & Hg & Hs).
  apply guard_inv in Hg. destruct Hg as [Hlen ->].
  apply bind_inv in Hs. destruct Hs as (phi' & s4 & Hphi & Hs).
  apply lift_inv in Hphi.
  apply negb_false_iff, Nat.eqb_eq in Hlen.
  rewrite <- Hb. cbn [fst].
  destruct (float_ne (forward_speed pb) 0%float).
  - apply bind_inv in Hs. destruct Hs as ([shape nabla] & s5 & _ & Hs).
    destruct shape as [|n [|n' shape]]; try discriminate.
    apply bind_inv in Hs. destruct Hs as (p' & s6 & Hadd & Hs).
    apply lift_inv in Hadd. apply iadd_length in Hadd. rewrite length_scale in Hadd.
    apply ret_inv in Hs. inversion Hs; subst.
    exists srcs. repeat split; assumption.
  - apply ret_inv in Hs. inversion Hs; subst.
    exists srcs. repeat split; try assumption. apply length_scale.
Qed.

Lemma solve_unwrapped_returns self pb method_arg kd cw st r st' :
  solve_unwrapped self pb method_arg kd cw st = (Return r, st') ->
  exists src phi p st1 st2,
    (if String.eqb (selected_method self method_arg) "direct"
     then solve_direct self pb (fst (selected_frequency pb)) (snd (selected_frequency pb))
     else solve_indirect self pb (fst (selected_frequency pb)) (snd (selected_frequency pb))) st1
    = (Return (src, phi, p), st2) /\
    r = (if negb kd
         then make_results_container pb
                (Some (integrate_pressure (body pb) (firstn (nb_faces (mesh (body pb))) p)))
                None None None
         else make_results_container pb
                (Some (integrate_pressure (body pb) (firstn (nb_faces (mesh (body pb))) p)))
                src (Some phi) (Some p)).
Proof.
  unfold solve_unwrapped, selected_method, selected_frequency. intros Hs.
  apply bind_inv in Hs. destruct Hs as (u0 & s0 & _ & Hs).
  apply bind_inv in Hs. destruct Hs as (u1 & s1 & _ & Hs).
  apply bind_inv in Hs. destruct Hs as (u2 & s2 & _ & Hs).
  destruct (float_ne (forward_speed pb) 0%float); cbn [fst snd];
    apply bind_inv in Hs; destruct Hs as ([[src phi] p] & s3 & Hf & Hs);
    apply bind_inv in Hs; destruct Hs as (u3 & s4 & _ & Hs);
    apply ret_inv in Hs; subst r;
    exists src, phi, p, s2, s3; (split; [exact Hf | reflexivity]).
Qed.

Lemma solve_returns_problem self pb method_arg kd cw st r st' :
  solve self pb method_arg kd cw st = (Return r, st') -> res_problem r = pb.
Proof.
  intros Hs. apply timed_inv in Hs. destruct Hs as [s1 Hs].
  apply solve_unwrapped_returns in Hs.
  destruct Hs as (src & phi & p & s2 & s3 & _ & ->). now destruct kd.
Qed.

Lemma problem_of_isolated self method_arg kd pb :
  problem_of (isolated self method_arg kd pb) = pb.
Proof.
  unfold isolated, solve_outcome.
  destruct (solve self pb method_arg kd false empty_state) as [[r|e] st'] eqn:E;
    simpl; [|reflexivity].
  now apply solve_returns_problem in E.
Qed.

(** ** Undefined diffraction problems and the batch (C1, C2) *)

Lemma solve_undefined_diffraction self pb method_arg kd cw st :
  undefined_diffraction pb = true ->
  fst (solve self pb method_arg kd cw st) = Raise (ValueError zero_or_infinite_frequency_msg).
Proof.
  unfold undefined_diffraction. intros Hbad.
  unfold solve, timed, solve_unwrapped.
  change (if cw then _ else _) with (diagnostics cw [pb]).
  rewrite bind_run. cbn [log].
  destruct (diagnostics_run cw [pb]
              {| timer := timer st; events := events st ++ [Log INFO (SolveMsg pb)] |})
    as [evs Hd].
  rewrite (bind_returns _ _ _ _ _ Hd). rewrite Hbad. reflexivity.
Qed.

Lemma isolated_entries self method_arg kd (l : list (Problem C Mesh)) problems :
  Permutation l problems ->
  isolated_batch self method_arg kd problems (map (isolated self method_arg kd) l).
Proof.
  intros Hperm. split.
  - rewrite map_map.
    now rewrite (map_ext _ (fun pb => pb) (problem_of_isolated self method_arg kd)), map_id.
  - apply List.Forall_forall. intros r Hr.
    apply in_map_iff in Hr. destruct Hr as (pb & <- & _).
    rewrite problem_of_isolated. split.
    + intros Hd Hz. unfold isolated.
      rewrite <- (solve_fst self pb method_arg kd false empty_state).
      rewrite solve_undefined_diffraction; [reflexivity|].
      unfold undefined_diffraction. now rewrite Hd, Hz.
    + intros res st' Hres. unfold isolated.
      rewrite <- (solve_fst self pb method_arg kd false st'), Hres. reflexivity.
Qed.

(** The parallel path *)

Lemma solve_all_group_fst self grp method_arg kd st :
  fst (solve_all_group self grp method_arg kd st)
  = Return (map (isolated self method_arg kd) (sorted grp)).
Proof.
  unfold solve_all_group. rewrite bind_run.
  pose proof (sequential_resolution_fst self grp method_arg false kd st) as Hs.
  destruct (sequential_resolution self grp method_arg false kd st) as [[rs|e] st1];
    simpl in Hs; [|discriminate].
  inversion Hs; subst. reflexivity.
Qed.

Lemma solve_all_parallel_fst (rt : @Runtime C Mesh) self problems method_arg
    n_jobs progress_bar cw kd st b parallel :
  progress_bar_setting progress_bar (environ rt) = Return b ->
  n_jobs <> 1%Z -> joblib rt = Some parallel -> dispatches_in_order parallel ->
  fst (solve_all rt self problems method_arg n_jobs progress_bar cw kd st)
  = Return (map (isolated self method_arg kd)
              (concat (map sorted (_group_for_parallel_resolution problems)))).
Proof.
  intros Hb Hn Hj Hpar. unfold solve_all.
  destruct (diagnostics_run cw problems st) as [evs Hd].
  change (if cw then _ else _) with (diagnostics cw problems).
  rewrite (bind_returns _ _ _ _ _ Hd).
  rewrite Hb, bind_run. cbn [lift].
  apply Z.eqb_neq in Hn. rewrite Hn, Hj.
  set (groups := _group_for_parallel_resolution problems).
  set (s1 := {| timer := timer st; events := events st ++ evs |}).
  assert (Hvalues :
            fst (parallel n_jobs
                   (map (fun grp => solve_all_group self grp method_arg kd) groups) s1)
            = Return (map (fun grp => map (isolated self method_arg kd) (sorted grp)) groups)).
  { apply Hpar. induction groups as [|grp groups IH]; simpl; constructor; [|exact IH].
    intros s. apply solve_all_group_fst. }
  rewrite !bind_run.
  destruct (parallel n_jobs _ s1) as [[vs|e] s2]; simpl in Hvalues; [|discriminate].
  inversion Hvalues; subst.
  rewrite concat_map, map_map.
  destruct b; reflexivity.
Qed.

Lemma concat_sorted_permutation (groups : list (list (Problem C Mesh))) :
  Permutation (concat (map sorted groups)) (concat groups).
Proof.
  induction groups as [|grp groups IH]; simpl; [reflexivity|].
  apply Permutation_app; [apply sorted_permutation | exact IH].
Qed.

(** C1.  A diffraction problem whose encounter frequency is exactly zero or
    infinite makes [solve] raise the domain error (a [ValueError]).  In a
    batch, the progress-bar setting being valid, [solve_all] returns
    normally with exactly one entry per submitted problem; the entry of such
    a diffraction problem is the [FailedResult] that wraps the [ValueError],
    and the entry of a problem on which [solve] succeeds is its [Result].
    This holds on the sequential path ([n_jobs = 1]) and on the parallel
    path with an executor that hands back every value in dispatch order and
    a grouping that is a partition of the batch. *)
Theorem solve_all_isolates_undefined_diffraction
    (rt : @Runtime C Mesh) self problems method_arg progress_bar cw kd st b :
  progress_bar_setting progress_bar (environ rt) = Return b ->
  (forall pb kd' cw' st',
      is_diffraction pb = true -> in_zero_inf (encounter_omega pb) = true ->
      fst (solve self pb method_arg kd' cw' st')
      = Raise (ValueError zero_or_infinite_frequency_msg)) /\
  (exists results,
      fst (solve_all rt self problems method_arg 1 progress_bar cw kd st) = Return results /\
      isolated_batch self method_arg kd problems results) /\
  (forall n_jobs parallel,
      n_jobs <> 1%Z -> joblib rt = Some parallel ->
      dispatches_in_order parallel -> grouping_is_a_partition problems ->
      exists results,
        fst (solve_all rt self problems method_arg n_jobs progress_bar cw kd st)
        = Return results /\
        isolated_batch self method_arg kd problems results).
Proof.
  intros Hb. split; [|split].
  - intros pb kd' cw' st' Hd Hz. apply solve_undefined_diffraction.
    unfold undefined_diffraction. now rewrite Hd, Hz.
  - exists (map (isolated self method_arg kd) (sorted problems)). split.
    + now apply solve_all_sequential_fst with (b := b).
    + apply isolated_entries, sorted_permutation.
  - intros n_jobs parallel Hn Hj Hpar Hgroups.
    exists (map (isolated self method_arg kd)
              (concat (map sorted (_group_for_parallel_resolution problems)))).
    split.
    + now apply solve_all_parallel_fst with (b := b) (parallel := parallel).
    + apply isolated_entries. rewrite concat_sorted_permutation. exact Hgroups.
Qed.

(** C2, as the code has it.  On the sequential path the output follows
    [sorted(problems)]: its i-th element is the [Result] or [FailedResult] of
    the i-th problem of the sorted list.  The output is in input order when
    the input list is already in order. *)
Theorem solve_all_sequential_follows_sorted_order
    (rt : @Runtime C Mesh) self problems method_arg progress_bar cw kd st b :
  progress_bar_setting progress_bar (environ rt) = Return b ->
  exists results,
    fst (solve_all rt self problems method_arg 1 progress_bar cw kd st) = Return results /\
    results = map (isolated self method_arg kd) (sorted problems) /\
    map problem_of results = sorted problems /\
    (in_order problems -> map problem_of results = problems).
Proof.
  intros Hb. exists (map (isolated self method_arg kd) (sorted problems)).
  assert (Hp : map problem_of (map (isolated self method_arg kd) (sorted problems))
               = sorted problems).
  { rewrite map_map.
    rewrite (map_ext _ (fun pb => pb) (problem_of_isolated self method_arg kd)).
    apply map_id. }
  repeat split.
  - now apply solve_all_sequential_fst with (b := b).
  - exact Hp.
  - intros Hio. rewrite Hp. now apply sorted_in_order.
Qed.

(** ** The progress-bar setting (C3) *)

Lemma true_words_not_false_words (s : string) :
  str_in s ["true"; "1"; "t"] = true -> str_in s ["false"; "0"; "f"] = false.
Proof.
  unfold str_in. simpl. rewrite !orb_false_r, !orb_true_iff, !String.eqb_eq.
  intros [-> | [-> | ->]]; reflexivity.
Qed.

Lemma not_a_word (s : string) :
  str_in s ["true"; "1"; "t"; "false"; "0"; "f"] = false ->
  str_in s ["true"; "1"; "t"] = false /\ str_in s ["false"; "0"; "f"] = false.
Proof.
  unfold str_in. simpl. rewrite !orb_false_r, !orb_false_iff.
  intros (E1 & E2 & E3 & E4 & E5 & E6). now rewrite E1, E2, E3, E4, E5, E6.
Qed.

(** C3.  With [progress_bar=None] the environment variable is lower-cased
    and read as true for "true", "1", "t" and as false for "false", "0",
    "f"; any other value makes [solve_all] raise a [ValueError] right after
    the diagnostics, with nothing solved and the timing ledger untouched;
    an unset variable means true.  An explicit argument decides alone: the
    environment is not consulted, and a setting read from the environment
    acts exactly like the same value passed explicitly. *)
Theorem progress_bar_setting_precedence :
  (forall env value,
      env !! "CAPYTAINE_PROGRESS_BAR" = Some value ->
      str_in (lower value) ["true"; "1"; "t"] = true ->
      progress_bar_setting None env = Return true) /\
  (forall env value,
      env !! "CAPYTAINE_PROGRESS_BAR" = Some value ->
      str_in (lower value) ["false"; "0"; "f"] = true ->
      progress_bar_setting None env = Return false) /\
  (forall (rt : @Runtime C Mesh) self problems method_arg n_jobs cw kd st value,
      environ rt !! "CAPYTAINE_PROGRESS_BAR" = Some value ->
      str_in (lower value) ["true"; "1"; "t"; "false"; "0"; "f"] = false ->
      solve_all rt self problems method_arg n_jobs None cw kd st
      = (Raise (ValueError (invalid_progress_bar_msg value)),
         snd (diagnostics cw problems st)) /\
      timer (snd (diagnostics cw problems st)) = timer st) /\
  (forall env,
      env !! "CAPYTAINE_PROGRESS_BAR" = None -> progress_bar_setting None env = Return true) /\
  (forall env b, progress_bar_setting (Some b) env = Return b) /\
  (forall (rt rt' : @Runtime C Mesh) self problems method_arg n_jobs cw kd st b,
      joblib rt = joblib rt' ->
      solve_all rt self problems method_arg n_jobs (Some b) cw kd st
      = solve_all rt' self problems method_arg n_jobs (Some b) cw kd st) /\
  (forall (rt : @Runtime C Mesh) self problems method_arg n_jobs progress_bar cw kd st b,
      progress_bar_setting progress_bar (environ rt) = Return b ->
      solve_all rt self problems method_arg n_jobs progress_bar cw kd st
      = solve_all rt self problems method_arg n_jobs (Some b) cw kd st).
Proof.
  split; [|split; [|split; [|split; [|split; [|split]]]]].
  - intros env value Hv Ht. unfold progress_bar_setting. now rewrite Hv, Ht.
  - intros env value Hv Hf. unfold progress_bar_setting. rewrite Hv, Hf.
    destruct (str_in (lower value) ["true"; "1"; "t"]) eqn:Ht; [|reflexivity].
    apply true_words_not_false_words in Ht. congruence.
  - intros rt self problems method_arg n_jobs cw kd st value Hv Hw.
    destruct (diagnostics_run cw problems st) as [evs Hd]. split.
    + unfold solve_all. change (if cw then _ else _) with (diagnostics cw problems).
      rewrite (bind_returns _ _ _ _ _ Hd), Hd.
      apply not_a_word in Hw. destruct Hw as [Ht Hf].
      unfold progress_bar_setting. rewrite Hv, Ht, Hf. reflexivity.
    + rewrite Hd. reflexivity.
  - intros env Hv. unfold progress_bar_setting. now rewrite Hv.
  - reflexivity.
  - intros rt rt' self problems method_arg n_jobs cw kd st b Hj.
    unfold solve_all. cbn [progress_bar_setting]. now rewrite Hj.
  - intros rt self problems method_arg n_jobs progress_bar cw kd st b Hb.
    unfold solve_all. rewrite Hb. reflexivity.
Qed.

(** ** The direct method and forward speed (C5) *)

(** C5, as the code has it.  When the direct method is selected (by the
    argument, or by the solver's default when no argument is given) and the
    forward speed is not zero, [solve] raises and produces no result: the
    "not implemented" error, unless the problem is a diffraction problem at
    zero or infinite encounter frequency, whose domain error comes first.
    A solve by the direct method returns a result only when the forward
    speed is zero. *)
Theorem direct_method_requires_zero_forward_speed self pb method_arg kd cw st :
  selected_method self method_arg = "direct" ->
  (float_ne (forward_speed pb) 0%float = true ->
   fst (solve self pb method_arg kd cw st)
   = Raise (if undefined_diffraction pb
            then ValueError zero_or_infinite_frequency_msg
            else NotImplementedError direct_forward_speed_msg)) /\
  (forall r, fst (solve self pb method_arg kd cw st) = Return r ->
             PrimFloat.eqb (forward_speed pb) 0%float = true).
Proof.
  intros Hm.
  assert (Hraise : float_ne (forward_speed pb) 0%float = true ->
            fst (solve self pb method_arg kd cw st)
            = Raise (if undefined_diffraction pb
                     then ValueError zero_or_infinite_frequency_msg
                     else NotImplementedError direct_forward_speed_msg)).
  { intros HU. destruct (undefined_diffraction pb) eqn:Hbad.
    - now apply solve_undefined_diffraction.
    - unfold solve, timed, solve_unwrapped.
      change (if cw then _ else _) with (diagnostics cw [pb]).
      rewrite bind_run. cbn [log].
      destruct (diagnostics_run cw [pb]
                  {| timer := timer st; events := events st ++ [Log INFO (SolveMsg pb)] |})
        as [evs Hd].
      rewrite (bind_returns _ _ _ _ _ Hd).
      unfold undefined_diffraction in Hbad. rewrite Hbad, HU.
      unfold selected_method in Hm. rewrite Hm.
      cbn [String.eqb Ascii.eqb Bool.eqb].
      unfold solve_direct. rewrite HU. reflexivity. }
  split; [exact Hraise|].
  intros r Hr. unfold float_ne in Hraise.
  destruct (PrimFloat.eqb (forward_speed pb) 0%float); [reflexivity|].
  rewrite Hraise in Hr by reflexivity. discriminate.
Qed.

(** ** The irregular-frequency check (C7) *)

(** C7, as the code has it.  A problem is risky exactly when its free
    surface is not [np.inf] and its [omega] lies strictly between the body's
    estimated first irregular frequency and infinity.  The check returns
    without raising, touches no timer, and logs one warning exactly when some
    problem of the batch is risky; the warning recommends setting a lid when
    at least one problem of the batch has a body without a lid, and
    otherwise moving the lid closer to the free surface. *)
Theorem irregular_frequency_check problems st :
  (forall pb,
      irregular_frequency_risky pb = true <->
      float_ne (free_surface pb) infinity = true /\
      PrimFloat.ltb (first_irregular_frequency_estimate (body pb) (g pb)) (omega pb) = true /\
      PrimFloat.ltb (omega pb) infinity = true) /\
  exists evs,
    _check_wavelength_and_irregular_frequencies problems st
    = (Return tt,
       {| timer := timer st;
          events := events st ++ Log DEBUG CheckIrregularFrequencyMsg :: evs |}) /\
    ((forall pb, In pb problems -> irregular_frequency_risky pb = false) -> evs = []) /\
    ((exists pb, In pb problems /\ irregular_frequency_risky pb = true) ->
     exists w,
       evs = [w] /\
       recommendation_of w
       = Some (if existsb has_no_lid problems
               then set_lid_recommendation else lid_closer_recommendation)) /\
    (existsb has_no_lid problems = true <->
     exists pb, In pb problems /\ lid_mesh (body pb) = None).
Proof.
  split.
  - intros pb. unfold irregular_frequency_risky. rewrite !andb_true_iff. tauto.
  - unfold _check_wavelength_and_irregular_frequencies, bind, log, ret.
    destruct (List.filter irregular_frequency_risky problems) as [|pb0 [|pb1 rest]] eqn:Hf;
      simpl; rewrite <- ?app_assoc; simpl; eexists; (split; [reflexivity|]).
    + split; [reflexivity|]. split.
      * intros (pb & Hin & Hr).
        assert (Hin' : In pb (List.filter irregular_frequency_risky problems))
          by (apply filter_In; auto).
        rewrite Hf in Hin'. destruct Hin'.
      * rewrite existsb_exists. unfold has_no_lid.
        split; intros (pb & Hin & Hl); exists pb; (split; [exact Hin|]);
          destruct (lid_mesh (body pb)); congruence.
    + split.
      * intros Hnone. assert (Hin : In pb0 (List.filter irregular_frequency_risky problems))
          by (rewrite Hf; now left).
        apply filter_In in Hin. destruct Hin as [Hin Hr].
        rewrite (Hnone _ Hin) in Hr. discriminate.
      * split; [intros _; eexists; split; reflexivity|].
        rewrite existsb_exists. unfold has_no_lid.
        split; intros (pb & Hin & Hl); exists pb; (split; [exact Hin|]);
          destruct (lid_mesh (body pb)); congruence.
    + split.
      * intros Hnone. assert (Hin : In pb0 (List.filter irregular_frequency_risky problems))
          by (rewrite Hf; now left).
        apply filter_In in Hin. destruct Hin as [Hin Hr].
        rewrite (Hnone _ Hin) in Hr. discriminate.
      * split; [intros _; eexists; split; reflexivity|].
        rewrite existsb_exists. unfold has_no_lid.
        split; intros (pb & Hin & Hl); exists pb; (split; [exact Hin|]);
          destruct (lid_mesh (body pb)); congruence.
Qed.

(** ** The legacy free-surface elevation and forward speed (C8) *)

(** C8.  For a result whose forward speed is not zero,
    [get_free_surface_elevation] raises the "not implemented" error whatever
    the free surface and [keep_details] are; nothing has been computed or
    logged (the solver state is as before) and the result object is as it
    was. *)
Theorem get_free_surface_elevation_forbids_forward_speed
    self (result : Result C Mesh) (fs : FreeSurface Mesh) (keep_details : bool) st :
  float_ne (forward_speed (res_problem result)) 0%float = true ->
  get_free_surface_elevation self result fs keep_details st
  = (Raise (NotImplementedError free_surface_forward_speed_msg), st, result).
Proof. intros HU. unfold get_free_surface_elevation. now rewrite HU. Qed.

(** ** The per-call method (C10) *)

(** C10.  A per-call [method] that is not exactly the string "direct" makes
    [solve] do what it does for "indirect": same outcome, same state,
    whether the string is "Direct", "Indirect" or no method at all; no
    configuration error is raised for it.  The constructor, by contrast,
    lower-cases its [method] and rejects a string that is then neither
    "direct" nor "indirect". *)
Theorem per_call_method_is_not_validated
    self pb (m : string) kd cw st (gf : @GreenFunction C Mesh Points) eng :
  m <> "direct" ->
  solve self pb (Some m) kd cw st = solve self pb (Some "indirect") kd cw st /\
  (str_in (lower m) ["direct"; "indirect"] = false ->
   exists msg, BEMSolver_init gf eng m = Raise (ValueError msg)) /\
  (lower m = "direct" ->
   BEMSolver_init gf eng m
   = Return ({| green_function := gf; engine := eng; method := "direct" |},
             {| timer := initial_timer; events := [] |})).
Proof.
  intros Hm. split; [|split].
  - unfold solve, solve_unwrapped.
    apply String.eqb_neq in Hm. rewrite Hm. reflexivity.
  - intros Hbad. unfold BEMSolver_init. rewrite Hbad. eexists; reflexivity.
  - intros Hl. unfold BEMSolver_init. rewrite Hl. reflexivity.
Qed.

(** ** Pressure integration over the hull (C9) *)

Lemma timed_returns {A : Type} name (m : M C Mesh A) st a st1 :
  m st = (Return a, st1) ->
  timed name m st = (Return a, {| timer := alter S name (timer st1); events := events st1 |}).
Proof. intros Hm. unfold timed. now rewrite Hm. Qed.

Lemma timed_returns_inv {A : Type} name (m : M C Mesh A) st a st2 :
  timed name m st = (Return a, st2) ->
  exists st1, m st = (Return a, st1) /\
              st2 = {| timer := alter S name (timer st1); events := events st1 |}.
Proof.
  unfold timed. destruct (m st) as [r st1]. intros Ht. inversion Ht; subst. now exists st1.
Qed.

(** A successful solve, with or without details, went through the same
    steps as the detailed one. *)
Lemma solve_unwrapped_detailed self pb method_arg kd cw st r st' :
  solve_unwrapped self pb method_arg kd cw st = (Return r, st') ->
  exists src phi p st1 st2,
    (if String.eqb (selected_method self method_arg) "direct"
     then solve_direct self pb (fst (selected_frequency pb)) (snd (selected_frequency pb))
     else solve_indirect self pb (fst (selected_frequency pb)) (snd (selected_frequency pb))) st1
    = (Return (src, phi, p), st2) /\
    solve_unwrapped self pb method_arg true cw st
    = (Return (make_results_container pb
                 (Some (integrate_pressure (body pb) (firstn (nb_faces (mesh (body pb))) p)))
                 src (Some phi) (Some p)), st') /\
    r = (if negb kd
         then make_results_container pb
                (Some (integrate_pressure (body pb) (firstn (nb_faces (mesh (body pb))) p)))
                None None None
         else make_results_container pb
                (Some (integrate_pressure (body pb) (firstn (nb_faces (mesh (body pb))) p)))
                src (Some phi) (Some p)).
Proof.
  unfold solve_unwrapped, selected_method, selected_frequency. intros Hs.
  apply bind_inv in Hs. destruct Hs as (u0 & s0 & E0 & Hs).
  apply bind_inv in Hs. destruct Hs as (u1 & s1 & E1 & Hs).
  apply bind_inv in Hs. destruct Hs as (u2 & s2 & E2 & Hs).
  rewrite (bind_returns _ _ _ _ _ E0), (bind_returns _ _ _ _ _ E1),
    (bind_returns _ _ _ _ _ E2).
  destruct (float_ne (forward_speed pb) 0%float); cbn [fst snd];
    apply bind_inv in Hs; destruct Hs as ([[src phi] p] & s3 & Ef & Hs);
    rewrite (bind_returns _ _ _ _ _ Ef);
    apply bind_inv in Hs; destruct Hs as (u3 & s4 & E3 & Hs);
    rewrite (bind_returns _ _ _ _ _ E3);
    unfold ret in Hs; inversion Hs; subst;
    exists src, phi, p, s2, s3; (split; [exact Ef | split; reflexivity]).
Qed.

(** C9.  In every successful solve (either method, lid or no lid) the
    forces are the body's integration of the first [mesh.nb_faces] entries
    of the computed face pressure, the entries of the lid faces being left
    out; the computed pressure and potential are the ones a detailed result
    stores in full, they have the same length, and that length is the number
    of faces of the lid-inclusive mesh when the engine builds one row per
    face and the boundary condition is given on that mesh. *)
Theorem forces_integrate_pressure_on_hull self pb method_arg kd cw st r st' :
  solve self pb method_arg kd cw st = (Return r, st') ->
  exists src phi p,
    solve self pb method_arg true cw st
    = (Return (make_results_container pb
                 (Some (integrate_pressure (body pb) (firstn (nb_faces (mesh (body pb))) p)))
                 src (Some phi) (Some p)), st') /\
    forces r = Some (integrate_pressure (body pb) (firstn (nb_faces (mesh (body pb))) p)) /\
    (kd = true -> potential r = Some phi /\ pressure r = Some p) /\
    (kd = false -> potential r = None /\ pressure r = None) /\
    length p = length phi /\
    (one_row_per_face self ->
     length (boundary_condition pb) = nb_faces (mesh_including_lid (body pb)) ->
     length p = nb_faces (mesh_including_lid (body pb))).
Proof.
  intros Hs. apply timed_returns_inv in Hs. destruct Hs as (s1 & Hs & ->).
  apply solve_unwrapped_detailed in Hs.
  destruct Hs as (src & phi & p & s2 & s3 & Hf & Hd & ->).
  exists src, phi, p. split; [|split; [|split; [|split]]].
  - unfold solve. now apply timed_returns.
  - now destruct kd.
  - intros ->. now split.
  - intros ->. now split.
  - destruct (String.eqb (selected_method self method_arg) "direct").
    + apply solve_direct_returns in Hf. destruct Hf as (_ & _ & Hphi & Hl).
      split; [exact Hl|]. intros _ Hbc. now rewrite Hl, Hphi.
    + apply solve_indirect_returns in Hf. destruct Hf as (s & _ & _ & Hmul & Hl).
      split; [exact Hl|]. intros Hrows _. rewrite Hl.
      apply matmul_length in Hmul. rewrite Hmul. apply Hrows.
Qed.

(** ** Field evaluation without sources (C4) *)

Lemma compute_potential_without_sources self (points : Points) (result : Result C Mesh) st :
  sources result = None ->
  compute_potential self points result st
  = (Raise (PyException (sources_missing_msg result)), st).
Proof.
  intros Hs. unfold compute_potential.
  destruct (_normalize_points points) as [pts shape]. now rewrite Hs.
Qed.

Lemma compute_potential_gradient_without_sources self (points : Points)
    (result : Result C Mesh) st :
  sources result = None ->
  _compute_potential_gradient self points result st
  = (Raise (PyException (sources_missing_gradient_msg result)), st).
Proof.
  intros Hs. unfold _compute_potential_gradient.
  destruct (_normalize_points points) as [pts shape]. now rewrite Hs.
Qed.

Lemma compute_pressure_without_sources self (points : Points) (result : Result C Mesh) st :
  sources result = None ->
  compute_pressure self points result st
  = (Raise (PyException (sources_missing_msg result)), st).
Proof.
  intros Hs. unfold compute_pressure.
  destruct (float_ne (forward_speed (res_problem result)) 0%float);
    now rewrite (bind_raises _ _ _ _ _ (compute_potential_without_sources self points result st Hs)).
Qed.

Lemma compute_free_surface_elevation_without_sources self (points : Points)
    (result : Result C Mesh) st :
  sources result = None ->
  compute_free_surface_elevation self points result st
  = (Raise (PyException (sources_missing_msg result)), st).
Proof.
  intros Hs. unfold compute_free_surface_elevation.
  destruct (_normalize_free_surface_points points) as [pts shape].
  destruct (float_ne (forward_speed (res_problem result)) 0%float);
    now rewrite (bind_raises _ _ _ _ _ (compute_potential_without_sources self pts result st Hs)).
Qed.

Lemma get_potential_on_mesh_without_sources self (result : Result C Mesh) (m : Mesh)
    (chunk_size : Z) st :
  sources result = None ->
  fst (get_potential_on_mesh self result m chunk_size st)
  = Raise (PyException (sources_missing_msg result)).
Proof.
  intros Hs. unfold get_potential_on_mesh. rewrite bind_run. cbn [log]. now rewrite Hs.
Qed.

(** [compute_velocity] fails with the message of the gradient helper. *)
Lemma compute_velocity_without_sources self (points : Points) (result : Result C Mesh) st :
  sources result = None ->
  compute_velocity self points result st
  = (Raise (PyException (sources_missing_gradient_msg result)), st).
Proof.
  intros Hs. unfold compute_velocity.
  now rewrite (bind_raises _ _ _ _ _
                 (compute_potential_gradient_without_sources self points result st Hs)).
Qed.

(** ** Chunked evaluation on a mesh (C6) *)

Lemma map_unit_step (len a b : nat) :
  map (fun k => Z.add (Z.of_nat a) (Z.mul (Z.of_nat k) 1)) (seq b len)
  = map Z.of_nat (seq (a + b) len).
Proof.
  revert b. induction len as [|len IH]; intros b; simpl; [reflexivity|].
  f_equal; [lia|]. rewrite IH. now replace (a + S b) with (S (a + b)) by lia.
Qed.

Lemma py_range_unit_step (a len : nat) :
  py_range (Z.of_nat a) (Z.of_nat (a + len)) 1 = Return (map Z.of_nat (seq a len)).
Proof.
  unfold py_range. cbn [Z.eqb Z.ltb Z.compare].
  destruct (Z.ltb (Z.of_nat a) (Z.of_nat (a + len))) eqn:E.
  - f_equal. rewrite Z.div_1_r.
    replace (Z.to_nat (Z.of_nat (a + len) - Z.of_nat a + 1 - 1)) with len by lia.
    rewrite map_unit_step. now rewrite Nat.add_0_r.
  - apply Z.ltb_ge in E. assert (len = 0) as -> by lia. reflexivity.
Qed.

(** The starts of the chunks: enough of them to cover the faces, each
    inside the mesh. *)
Lemma py_range_chunk_starts (nf : nat) (c : Z) :
  (1 <= c)%Z ->
  exists cnt,
    py_range 0 (Z.of_nat nf) c
    = Return (map (fun k => Z.add 0 (Z.mul (Z.of_nat k) c)) (seq 0 cnt)) /\
    nf <= cnt * Z.to_nat c /\
    (forall k, k < cnt -> k * Z.to_nat c < nf).
Proof.
  intros Hc. unfold py_range.
  replace (Z.eqb c 0) with false by (symmetry; apply Z.eqb_neq; lia).
  replace (Z.ltb 0 c) with true by (symmetry; apply Z.ltb_lt; lia).
  destruct (Z.ltb 0 (Z.of_nat nf)) eqn:E.
  - apply Z.ltb_lt in E. eexists. split; [reflexivity|].
    set (q := Z.div (Z.of_nat nf - 0 + c - 1) c).
    assert (Hq1 : (c * q <= Z.of_nat nf - 0 + c - 1)%Z) by (apply Z.mul_div_le; lia).
    assert (Hq2 : (Z.of_nat nf - 0 + c - 1 < c * Z.succ q)%Z)
      by (apply Z.mul_succ_div_gt; lia).
    assert (Hq0 : (0 <= q)%Z) by (apply Z.div_pos; lia).
    split.
    + apply Nat2Z.inj_le. rewrite Nat2Z.inj_mul, !Z2Nat.id by lia. nia.
    + intros k Hk. apply Nat2Z.inj_lt. rewrite Nat2Z.inj_mul, Z2Nat.id by lia.
      assert (Hk' : (Z.of_nat k <= q - 1)%Z) by lia. nia.
  - apply Z.ltb_ge in E. exists 0. split; [reflexivity|]. split; [lia|]. intros k Hk; lia.
Qed.

(** What the unchunked product gives, row by row. *)
Lemma matmul_rows (A : Matrix C) (v : list C) :
  ncols A = length v -> matmul A v = Return (map (fun row => dot row v) (rows A)).
Proof. intros Hn. unfold matmul. now rewrite Hn, Nat.eqb_refl. Qed.

Lemma matmul_mismatch (A : Matrix C) (v : list C) i k :
  ncols A <> length v -> matmul (submatrix A i k) v = matmul A v.
Proof.
  intros Hn. unfold matmul, submatrix. cbn [ncols].
  apply Nat.eqb_neq in Hn. now rewrite Hn.
Qed.

Lemma potential_chunk_run self (result : Result C Mesh) (m : Mesh) (c : Z) src k phi st :
  row_local self -> (1 <= c)%Z ->
  ncols (potential_matrix self result m) = length src ->
  length phi = nb_faces m ->
  k * Z.to_nat c < nb_faces m ->
  potential_chunk self result m c src (Z.add 0 (Z.mul (Z.of_nat k) c)) phi st
  = (Return
       (firstn (k * Z.to_nat c) phi ++
        firstn (Nat.min (Z.to_nat c) (nb_faces m - k * Z.to_nat c))
          (skipn (k * Z.to_nat c)
             (map (fun row => dot row src) (rows (potential_matrix self result m)))) ++
        skipn (k * Z.to_nat c + Nat.min (Z.to_nat c) (nb_faces m - k * Z.to_nat c)) phi),
     st).
Proof.
  intros [Hrows Hlocal] Hc Hcols Hphi Hk.
  set (i := k * Z.to_nat c) in *.
  set (len := Nat.min (Z.to_nat c) (nb_faces m - i)).
  unfold potential_chunk.
  replace (Z.add 0 (Z.mul (Z.of_nat k) c)) with (Z.of_nat i) by (unfold i; lia).
  replace (Z.min (Z.of_nat i + c) (Z.of_nat (nb_faces m))) with (Z.of_nat (i + len))
    by (unfold len; lia).
  rewrite py_range_unit_step. rewrite bind_run. cbn [lift].
  rewrite map_map, (map_ext _ (fun x => x) Nat2Z.id), map_id.
  assert (Hsub : potential_matrix self result (extract_faces m (seq i len))
                 = submatrix (potential_matrix self result m) i len).
  { unfold potential_matrix. apply Hlocal. unfold len. lia. }
  rewrite Hsub, matmul_rows by exact Hcols.
  rewrite bind_run. cbn [lift submatrix rows].
  rewrite <- firstn_map, <- skipn_map.
  set (L := map (fun row => dot row src) (rows (potential_matrix self result m))).
  assert (HL : length L = nb_faces m).
  { unfold L. rewrite length_map. unfold potential_matrix. apply Hrows. }
  unfold slice_assign. rewrite Hphi.
  replace (Nat.min (Z.to_nat (Z.of_nat i)) (nb_faces m)) with i by lia.
  replace (Nat.max i (Nat.min (Z.to_nat (Z.of_nat i + c)) (nb_faces m))) with (i + len)
    by (unfold len; lia).
  replace (length (firstn len (skipn i L))) with len
    by (rewrite length_firstn, length_skipn, HL; unfold len; lia).
  replace (i + len - i) with len by lia.
  now rewrite Nat.eqb_refl.
Qed.

Lemma potential_chunk_mismatch self (result : Result C Mesh) (m : Mesh) (c : Z) src phi st :
  row_local self -> (1 <= c)%Z ->
  ncols (potential_matrix self result m) <> length src ->
  0 < nb_faces m ->
  potential_chunk self result m c src (Z.add 0 (Z.mul (Z.of_nat 0) c)) phi st
  = (matmul (potential_matrix self result m) src, st).
Proof.
  intros [Hrows Hlocal] Hc Hcols Hn.
  set (len := Nat.min (Z.to_nat c) (nb_faces m)).
  unfold potential_chunk.
  replace (Z.add 0 (Z.mul (Z.of_nat 0) c)) with (Z.of_nat 0) by lia.
  replace (Z.min (Z.of_nat 0 + c) (Z.of_nat (nb_faces m))) with (Z.of_nat (0 + len))
    by (unfold len; lia).
  rewrite py_range_unit_step. rewrite bind_run. cbn [lift].
  rewrite map_map, (map_ext _ (fun x => x) Nat2Z.id), map_id.
  assert (Hsub : potential_matrix self result (extract_faces m (seq 0 len))
                 = submatrix (potential_matrix self result m) 0 len).
  { unfold potential_matrix. apply Hlocal. unfold len. lia. }
  rewrite Hsub, matmul_mismatch by exact Hcols.
  rewrite bind_run. unfold matmul, lift.
  apply Nat.eqb_neq in Hcols. now rewrite Hcols.
Qed.

(** The loop invariant: after the chunks before [j], the first [j] chunks
    of [phi] hold their final values. *)
Lemma chunk_loop_run self (result : Result C Mesh) (m : Mesh) (c : Z) src st :
  row_local self -> (1 <= c)%Z ->
  ncols (potential_matrix self result m) = length src ->
  forall cnt j phi,
    length phi = nb_faces m ->
    firstn (j * Z.to_nat c) phi
    = firstn (j * Z.to_nat c)
        (map (fun row => dot row src) (rows (potential_matrix self result m))) ->
    (forall k, k < j + cnt -> k * Z.to_nat c < nb_faces m) ->
    exists phi',
      for_loop (potential_chunk self result m c src)
        (map (fun k => Z.add 0 (Z.mul (Z.of_nat k) c)) (seq j cnt)) phi st
      = (Return phi', st) /\
      length phi' = nb_faces m /\
      firstn ((j + cnt) * Z.to_nat c) phi'
      = firstn ((j + cnt) * Z.to_nat c)
          (map (fun row => dot row src) (rows (potential_matrix self result m))).
Proof.
  intros Hloc Hc Hcols.
  set (L := map (fun row => dot row src) (rows (potential_matrix self result m))).
  assert (HL : length L = nb_faces m).
  { unfold L. rewrite length_map. unfold potential_matrix. apply Hloc. }
  induction cnt as [|cnt IH]; intros j phi Hphi Hpre Hin.
  - exists phi. rewrite Nat.add_0_r. now repeat split.
  - cbn [seq map for_loop]. rewrite bind_run.
    rewrite (potential_chunk_run self result m c src j phi st Hloc Hc Hcols Hphi)
      by (apply Hin; lia).
    fold L.
    set (i := j * Z.to_nat c) in *.
    set (len := Nat.min (Z.to_nat c) (nb_faces m - i)).
    assert (Hi : i < nb_faces m) by (apply Hin; lia).
    set (phi1 := firstn i phi ++ firstn len (skipn i L) ++ skipn (i + len) phi).
    assert (Hphi1 : phi1 = firstn (i + len) L ++ skipn (i + len) phi).
    { unfold phi1. rewrite Hpre, app_assoc. f_equal.
      rewrite <- (firstn_skipn i (firstn (i + len) L)) at 1.
      rewrite firstn_firstn, skipn_firstn_comm.
      now replace (Nat.min i (i + len)) with i by lia;
        replace (i + len - i) with len by lia. }
    destruct (IH (S j) phi1) as (phi' & Hrun & Hlen & Hfin).
    + rewrite Hphi1, length_app, length_firstn, length_skipn, HL, Hphi. unfold len. lia.
    + rewrite Hphi1.
      destruct (Nat.le_gt_cases (S j * Z.to_nat c) (nb_faces m)) as [Hle|Hgt].
      * assert (Hlen : i + len = S j * Z.to_nat c) by (unfold len, i; lia).
        rewrite Hlen, firstn_app, length_firstn, HL.
        replace (S j * Z.to_nat c - Nat.min (S j * Z.to_nat c) (nb_faces m)) with 0 by lia.
        cbn [firstn]. now rewrite app_nil_r, firstn_firstn, Nat.min_id.
      * assert (Hlen : i + len = nb_faces m) by (unfold len, i in *; lia).
        rewrite Hlen, (List.firstn_all2 (n := nb_faces m) L) by lia.
        rewrite (List.skipn_all2 (n := nb_faces m) phi) by lia.
        now rewrite app_nil_r.
    + intros k Hk. apply Hin. lia.
    + exists phi'. replace (j + S cnt) with (S j + cnt) by lia. now repeat split.
Qed.

(** With a chunk size of at least one, the chunk loop computes the
    unchunked product. *)
Lemma chunked_product self (result : Result C Mesh) (m : Mesh) (c : Z) src st :
  row_local self -> (1 <= c)%Z ->
  (if Z.ltb (Z.of_nat (nb_faces m)) c
   then lift (matmul (potential_matrix self result m) src)
   else
     starts <- lift (py_range 0 (Z.of_nat (nb_faces m)) c) ;;
     for_loop (potential_chunk self result m c src) starts (np_empty (nb_faces m))) st
  = (matmul (potential_matrix self result m) src, st).
Proof.
  intros Hloc Hc.
  destruct (Z.ltb (Z.of_nat (nb_faces m)) c) eqn:Hpath; [reflexivity|].
  apply Z.ltb_ge in Hpath.
  destruct (py_range_chunk_starts (nb_faces m) c Hc) as (cnt & Hr & Hcover & Hin).
  rewrite Hr, bind_run. cbn [lift].
  destruct (Nat.eq_dec (ncols (potential_matrix self result m)) (length src)) as [Hcols|Hcols].
  - destruct (chunk_loop_run self result m c src st Hloc Hc Hcols cnt 0
                (np_empty (nb_faces m))) as (phi' & Hrun & Hlen & Hfin).
    + apply repeat_length.
    + reflexivity.
    + exact Hin.
    + rewrite Hrun, matmul_rows by exact Hcols. f_equal. f_equal.
      cbn [Nat.add] in Hfin.
      rewrite !List.firstn_all2 in Hfin; [exact Hfin | | lia].
      rewrite length_map. destruct Hloc as [Hrows _].
      unfold potential_matrix. rewrite Hrows. exact Hcover.
  - assert (Hn : 0 < nb_faces m) by lia.
    destruct cnt as [|cnt]; [lia|].
    cbn [seq map for_loop]. rewrite bind_run.
    rewrite (potential_chunk_mismatch self result m c src _ st Hloc Hc Hcols Hn).
    unfold matmul. apply Nat.eqb_neq in Hcols. now rewrite Hcols.
Qed.

Lemma get_potential_on_mesh_chunked self (result : Result C Mesh) (m : Mesh) (c : Z) src st :
  row_local self -> sources result = Some src -> (1 <= c)%Z ->
  get_potential_on_mesh self result m c st
  = (phi <- (log INFO (ComputePotentialMsg (mesh_name m) result) ;;
             lift (matmul (potential_matrix self result m) src)) ;;
     log DEBUG (DoneComputePotentialMsg (mesh_name m) result) ;; ret phi) st.
Proof.
  intros Hloc Hsrc Hc. unfold get_potential_on_mesh. rewrite Hsrc.
  rewrite !bind_run. cbn [log]. rewrite !bind_run.
  now rewrite (chunked_product self result m c src _ Hloc Hc).
Qed.

(** C6, as the code has it.  For a result that holds sources, and an engine
    that builds the single-layer matrix one row per face of the target
    mesh, the evaluation with [chunk_size = 1] and the evaluation with any
    [chunk_size >= mesh.nb_faces] that is at least 1 do the same (outcome
    and log): both return the single-layer matrix of the mesh applied to the
    stored sources.  Rounding is outside the model, so what is "within
    tolerance" in floating point is an equality here. *)
Theorem chunked_potential_matches_unchunked
    self (result : Result C Mesh) (m : Mesh) (c : Z) src st :
  row_local self ->
  sources result = Some src ->
  (1 <= c)%Z -> (Z.of_nat (nb_faces m) <= c)%Z ->
  get_potential_on_mesh self result m 1 st = get_potential_on_mesh self result m c st /\
  fst (get_potential_on_mesh self result m 1 st) = matmul (potential_matrix self result m) src /\
  fst (get_potential_on_mesh self result m c st) = matmul (potential_matrix self result m) src.
Proof.
  intros Hloc Hsrc Hc _.
  rewrite (get_potential_on_mesh_chunked self result m c src st Hloc Hsrc Hc).
  rewrite (get_potential_on_mesh_chunked self result m 1 src st Hloc Hsrc) by lia.
  split; [reflexivity|].
  assert (Hfst : fst ((phi <- (log INFO (ComputePotentialMsg (mesh_name m) result) ;;
                              lift (matmul (potential_matrix self result m) src)) ;;
                      log DEBUG (DoneComputePotentialMsg (mesh_name m) result) ;; ret phi) st)
                 = matmul (potential_matrix self result m) src).
  { rewrite !bind_run. cbn [log lift].
    destruct (matmul (potential_matrix self result m) src); reflexivity. }
  now split.
Qed.

End Properties.

(** * The properties on explicit inputs *)

(** [extract_faces] of a run of consecutive faces of a toy mesh. *)
Lemma toy_extract_consecutive (faces : list float) (i n : nat) :
  i + n <= length faces ->
  map (fun t => nth t faces 0%float) (seq i n) = firstn n (skipn i faces).
Proof.
  revert i faces. induction n as [|n IH]; intros i faces Hle; [reflexivity|].
  cbn [seq map]. rewrite (IH (S i) faces) by lia.
  destruct (skipn i faces) as [|x rest] eqn:E.
  - apply (f_equal (@length float)) in E. rewrite length_skipn in E. simpl in E. lia.
  - assert (Hx : nth i faces 0%float = x).
    { rewrite <- (firstn_skipn i faces), E, app_nth2; rewrite length_firstn; [|lia].
      now replace (i - Nat.min i (length faces)) with 0 by lia. }
    assert (Hr : skipn (S i) faces = rest).
    { replace (S i) with (1 + i) by lia. now rewrite <- skipn_skipn, E. }
    now rewrite Hx, Hr.
Qed.

Lemma toy_solver_row_local (m : string) : row_local (toy_solver m).
Proof.
  split.
  - intros msh b fs wd k. cbn. apply length_map.
  - intros msh b fs wd k i n Hle. cbn in Hle |- *. unfold submatrix. cbn.
    f_equal. rewrite toy_extract_consecutive by exact Hle.
    now rewrite <- firstn_map, <- skipn_map.
Qed.

Lemma toy_solver_one_row_per_face (m : string) : one_row_per_face (toy_solver m).
Proof. intros m1 m2 fs wd k adj. cbn. apply length_map. Qed.

Lemma toy_parallel_in_order : dispatches_in_order toy_parallel.
Proof.
  intros n_jobs tasks values st Hall. unfold toy_parallel. cbn [fst].
  induction Hall as [|task v tasks values Hv _ IH]; cbn [toy_gather]; [reflexivity|].
  now rewrite Hv, IH.
Qed.

Lemma toy_problems_differ : toy_radiation_1 <> toy_radiation_2.
Proof.
  intros Heq. apply (f_equal (fun pb => PrimFloat.eqb (omega pb) 1%float)) in Heq.
  vm_compute in Heq. discriminate.
Qed.

(** The direct method keeps no sources. *)
Lemma toy_direct_solve :
  fst (solve (toy_solver "direct") toy_radiation_1 None true true toy_state)
  = Return toy_direct_result.
Proof. vm_compute. reflexivity. Qed.

(** C1 on a batch of two: the undefined diffraction problem and a valid
    radiation problem. *)
Lemma solve_all_isolates_undefined_diffraction_witness :
  progress_bar_setting None (environ toy_runtime_with_joblib) = Return true /\
  (exists results,
      fst (solve_all toy_runtime_with_joblib (toy_solver "indirect")
             [toy_diffraction_0; toy_radiation_1] None 1 None true true toy_state)
      = Return results /\
      isolated_batch (toy_solver "indirect") None true
        [toy_diffraction_0; toy_radiation_1] results) /\
  (exists results,
      fst (solve_all toy_runtime_with_joblib (toy_solver "indirect")
             [toy_diffraction_0; toy_radiation_1] None 2 None true true toy_state)
      = Return results /\
      isolated_batch (toy_solver "indirect") None true
        [toy_diffraction_0; toy_radiation_1] results).
Proof.
  split; [reflexivity|].
  destruct (solve_all_isolates_undefined_diffraction toy_runtime_with_joblib
              (toy_solver "indirect") [toy_diffraction_0; toy_radiation_1]
              None None true true toy_state true eq_refl) as (_ & Hseq & Hpar).
  split; [exact Hseq|].
  apply (Hpar 2%Z toy_parallel); [discriminate | reflexivity | apply toy_parallel_in_order |].
  unfold grouping_is_a_partition. cbn. reflexivity.
Defined.

(** The batch of the specification's test: position 0 fails, position 1 is
    solved. *)
Lemma toy_batch_with_undefined_diffraction :
  exists res,
    fst (solve_all (toy_runtime ∅) (toy_solver "indirect")
           [toy_diffraction_0; toy_radiation_1] None 1 None true true toy_state)
    = Return [Failed (make_failed_results_container toy_diffraction_0
                        (ValueError zero_or_infinite_frequency_msg));
              Solved res] /\
    res_problem res = toy_radiation_1.
Proof. eexists. split; [vm_compute; reflexivity | reflexivity]. Qed.

(** C2 as stated fails: the batch [toy_radiation_2; toy_radiation_1] comes
    back with the result of [toy_radiation_1] first. *)
Lemma solve_all_sequential_output_is_not_in_input_order :
  exists results,
    fst (solve_all (toy_runtime ∅) (toy_solver "indirect")
           [toy_radiation_2; toy_radiation_1] None 1 None true true toy_state)
    = Return results /\
    map problem_of results = [toy_radiation_1; toy_radiation_2] /\
    map problem_of results <> [toy_radiation_2; toy_radiation_1].
Proof.
  eexists. split; [vm_compute; reflexivity|]. split; [reflexivity|].
  intros Heq. apply toy_problems_differ.
  exact (f_equal (fun l => nth 0 l toy_radiation_1) Heq).
Qed.

Lemma solve_all_sequential_follows_sorted_order_witness :
  progress_bar_setting None (environ (toy_runtime ∅)) = Return true /\
  exists results,
    fst (solve_all (toy_runtime ∅) (toy_solver "indirect")
           [toy_radiation_2; toy_radiation_1] None 1 None true true toy_state)
    = Return results /\
    results = map (isolated (toy_solver "indirect") None true)
                (sorted [toy_radiation_2; toy_radiation_1]) /\
    map problem_of results = sorted [toy_radiation_2; toy_radiation_1] /\
    (in_order [toy_radiation_2; toy_radiation_1] ->
     map problem_of results = [toy_radiation_2; toy_radiation_1]).
Proof.
  split; [reflexivity|].
  exact (solve_all_sequential_follows_sorted_order (toy_runtime ∅)
           (toy_solver "indirect") [toy_radiation_2; toy_radiation_1]
           None None true true toy_state true eq_refl).
Defined.

(** C3 on [CAPYTAINE_PROGRESS_BAR=banana]: the call raises, whatever
    [n_jobs], and the ledger is as before. *)
Lemma progress_bar_setting_precedence_witness :
  solve_all (toy_runtime toy_banana_environ) (toy_solver "indirect")
    [toy_radiation_1] None 4 None true true toy_state
  = (Raise (ValueError (invalid_progress_bar_msg "banana")),
     snd (diagnostics true [toy_radiation_1] toy_state)) /\
  timer (snd (diagnostics true [toy_radiation_1] toy_state)) = timer toy_state.
Proof.
  exact (proj1 (proj2 (proj2 progress_bar_setting_precedence))
           (toy_runtime toy_banana_environ) (toy_solver "indirect")
           [toy_radiation_1] None 4%Z true true toy_state "banana" eq_refl eq_refl).
Defined.

Example progress_bar_mixed_case :
  progress_bar_setting None (<["CAPYTAINE_PROGRESS_BAR" := "TrUe"]> ∅) = Return true /\
  progress_bar_setting None (<["CAPYTAINE_PROGRESS_BAR" := "F"]> ∅) = Return false /\
  progress_bar_setting (Some false) (<["CAPYTAINE_PROGRESS_BAR" := "banana"]> ∅) = Return false.
Proof. repeat split; reflexivity. Qed.

(** C4: the defect.  A result solved by the direct method with details kept
    holds no sources.  On it [compute_velocity] fails with the message of
    [_compute_potential_gradient], which blames a missing
    [keep_details=True] and asks to re-run "with this option": it does not
    mention the indirect method, the remedy the sibling message of
    [compute_potential] gives. *)
Theorem compute_velocity_error_omits_the_indirect_method :
  fst (solve (toy_solver "direct") toy_radiation_1 None true true toy_state)
  = Return toy_direct_result /\
  sources toy_direct_result = None /\
  compute_velocity (toy_solver "direct") toy_hull toy_direct_result toy_state
  = (Raise (PyException (sources_missing_gradient_msg toy_direct_result)), toy_state) /\
  contains "indirect" (sources_missing_gradient_msg toy_direct_result) = false /\
  contains "Please re-run the resolution with this option."
    (sources_missing_gradient_msg toy_direct_result) = true /\
  compute_potential (toy_solver "direct") toy_hull toy_direct_result toy_state
  = (Raise (PyException (sources_missing_msg toy_direct_result)), toy_state) /\
  contains "Please re-run the resolution with the indirect method and keep_details=True."
    (sources_missing_msg toy_direct_result) = true.
Proof.
  split; [exact toy_direct_solve|]. split; [reflexivity|].
  split; [now apply compute_velocity_without_sources|].
  split; [vm_compute; reflexivity|]. split; [vm_compute; reflexivity|].
  split; [now apply compute_potential_without_sources|].
  vm_compute; reflexivity.
Qed.

(** C5 as stated fails: for a moving diffraction problem whose encounter
    frequency is zero, the direct method raises the domain error, not the
    "not implemented" error. *)
Lemma direct_method_domain_error_comes_first :
  is_diffraction toy_diffraction_moving = true /\
  float_ne (forward_speed toy_diffraction_moving) 0%float = true /\
  fst (solve (toy_solver "direct") toy_diffraction_moving None true true toy_state)
  = Raise (ValueError zero_or_infinite_frequency_msg) /\
  fst (solve (toy_solver "indirect") toy_diffraction_moving (Some "direct") true true toy_state)
  <> Raise (NotImplementedError direct_forward_speed_msg).
Proof.
  split; [reflexivity|]. split; [reflexivity|]. split; [vm_compute; reflexivity|].
  vm_compute. discriminate.
Qed.

Lemma direct_method_requires_zero_forward_speed_witness :
  selected_method (toy_solver "indirect") (Some "direct") = "direct" /\
  (float_ne (forward_speed toy_radiation_moving) 0%float = true ->
   fst (solve (toy_solver "indirect") toy_radiation_moving (Some "direct") true true toy_state)
   = Raise (if undefined_diffraction toy_radiation_moving
            then ValueError zero_or_infinite_frequency_msg
            else NotImplementedError direct_forward_speed_msg)) /\
  (forall r,
      fst (solve (toy_solver "indirect") toy_radiation_moving (Some "direct") true true toy_state)
      = Return r ->
      PrimFloat.eqb (forward_speed toy_radiation_moving) 0%float = true).
Proof.
  split; [reflexivity|].
  exact (direct_method_requires_zero_forward_speed (toy_solver "indirect")
           toy_radiation_moving (Some "direct") true true toy_state eq_refl).
Defined.

(** C6 as stated fails: on a mesh without faces, [chunk_size = 0] is not
    smaller than [nb_faces], the chunked branch is taken and [range] refuses
    the zero step, while [chunk_size = 1] returns the empty potential. *)
Lemma chunk_size_zero_on_empty_mesh_raises :
  sources toy_result_with_sources = Some toy_sources /\
  (Z.of_nat (nb_faces toy_empty_mesh) <= 0)%Z /\
  fst (get_potential_on_mesh (toy_solver "indirect") toy_result_with_sources
         toy_empty_mesh 1 toy_state) = Return [] /\
  fst (get_potential_on_mesh (toy_solver "indirect") toy_result_with_sources
         toy_empty_mesh 0 toy_state)
  = Raise (ValueError "range() arg 3 must not be zero").
Proof. repeat split; vm_compute; try reflexivity. discriminate. Qed.

Lemma chunked_potential_matches_unchunked_witness :
  row_local (toy_solver "indirect") /\
  sources toy_result_with_sources = Some toy_sources /\
  (1 <= 3)%Z /\ (Z.of_nat (nb_faces toy_hull_and_lid) <= 3)%Z /\
  get_potential_on_mesh (toy_solver "indirect") toy_result_with_sources toy_hull_and_lid 1
    toy_state
  = get_potential_on_mesh (toy_solver "indirect") toy_result_with_sources toy_hull_and_lid 3
      toy_state /\
  fst (get_potential_on_mesh (toy_solver "indirect") toy_result_with_sources toy_hull_and_lid 1
         toy_state)
  = matmul (potential_matrix (toy_solver "indirect") toy_result_with_sources toy_hull_and_lid)
      toy_sources /\
  fst (get_potential_on_mesh (toy_solver "indirect") toy_result_with_sources toy_hull_and_lid 3
         toy_state)
  = matmul (potential_matrix (toy_solver "indirect") toy_result_with_sources toy_hull_and_lid)
      toy_sources.
Proof.
  split; [apply toy_solver_row_local|]. split; [reflexivity|].
  split; [lia|]. split; [cbn; lia|].
  apply (chunked_potential_matches_unchunked (toy_solver "indirect")
           toy_result_with_sources toy_hull_and_lid 3 toy_sources toy_state).
  - apply toy_solver_row_local.
  - reflexivity.
  - lia.
  - cbn. lia.
Defined.

(** The three ways of evaluating on the lid-inclusive mesh, run. *)
Example toy_chunked_potential :
  fst (get_potential_on_mesh (toy_solver "indirect") toy_result_with_sources toy_hull_and_lid 1
         toy_state)
  = Return [(6%float, 0%float); (12%float, 0%float); (18%float, 0%float)] /\
  fst (get_potential_on_mesh (toy_solver "indirect") toy_result_with_sources toy_hull_and_lid 2
         toy_state)
  = Return [(6%float, 0%float); (12%float, 0%float); (18%float, 0%float)] /\
  fst (get_potential_on_mesh (toy_solver "indirect") toy_result_with_sources toy_hull_and_lid 50
         toy_state)
  = Return [(6%float, 0%float); (12%float, 0%float); (18%float, 0%float)].
Proof. repeat split; vm_compute; reflexivity. Qed.

(** C7 as stated fails: in a batch where one body has a lid and the risky
    one has none, the warning recommends setting a lid although it is not
    the case that none of the bodies has one. *)
Lemma lid_recommended_although_a_body_has_one :
  has_no_lid toy_radiation_1 = false /\
  forallb has_no_lid [toy_bare_risky; toy_radiation_1] = false /\
  exists w,
    events (snd (_check_wavelength_and_irregular_frequencies
                   [toy_bare_risky; toy_radiation_1] toy_state))
    = [Log DEBUG CheckIrregularFrequencyMsg; w] /\
    recommendation_of w = Some set_lid_recommendation /\
    recommendation_of w <> Some lid_closer_recommendation.
Proof.
  split; [reflexivity|]. split; [reflexivity|].
  eexists. split; [vm_compute; reflexivity|]. split; [reflexivity|].
  vm_compute. discriminate.
Qed.

Lemma get_free_surface_elevation_forbids_forward_speed_witness :
  float_ne (forward_speed (res_problem toy_moving_result)) 0%float = true /\
  get_free_surface_elevation (toy_solver "indirect") toy_moving_result toy_free_surface true
    toy_state
  = (Raise (NotImplementedError free_surface_forward_speed_msg), toy_state, toy_moving_result).
Proof.
  split; [reflexivity|].
  exact (get_free_surface_elevation_forbids_forward_speed (toy_solver "indirect")
           toy_moving_result toy_free_surface true toy_state eq_refl).
Defined.

(** At rest the legacy helper returns the elevation and, with
    [keep_details], stores it in the result. *)
Example toy_free_surface_elevation_at_rest :
  exists elevation st',
    get_free_surface_elevation (toy_solver "indirect") toy_result_with_sources
      toy_free_surface true toy_state
    = (Return elevation, st', set_fs_elevation toy_result_with_sources 1%positive elevation) /\
    length elevation = 2.
Proof. eexists. eexists. split; [vm_compute; reflexivity | reflexivity]. Qed.

(** C9 on a body with a lid: three faces carry pressure, the forces come
    from the two hull faces. *)
Lemma forces_integrate_pressure_on_hull_witness :
  exists r st' src phi p,
    solve (toy_solver "indirect") toy_radiation_1 None false true toy_state = (Return r, st') /\
    solve (toy_solver "indirect") toy_radiation_1 None true true toy_state
    = (Return (make_results_container toy_radiation_1
                 (Some (integrate_pressure (body toy_radiation_1)
                          (firstn (nb_faces (mesh (body toy_radiation_1))) p)))
                 src (Some phi) (Some p)), st') /\
    forces r = Some (integrate_pressure (body toy_radiation_1)
                       (firstn (nb_faces (mesh (body toy_radiation_1))) p)) /\
    (false = true -> potential r = Some phi /\ pressure r = Some p) /\
    (false = false -> potential r = None /\ pressure r = None) /\
    length p = length phi /\
    (one_row_per_face (toy_solver "indirect") ->
     length (boundary_condition toy_radiation_1)
     = nb_faces (mesh_including_lid (body toy_radiation_1)) ->
     length p = nb_faces (mesh_including_lid (body toy_radiation_1))).
Proof.
  destruct (solve (toy_solver "indirect") toy_radiation_1 None false true toy_state)
    as [[r|e] st'] eqn:E; [|vm_compute in E; discriminate].
  destruct (forces_integrate_pressure_on_hull (toy_solver "indirect") toy_radiation_1
              None false true toy_state r st' E) as (src & phi & p & Hc).
  exists r, st', src, phi, p. split; [reflexivity | exact Hc].
Defined.

Example toy_forces_leave_out_the_lid :
  exists r st',
    solve (toy_solver "indirect") toy_radiation_1 None true true toy_state = (Return r, st') /\
    pressure r = Some [(0%float, 6000%float); (0%float, 12000%float); (0%float, 18000%float)] /\
    forces r = Some [("Heave", (0%float, 18000%float))].
Proof. eexists. eexists. split; [vm_compute; reflexivity|]. split; reflexivity. Qed.

Lemma per_call_method_is_not_validated_witness :
  "banana" <> "direct" /\
  solve (toy_solver "direct") toy_radiation_1 (Some "banana") true true toy_state
  = solve (toy_solver "direct") toy_radiation_1 (Some "indirect") true true toy_state /\
  (str_in (lower "banana") ["direct"; "indirect"] = false ->
   exists msg, BEMSolver_init toy_green_function toy_engine "banana" = Raise (ValueError msg)) /\
  (lower "banana" = "direct" ->
   BEMSolver_init toy_green_function toy_engine "banana"
   = Return ({| green_function := toy_green_function; engine := toy_engine;
                method := "direct" |},
             {| timer := initial_timer; events := [] |})).
Proof.
  split; [discriminate|].
  apply (per_call_method_is_not_validated (toy_solver "direct") toy_radiation_1 "banana"
           true true toy_state toy_green_function toy_engine).
  discriminate.
Defined.

(** "Direct" selects the direct method at construction and the indirect
    one per call. *)
Example capitalised_direct :
  (exists st, BEMSolver_init toy_green_function toy_engine "Direct"
              = Return (toy_solver "direct", st)) /\
  (exists msg, BEMSolver_init toy_green_function toy_engine "banana"
               = Raise (ValueError msg)) /\
  (exists r, fst (solve (toy_solver "direct") toy_radiation_1 (Some "Direct") true true toy_state)
             = Return r /\ sources r = Some toy_sources) /\
  (exists r, fst (solve (toy_solver "direct") toy_radiation_1 None true true toy_state)
             = Return r /\ sources r = None).
Proof.
  split; [eexists; reflexivity|]. split; [eexists; reflexivity|].
  split; eexists; (split; [vm_compute; reflexivity | reflexivity]).
Qed.

(** * Further properties of the solver *)

Section LedgerProperties.
Context {C : Type} `{Complex128 C} {Mesh : Type} `{MeshModel Mesh}
        {Points : Type} `{PointsModel Mesh Points} `{@ProblemModel C Mesh}.

Implicit Types (self : @BEMSolver C Mesh Points) (pb : Problem C Mesh)
  (st : State C Mesh) (problems : list (Problem C Mesh)).

(** ** Accumulators a computation leaves alone *)

Lemma preserves_ret name {A : Type} (a : A) : preserves_timer name (ret (C:=C) (Mesh:=Mesh) a).
Proof. intros st. reflexivity. Qed.

Lemma preserves_raise name {A : Type} (e : exn) :
  preserves_timer name (raise (C:=C) (Mesh:=Mesh) (A:=A) e).
Proof. intros st. reflexivity. Qed.

Lemma preserves_lift name {A : Type} (o : outcome A) :
  preserves_timer name (lift (C:=C) (Mesh:=Mesh) o).
Proof. intros st. reflexivity. Qed.

Lemma preserves_log name l (m : message C Mesh) : preserves_timer name (log l m).
Proof. intros st. reflexivity. Qed.

Lemma preserves_track name d n : preserves_timer name (track (C:=C) (Mesh:=Mesh) d n).
Proof. intros st. reflexivity. Qed.

Lemma preserves_get_timer name : preserves_timer name (get_timer (C:=C) (Mesh:=Mesh)).
Proof. intros st. reflexivity. Qed.

Lemma preserves_bind name {A B : Type} (m : M C Mesh A) (k : A -> M C Mesh B) :
  preserves_timer name m -> (forall a, preserves_timer name (k a)) ->
  preserves_timer name (bind m k).
Proof.
  intros Hm Hk st. unfold bind. specialize (Hm st).
  destruct (m st) as [[a|e] st1]; simpl in Hm |- *; [|exact Hm].
  now rewrite Hk.
Qed.

Lemma preserves_timed name other {A : Type} (m : M C Mesh A) :
  other <> name -> preserves_timer name m -> preserves_timer name (timed other m).
Proof.
  intros Hne Hm st. unfold timed. specialize (Hm st).
  destruct (m st) as [r st1]. unfold nb_timings in *. simpl in Hm |- *.
  now rewrite lookup_alter_ne.
Qed.

Lemma preserves_diagnostics name enabled problems :
  preserves_timer name (diagnostics enabled problems).
Proof.
  intros st. destruct (diagnostics_run enabled problems st) as [evs ->]. reflexivity.
Qed.

Ltac preserves_step :=
  match goal with
  | |- preserves_timer _ (bind _ _) => apply preserves_bind; [| intros ?]
  | |- preserves_timer _ (ret _) => apply preserves_ret
  | |- preserves_timer _ (raise _) => apply preserves_raise
  | |- preserves_timer _ (lift _) => apply preserves_lift
  | |- preserves_timer _ (log _ _) => apply preserves_log
  | |- preserves_timer _ (track _ _) => apply preserves_track
  | |- preserves_timer _ get_timer => apply preserves_get_timer
  | |- preserves_timer _ (timed _ _) => apply preserves_timed; [discriminate|]
  | |- preserves_timer _ (if ?b then _ else _) => destruct b
  | |- preserves_timer _ (match ?x with _ => _ end) => destruct x
  end.

Lemma preserves_solve_unwrapped self pb method_arg kd cw :
  preserves_timer "Solve total" (solve_unwrapped self pb method_arg kd cw).
Proof.
  unfold solve_unwrapped.
  change (if cw then _ else _) with (diagnostics cw [pb]).
  unfold solve_direct, solve_indirect, _compute_potential_gradient.
  repeat first [ apply preserves_diagnostics | preserves_step ].
Qed.

Lemma solve_total_after_solve self pb method_arg kd cw st :
  nb_timings "Solve total" (snd (solve self pb method_arg kd cw st))
  = S <$> nb_timings "Solve total" st.
Proof.
  unfold solve, timed.
  pose proof (preserves_solve_unwrapped self pb method_arg kd cw st) as Hp.
  destruct (solve_unwrapped self pb method_arg kd cw st) as [r st1].
  unfold nb_timings in *. simpl in Hp |- *.
  now rewrite lookup_alter_eq, Hp.
Qed.

Lemma solve_total_after_catch self pb method_arg kd cw st :
  nb_timings "Solve total" (snd (_solve_and_catch_errors self pb method_arg kd cw st))
  = S <$> nb_timings "Solve total" st.
Proof.
  unfold _solve_and_catch_errors, try_except. rewrite bind_run.
  pose proof (solve_total_after_solve self pb method_arg kd cw st) as Hs.
  destruct (solve self pb method_arg kd cw st) as [[r|e] st1]; exact Hs.
Qed.

Lemma solve_and_catch_errors_returns self pb method_arg kd cw st :
  exists r, fst (_solve_and_catch_errors self pb method_arg kd cw st) = Return r.
Proof.
  unfold _solve_and_catch_errors, try_except. rewrite bind_run.
  destruct (solve self pb method_arg kd cw st) as [[r|e] st1]; eexists; reflexivity.
Qed.

(** X1.  Every call of [solve] records exactly one timing in the "Solve
    total" accumulator, whether it returns a result or raises; so does the
    failure-isolating wrapper, which never raises: a failed problem is
    counted like a solved one. *)
Theorem solve_records_one_solve_total self pb method_arg kd cw st :
  nb_timings "Solve total" (snd (solve self pb method_arg kd cw st))
  = S <$> nb_timings "Solve total" st /\
  nb_timings "Solve total" (snd (_solve_and_catch_errors self pb method_arg kd cw st))
  = S <$> nb_timings "Solve total" st /\
  exists r, fst (_solve_and_catch_errors self pb method_arg kd cw st) = Return r.
Proof.
  split; [apply solve_total_after_solve|].
  split; [apply solve_total_after_catch | apply solve_and_catch_errors_returns].
Qed.

Lemma fmap_add_succ (n : nat) (o : option nat) :
  Nat.add n <$> (S <$> o) = Nat.add (S n) <$> o.
Proof. destruct o as [k|]; simpl; [f_equal; lia | reflexivity]. Qed.

Lemma for_each_counts name {A B : Type} (f : A -> M C Mesh B) (xs : list A) :
  (forall x st, exists y, fst (f x st) = Return y) ->
  (forall x st, nb_timings name (snd (f x st)) = S <$> nb_timings name st) ->
  forall st,
    nb_timings name (snd (for_each f xs st)) = Nat.add (length xs) <$> nb_timings name st.
Proof.
  intros Hret Hone. induction xs as [|x xs IH]; intros st.
  - simpl. now destruct (nb_timings name st).
  - cbn [for_each length]. rewrite bind_run.
    destruct (Hret x st) as [y Hy]. specialize (Hone x st).
    destruct (f x st) as [[y'|e] st1]; simpl in Hy; [|discriminate].
    simpl in Hone. rewrite bind_run. specialize (IH st1).
    destruct (for_each f xs st1) as [[ys|e] st2]; simpl in IH |- *;
      now rewrite IH, Hone, fmap_add_succ.
Qed.

Lemma length_sorted problems : length (sorted problems) = length problems.
Proof. apply Permutation_length, sorted_permutation. Qed.

Lemma solve_total_after_sequential_resolution self problems method_arg b kd st :
  nb_timings "Solve total" (snd (sequential_resolution self problems method_arg b kd st))
  = Nat.add (length problems) <$> nb_timings "Solve total" st.
Proof.
  unfold sequential_resolution. rewrite bind_run.
  rewrite <- (length_sorted problems).
  destruct b; cbn [track ret];
    rewrite (for_each_counts "Solve total");
    try reflexivity;
    intros; first [apply solve_and_catch_errors_returns | apply solve_total_after_catch].
Qed.

(** X2.  On the sequential path, with a valid progress-bar setting,
    [solve_all] records one "Solve total" timing per submitted problem,
    failed problems included; on a solver fresh from the constructor the
    count after the batch is the number of problems. *)
Theorem solve_all_records_one_timing_per_problem
    (rt : @Runtime C Mesh) self problems method_arg progress_bar cw kd st b :
  progress_bar_setting progress_bar (environ rt) = Return b ->
  nb_timings "Solve total"
    (snd (solve_all rt self problems method_arg 1 progress_bar cw kd st))
  = Nat.add (length problems) <$> nb_timings "Solve total" st /\
  (forall gf eng m,
      BEMSolver_init gf eng m = Return (self, st) ->
      nb_timings "Solve total"
        (snd (solve_all rt self problems method_arg 1 progress_bar cw kd st))
      = Some (length problems)).
Proof.
  intros Hb.
  assert (Hcount :
            nb_timings "Solve total"
              (snd (solve_all rt self problems method_arg 1 progress_bar cw kd st))
            = Nat.add (length problems) <$> nb_timings "Solve total" st).
  { unfold solve_all.
    destruct (diagnostics_run cw problems st) as [evs Hd].
    change (if cw then _ else _) with (diagnostics cw problems).
    rewrite (bind_returns _ _ _ _ _ Hd).
    rewrite Hb, bind_run. cbn [lift Z.eqb Pos.eqb]. rewrite bind_run.
    pose proof (solve_total_after_sequential_resolution self problems method_arg b kd
                  {| timer := timer st; events := events st ++ evs |}) as Hs.
    destruct (sequential_resolution self problems method_arg b kd _) as [[rs|e] st1];
      exact Hs. }
  split; [exact Hcount|].
  intros gf eng m Hinit. rewrite Hcount.
  unfold BEMSolver_init in Hinit.
  destruct (negb (str_in (lower m) ["direct"; "indirect"])); [discriminate|].
  inversion Hinit; subst. unfold nb_timings. cbn [timer].
  unfold initial_timer. rewrite lookup_insert_eq. simpl. f_equal. lia.
Qed.

(** ** The ledger after a successful solve *)

Lemma ret_inv_state {A : Type} (x : A) st a st1 :
  ret (C:=C) (Mesh:=Mesh) x st = (Return a, st1) -> a = x /\ st1 = st.
Proof. unfold ret. intros Hr. now inversion Hr. Qed.

Lemma lift_inv_state {A : Type} (o : outcome A) st a st1 :
  lift (C:=C) (Mesh:=Mesh) o st = (Return a, st1) -> o = Return a /\ st1 = st.
Proof. unfold lift. intros Hl. now inversion Hl. Qed.

Lemma log_inv_state l (m : message C Mesh) st u st1 :
  log l m st = (Return u, st1) ->
  st1 = {| timer := timer st; events := events st ++ [Log l m] |}.
Proof. unfold log. intros Hl. now inversion Hl. Qed.

Lemma diagnostics_inv_timer enabled problems st u st1 :
  diagnostics enabled problems st = (Return u, st1) -> timer st1 = timer st.
Proof.
  destruct (diagnostics_run enabled problems st) as [evs ->].
  intros Hd. now inversion Hd.
Qed.

Lemma solve_direct_timer self pb w k st x st' :
  solve_direct self pb w k st = (Return x, st') ->
  timer st' = alter S "  Linear solver" (alter S "  Green function" (timer st)).
Proof.
  unfold solve_direct. intros Hs.
  apply bind_inv in Hs. destruct Hs as (u & s1 & Hg & Hs).
  apply guard_inv in Hg. destruct Hg as [_ ->].
  apply bind_inv in Hs. destruct Hs as ([Sm Dm] & s2 & Hb & Hs).
  apply timed_returns_inv in Hb. destruct Hb as (s2' & Hb & ->).
  apply ret_inv_state in Hb. destruct Hb as [_ ->].
  apply bind_inv in Hs. destruct Hs as (rhs & s3 & Hr & Hs).
  apply lift_inv_state in Hr. destruct Hr as [_ ->].
  apply bind_inv in Hs. destruct Hs as (phi & s4 & Hl & Hs).
  apply timed_returns_inv in Hl. destruct Hl as (s4' & Hl & ->).
  apply lift_inv_state in Hl. destruct Hl as [_ ->].
  apply bind_inv in Hs. destruct Hs as (u' & s5 & Hg & Hs).
  apply guard_inv in Hg. destruct Hg as [_ ->].
  apply ret_inv_state in Hs. destruct Hs as [_ ->]. reflexivity.
Qed.

Lemma compute_potential_gradient_timer self (points : Points) (result : Result C Mesh)
    st x st' :
  _compute_potential_gradient self points result st = (Return x, st') ->
  timer st' = alter S "  Green function" (timer st).
Proof.
  unfold _compute_potential_gradient.
  destruct (_normalize_points points) as [pts shape].
  destruct (sources result) as [src|]; [|discriminate].
  intros Hs.
  apply bind_inv in Hs. destruct Hs as ([Sm G] & s1 & Hb & Hs).
  apply timed_returns_inv in Hb. destruct Hb as (s1' & Hb & ->).
  apply ret_inv_state in Hb. destruct Hb as [_ ->].
  apply bind_inv in Hs. destruct Hs as (v & s2 & He & Hs).
  apply lift_inv_state in He. destruct He as [_ ->].
  apply lift_inv_state in Hs. destruct Hs as [_ ->]. reflexivity.
Qed.

Lemma solve_indirect_timer self pb w k st x st' :
  solve_indirect self pb w k st = (Return x, st') ->
  timer st'
  = if float_ne (forward_speed pb) 0%float
    then alter S "  Green function"
           (alter S "  Linear solver" (alter S "  Green function" (timer st)))
    else alter S "  Linear solver" (alter S "  Green function" (timer st)).
Proof.
  unfold solve_indirect. intros Hs.
  apply bind_inv in Hs. destruct Hs as ([Sm Km] & s1 & Hb & Hs).
  apply timed_returns_inv in Hb. destruct Hb as (s1' & Hb & ->).
  apply ret_inv_state in Hb. destruct Hb as [_ ->].
  apply bind_inv in Hs. destruct Hs as (srcs & s2 & Hl & Hs).
  apply timed_returns_inv in Hl. destruct Hl as (s2' & Hl & ->).
  apply lift_inv_state in Hl. destruct Hl as [_ ->].
  apply bind_inv in Hs. destruct Hs as (u & s3 & Hg & Hs).
  apply guard_inv in Hg. destruct Hg as [_ ->].
  apply bind_inv in Hs. destruct Hs as (phi & s4 & Hphi & Hs).
  apply lift_inv_state in Hphi. destruct Hphi as [_ ->].
  destruct (float_ne (forward_speed pb) 0%float).
  - apply bind_inv in Hs. destruct Hs as ([shape nabla] & s5 & Hgrad & Hs).
    apply compute_potential_gradient_timer in Hgrad. cbn [timer] in Hgrad.
    destruct shape as [|n [|n' shape]]; try discriminate.
    apply bind_inv in Hs. destruct Hs as (p & s6 & Hadd & Hs).
    apply lift_inv_state in Hadd. destruct Hadd as [_ ->].
    apply ret_inv_state in Hs. destruct Hs as [_ ->]. exact Hgrad.
  - apply ret_inv_state in Hs. destruct Hs as [_ ->]. reflexivity.
Qed.

Lemma solve_unwrapped_timer self pb method_arg kd cw st r st' :
  solve_unwrapped self pb method_arg kd cw st = (Return r, st') ->
  timer st'
  = if negb (String.eqb (selected_method self method_arg) "direct")
       && float_ne (forward_speed pb) 0%float
    then alter S "  Green function"
           (alter S "  Linear solver" (alter S "  Green function" (timer st)))
    else alter S "  Linear solver" (alter S "  Green function" (timer st)).
Proof.
  unfold solve_unwrapped, selected_method.
  change (if cw then _ else _) with (diagnostics cw [pb]).
  intros Hs.
  apply bind_inv in Hs. destruct Hs as (u0 & s0 & E0 & Hs).
  apply log_inv_state in E0. subst s0.
  apply bind_inv in Hs. destruct Hs as (u1 & s1 & E1 & Hs).
  apply diagnostics_inv_timer in E1. cbn [timer] in E1.
  apply bind_inv in Hs. destruct Hs as (u2 & s2 & E2 & Hs).
  apply guard_inv in E2. destruct E2 as [_ ->].
  assert (Hbranch : forall w k x s3,
             (if String.eqb match method_arg with Some m => m | None => method self end "direct"
              then solve_direct self pb w k else solve_indirect self pb w k) s1 = (Return x, s3) ->
             timer s3
             = if negb (String.eqb match method_arg with Some m => m | None => method self end
                          "direct")
                  && float_ne (forward_speed pb) 0%float
               then alter S "  Green function"
                      (alter S "  Linear solver" (alter S "  Green function" (timer st)))
               else alter S "  Linear solver" (alter S "  Green function" (timer st))).
  { intros w k x s3 Hb.
    destruct (String.eqb match method_arg with Some m => m | None => method self end "direct").
    - apply solve_direct_timer in Hb. now rewrite Hb, E1.
    - apply solve_indirect_timer in Hb. now rewrite Hb, E1. }
  destruct (float_ne (forward_speed pb) 0%float) eqn:HU;
    apply bind_inv in Hs; destruct Hs as ([[src phi] p] & s3 & Ef & Hs);
    apply Hbranch in Ef;
    apply bind_inv in Hs; destruct Hs as (u3 & s4 & E3 & Hs);
    apply log_inv_state in E3; subst s4;
    apply ret_inv_state in Hs; destruct Hs as [_ ->]; exact Ef.
Qed.

(** X3.  A solve that returns a result has recorded exactly one "Linear
    solver" timing, and one "Green function" timing, or two when the
    indirect method runs with forward speed (the second one for the
    gradient of the potential). *)
Theorem successful_solve_timings self pb method_arg kd cw st r st' :
  solve self pb method_arg kd cw st = (Return r, st') ->
  nb_timings "  Linear solver" st' = S <$> nb_timings "  Linear solver" st /\
  nb_timings "  Green function" st'
  = (if negb (String.eqb (selected_method self method_arg) "direct")
        && float_ne (forward_speed pb) 0%float
     then Nat.add 2 else S) <$> nb_timings "  Green function" st.
Proof.
  intros Hs. apply timed_returns_inv in Hs. destruct Hs as (s1 & Hs & ->).
  apply solve_unwrapped_timer in Hs. unfold nb_timings. cbn [timer]. rewrite Hs.
  destruct (negb (String.eqb (selected_method self method_arg) "direct")
            && float_ne (forward_speed pb) 0%float).
  - split.
    + rewrite lookup_alter_ne by discriminate. rewrite lookup_alter_ne by discriminate.
      rewrite lookup_alter_eq. now rewrite lookup_alter_ne by discriminate.
    + rewrite lookup_alter_ne by discriminate. rewrite lookup_alter_eq.
      rewrite lookup_alter_ne by discriminate. rewrite lookup_alter_eq.
      now destruct (timer st !! "  Green function").
  - split.
    + rewrite lookup_alter_ne by discriminate. rewrite lookup_alter_eq.
      now rewrite lookup_alter_ne by discriminate.
    + rewrite lookup_alter_ne by discriminate.
      rewrite lookup_alter_ne by discriminate. now rewrite lookup_alter_eq.
Qed.

(** ** Warnings *)

Lemma warnings_app (a b : list (event C Mesh)) : warnings (a ++ b) = warnings a + warnings b.
Proof. unfold warnings. now rewrite List.filter_app, length_app. Qed.

Lemma logs_silent {A : Type} (m : M C Mesh A) :
  (forall st, snd (m st) = st) -> logs_at_most 0 m.
Proof. intros Hm st. exists []. now rewrite Hm, app_nil_r. Qed.

Lemma logs_weaken {A : Type} (n n' : nat) (m : M C Mesh A) :
  n <= n' -> logs_at_most n m -> logs_at_most n' m.
Proof. intros Hle Hm st. destruct (Hm st) as (delta & He & Hw). exists delta. split; [exact He | lia]. Qed.

Lemma logs_log l (msg : message C Mesh) :
  logs_at_most (match l with WARNING => 1 | _ => 0 end) (log l msg).
Proof. intros st. exists [Log l msg]. split; [reflexivity|]. now destruct l. Qed.

Lemma logs_track d n : logs_at_most 0 (track (C:=C) (Mesh:=Mesh) d n).
Proof. intros st. exists [Track d n]. now split. Qed.

Lemma logs_bind {A B : Type} (n1 n2 : nat) (m : M C Mesh A) (k : A -> M C Mesh B) :
  logs_at_most n1 m -> (forall a, logs_at_most n2 (k a)) -> logs_at_most (n1 + n2) (bind m k).
Proof.
  intros Hm Hk st. unfold bind. destruct (Hm st) as (d1 & E1 & W1).
  destruct (m st) as [[a|e] st1]; simpl in E1.
  - destruct (Hk a st1) as (d2 & E2 & W2). exists (d1 ++ d2).
    rewrite E2, E1, app_assoc, warnings_app. split; [reflexivity | lia].
  - exists d1. simpl. split; [exact E1 | lia].
Qed.

Lemma logs_timed {A : Type} (n : nat) name (m : M C Mesh A) :
  logs_at_most n m -> logs_at_most n (timed name m).
Proof.
  intros Hm st. unfold timed. destruct (Hm st) as (d & E & W).
  destruct (m st) as [r st1]. exists d. now split.
Qed.

Lemma logs_try_except {A : Type} (n1 n2 : nat) (m : M C Mesh A) (h : exn -> M C Mesh A) :
  logs_at_most n1 m -> (forall e, logs_at_most n2 (h e)) ->
  logs_at_most (n1 + n2) (try_except m h).
Proof.
  intros Hm Hh st. unfold try_except. destruct (Hm st) as (d1 & E1 & W1).
  destruct (m st) as [[a|e] st1]; simpl in E1.
  - exists d1. simpl. split; [exact E1 | lia].
  - destruct (Hh e st1) as (d2 & E2 & W2). exists (d1 ++ d2).
    rewrite E2, E1, app_assoc, warnings_app. split; [reflexivity | lia].
Qed.

Lemma logs_for_each {A B : Type} (f : A -> M C Mesh B) (xs : list A) :
  (forall x, logs_at_most 0 (f x)) -> logs_at_most 0 (for_each f xs).
Proof.
  intros Hf. induction xs as [|x xs IH]; simpl.
  - now apply logs_silent.
  - apply (logs_bind 0 0); [apply Hf | intros y].
    apply (logs_bind 0 0); [exact IH | intros ys]. now apply logs_silent.
Qed.

Lemma logs_check_mesh_resolution problems :
  logs_at_most 1 (_check_wavelength_and_mesh_resolution problems).
Proof.
  unfold _check_wavelength_and_mesh_resolution.
  apply (logs_bind 0 1); [apply (logs_log DEBUG) | intros _].
  destruct (List.filter mesh_resolution_risky problems) as [|pb0 [|pb1 rest]].
  - apply (logs_weaken 0); [lia | now apply logs_silent].
  - apply (logs_log WARNING).
  - apply (logs_log WARNING).
Qed.

Lemma logs_check_irregular_frequencies problems :
  logs_at_most 1 (_check_wavelength_and_irregular_frequencies problems).
Proof.
  unfold _check_wavelength_and_irregular_frequencies.
  apply (logs_bind 0 1); [apply (logs_log DEBUG) | intros _].
  destruct (List.filter irregular_frequency_risky problems) as [|pb0 [|pb1 rest]].
  - apply (logs_weaken 0); [lia | now apply logs_silent].
  - apply (logs_log WARNING).
  - apply (logs_log WARNING).
Qed.

Lemma logs_diagnostics (enabled : bool) problems :
  logs_at_most (if enabled then 2 else 0) (diagnostics enabled problems).
Proof.
  unfold diagnostics. destruct enabled.
  - apply (logs_bind 1 1); [apply logs_check_mesh_resolution | intros _].
    apply logs_check_irregular_frequencies.
  - now apply logs_silent.
Qed.

(** Splits a goal [logs_at_most 0 m] along the structure of [m]. *)
Ltac silent_step :=
  match goal with
  | |- logs_at_most 0 (bind _ _) => apply (logs_bind 0 0); [| intros ?]
  | |- logs_at_most 0 (ret _) => now apply logs_silent
  | |- logs_at_most 0 (raise _) => now apply logs_silent
  | |- logs_at_most 0 (lift _) => now apply logs_silent
  | |- logs_at_most 0 (timed _ _) => apply logs_timed
  | |- logs_at_most 0 (if ?b then _ else _) => destruct b
  | |- logs_at_most 0 (match ?x with _ => _ end) => destruct x
  end.

Lemma logs_solve_branch self pb (direct : bool) w k :
  logs_at_most 0 (if direct then solve_direct self pb w k else solve_indirect self pb w k).
Proof.
  destruct direct; unfold solve_direct, solve_indirect, _compute_potential_gradient;
    repeat silent_step.
Qed.

Lemma logs_solve self pb method_arg kd (cw : bool) :
  logs_at_most (if cw then 2 else 0) (solve self pb method_arg kd cw).
Proof.
  set (bound := if cw then 2 else 0).
  unfold solve, solve_unwrapped. apply logs_timed.
  change (if cw then _ else _) with (diagnostics cw [pb]).
  apply (logs_weaken (0 + (bound + 0))); [lia|].
  apply logs_bind; [apply (logs_log INFO) | intros _].
  apply logs_bind; [apply logs_diagnostics | intros _].
  apply (logs_bind 0 0); [repeat silent_step | intros _].
  destruct (float_ne (forward_speed pb) 0%float);
    (apply (logs_bind 0 0); [apply logs_solve_branch | intros [[src phi] p]]);
    (apply (logs_bind 0 0); [apply (logs_log DEBUG) | intros _]);
    now apply logs_silent.
Qed.

Lemma logs_solve_and_catch_errors self pb method_arg kd :
  logs_at_most 0 (_solve_and_catch_errors self pb method_arg kd false).
Proof.
  unfold _solve_and_catch_errors. apply (logs_try_except 0 0).
  - apply (logs_bind 0 0); [apply (logs_solve self pb method_arg kd false) | intros r].
    now apply logs_silent.
  - intros e. apply (logs_bind 0 0); [apply (logs_log INFO) | intros _].
    now apply logs_silent.
Qed.

(** X4.  The diagnostics are aggregated: however many problems a
    sequential batch holds, [solve_all] logs at most two warnings (one per
    check, from the checks run on the whole batch), and none at all with
    [_check_wavelength=False]; the solves inside the batch never warn.  The
    same bounds hold for a single [solve].  Nothing already logged is
    removed. *)
Theorem solve_all_logs_at_most_two_warnings
    (rt : @Runtime C Mesh) self problems pb method_arg progress_bar (cw : bool) kd st :
  (exists delta,
      events (snd (solve_all rt self problems method_arg 1 progress_bar cw kd st))
      = events st ++ delta /\
      warnings delta <= (if cw then 2 else 0)) /\
  (exists delta,
      events (snd (solve self pb method_arg kd cw st)) = events st ++ delta /\
      warnings delta <= (if cw then 2 else 0)).
Proof.
  split; [|apply logs_solve].
  set (bound := if cw then 2 else 0).
  revert st.
  change (logs_at_most bound (solve_all rt self problems method_arg 1 progress_bar cw kd)).
  unfold solve_all.
  change (if cw then _ else _) with (diagnostics cw problems).
  apply (logs_weaken (bound + 0)); [lia|].
  apply logs_bind; [apply logs_diagnostics | intros _].
  apply (logs_bind 0 0); [now apply logs_silent | intros b].
  cbn [Z.eqb Pos.eqb].
  apply (logs_bind 0 0).
  - unfold sequential_resolution.
    apply (logs_bind 0 0); [destruct b; [apply logs_track | now apply logs_silent] | intros _].
    apply logs_for_each. intros x. apply logs_solve_and_catch_errors.
  - intros results. apply (logs_bind 0 0); [now apply logs_silent | intros ledger].
    apply (logs_bind 0 0); [apply (logs_log INFO) | intros _]. now apply logs_silent.
Qed.

(** ** Which results hold sources *)

Lemma sources_after_solve self pb method_arg kd cw st r st' :
  solve self pb method_arg kd cw st = (Return r, st') ->
  (sources r = None <-> kd = false \/ selected_method self method_arg = "direct") /\
  (forall s, sources r = Some s -> length s = length (boundary_condition pb)).
Proof.
  intros Hs. apply timed_returns_inv in Hs. destruct Hs as (s1 & Hs & _).
  apply solve_unwrapped_detailed in Hs.
  destruct Hs as (src & phi & p & s2 & s3 & Hf & _ & ->).
  destruct (String.eqb (selected_method self method_arg) "direct") eqn:Hm.
  - apply String.eqb_eq in Hm. apply solve_direct_returns in Hf.
    destruct Hf as (-> & _). split.
    + split; [intros _; now right | intros _; now destruct kd].
    + intros s. destruct kd; discriminate.
  - apply String.eqb_neq in Hm. apply solve_indirect_returns in Hf.
    destruct Hf as (s & -> & Hlen & _). split.
    + destruct kd; simpl; split; try discriminate; try tauto.
      intros [Hk | Hd]; [discriminate | contradiction].
    + intros s'. destruct kd; simpl; [|discriminate].
      intros Heq. inversion Heq; subst. exact Hlen.
Qed.

(** X5.  A result returned by [solve] holds sources exactly when details
    were kept and the method was not the direct one, and then one source per
    entry of the boundary condition.  On every other result of [solve],
    each field evaluation ([compute_potential], [compute_velocity],
    [compute_pressure], [compute_free_surface_elevation],
    [get_potential_on_mesh]) raises the missing-sources exception, whichever
    solver, points, mesh or chunk size it is given, before any Green
    function is evaluated. *)
Theorem field_evaluation_needs_a_detailed_indirect_solve
    self pb method_arg kd cw st r st' :
  solve self pb method_arg kd cw st = (Return r, st') ->
  (sources r = None <-> kd = false \/ selected_method self method_arg = "direct") /\
  (forall s, sources r = Some s -> length s = length (boundary_condition pb)) /\
  (kd = false \/ selected_method self method_arg = "direct" ->
   forall other (points : Points) (m : Mesh) (c : Z) st2,
     compute_potential other points r st2
     = (Raise (PyException (sources_missing_msg r)), st2) /\
     compute_velocity other points r st2
     = (Raise (PyException (sources_missing_gradient_msg r)), st2) /\
     compute_pressure other points r st2
     = (Raise (PyException (sources_missing_msg r)), st2) /\
     compute_free_surface_elevation other points r st2
     = (Raise (PyException (sources_missing_msg r)), st2) /\
     fst (get_potential_on_mesh other r m c st2)
     = Raise (PyException (sources_missing_msg r)) /\
     timer (snd (get_potential_on_mesh other r m c st2)) = timer st2).
Proof.
  intros Hs. destruct (sources_after_solve self pb method_arg kd cw st r st' Hs) as [Hiff Hlen].
  split; [exact Hiff|]. split; [exact Hlen|].
  intros Hwhy other points m c st2. apply Hiff in Hwhy.
  split; [now apply compute_potential_without_sources|].
  split; [now apply compute_velocity_without_sources|].
  split; [now apply compute_pressure_without_sources|].
  split; [now apply compute_free_surface_elevation_without_sources|].
  split; [now apply get_potential_on_mesh_without_sources|].
  unfold get_potential_on_mesh. rewrite bind_run. cbn [log]. now rewrite Hwhy.
Qed.

(** ** Evaluating a solved potential on the body's own mesh *)

Lemma solve_indirect_detailed self pb method_arg cw st r st' :
  selected_method self method_arg <> "direct" ->
  solve self pb method_arg true cw st = (Return r, st') ->
  exists s phi,
    res_problem r = pb /\ sources r = Some s /\ potential r = Some phi /\
    matmul (fst (build_matrices (engine self)
                   (mesh_including_lid (body pb)) (mesh_including_lid (body pb))
                   (free_surface pb) (water_depth pb) (snd (selected_frequency pb))
                   (green_function self) true)) s
    = Return phi.
Proof.
  intros Hm Hs. apply timed_returns_inv in Hs. destruct Hs as (s1 & Hs & _).
  apply solve_unwrapped_detailed in Hs.
  destruct Hs as (src & phi & p & s2 & s3 & Hf & _ & ->).
  apply String.eqb_neq in Hm. rewrite Hm in Hf.
  apply solve_indirect_returns in Hf. destruct Hf as (s & -> & _ & Hmul & _).
  exists s, phi. now repeat split.
Qed.

(** X6.  Round trip through [compute_potential].  Take a result solved by
    the indirect method with details kept, an engine that takes [S] from the
    solver's Green function and builds one row per face, a normalisation
    that keeps one output entry per face of a mesh, and a problem that is
    either moving or has its encounter wavenumber equal to its wavenumber
    ([solve] works with [wavenumber] at rest, [compute_potential] always
    with [encounter_wavenumber]).  Then [compute_potential] at the body's
    own lid-inclusive mesh returns the stored potential, one value per
    face. *)
Theorem compute_potential_on_own_mesh_gives_stored_potential
    self pb method_arg cw st r st' st2 :
  engine_uses_green_function self ->
  one_row_per_face self ->
  mesh_points_keep_faces (mesh_including_lid (body pb)) ->
  (float_ne (forward_speed pb) 0%float = false -> encounter_wavenumber pb = wavenumber pb) ->
  selected_method self method_arg <> "direct" ->
  solve self pb method_arg true cw st = (Return r, st') ->
  exists phi,
    potential r = Some phi /\
    fst (compute_potential self (points_of_mesh (mesh_including_lid (body pb))) r st2)
    = Return ([nb_faces (mesh_including_lid (body pb))], phi).
Proof.
  intros Hgf Hrows Hnorm Hk Hm Hs.
  destruct (solve_indirect_detailed self pb method_arg cw st r st' Hm Hs)
    as (s & phi & Hpb & Hsrc & Hphi & Hmul).
  exists phi. split; [exact Hphi|].
  assert (Hwave : snd (selected_frequency pb) = encounter_wavenumber pb).
  { unfold selected_frequency. destruct (float_ne (forward_speed pb) 0%float); simpl;
      [reflexivity | symmetry; now apply Hk]. }
  rewrite Hwave, Hgf in Hmul.
  unfold compute_potential. unfold mesh_points_keep_faces in Hnorm.
  destruct (_normalize_points (points_of_mesh (mesh_including_lid (body pb))))
    as [pts shape] eqn:En.
  cbn [fst snd] in Hmul, Hnorm. subst shape.
  rewrite Hsrc, Hpb. rewrite bind_run. unfold timed, ret.
  destruct (evaluate (green_function self) pts (mesh_including_lid (body pb))
              (free_surface pb) (water_depth pb) (encounter_wavenumber pb) true)
    as [Sm G] eqn:Ee.
  cbn [fst] in Hmul. rewrite bind_run, Hmul. cbn [lift].
  unfold reshape. cbn [fold_right].
  assert (Hlen : length phi = nb_faces (mesh_including_lid (body pb))).
  { apply matmul_length in Hmul. rewrite Hmul.
    specialize (Hrows (mesh_including_lid (body pb)) (mesh_including_lid (body pb))
                  (free_surface pb) (water_depth pb) (encounter_wavenumber pb) true).
    rewrite Hgf, En in Hrows. cbn [fst] in Hrows. rewrite Ee in Hrows. exact Hrows. }
  rewrite Hlen, Nat.mul_1_r, Nat.eqb_refl. reflexivity.
Qed.

(** X7.  Round trip through the legacy chunked evaluation.  For a problem
    at rest solved by the indirect method with details kept, and an engine
    whose [build_S_matrix] is row-local and agrees with the [S] of
    [build_matrices], [get_potential_on_mesh] on the body's own
    lid-inclusive mesh returns the stored potential for every chunk size of
    at least one. *)
Theorem get_potential_on_own_mesh_gives_stored_potential
    self pb method_arg cw st r st' (c : Z) st2 :
  row_local self ->
  S_matrices_agree self ->
  float_ne (forward_speed pb) 0%float = false ->
  selected_method self method_arg <> "direct" ->
  (1 <= c)%Z ->
  solve self pb method_arg true cw st = (Return r, st') ->
  exists phi,
    potential r = Some phi /\
    fst (get_potential_on_mesh self r (mesh_including_lid (body pb)) c st2) = Return phi.
Proof.
  intros Hloc Hagree HU Hm Hc Hs.
  destruct (solve_indirect_detailed self pb method_arg cw st r st' Hm Hs)
    as (s & phi & Hpb & Hsrc & Hphi & Hmul).
  exists phi. split; [exact Hphi|].
  rewrite (get_potential_on_mesh_chunked self r _ c s st2 Hloc Hsrc Hc).
  unfold selected_frequency in Hmul. rewrite HU in Hmul. cbn [snd] in Hmul.
  unfold potential_matrix. rewrite Hpb, Hagree, !bind_run. cbn [log lift].
  now rewrite Hmul.
Qed.

(** ** The legacy helpers: ledger and result mapping *)

Lemma preserves_for_loop name {A B : Type} (body_ : A -> B -> M C Mesh B) (xs : list A) :
  (forall x acc, preserves_timer name (body_ x acc)) ->
  forall acc, preserves_timer name (for_loop body_ xs acc).
Proof.
  intros Hb. induction xs as [|x xs IH]; intros acc; simpl.
  - apply preserves_ret.
  - apply preserves_bind; [apply Hb | intros acc'; apply IH].
Qed.

Lemma preserves_get_potential_on_mesh name self (result : Result C Mesh) (m : Mesh) (c : Z) :
  preserves_timer name (get_potential_on_mesh self result m c).
Proof.
  unfold get_potential_on_mesh.
  apply preserves_bind; [apply preserves_log | intros _].
  destruct (sources result) as [src|]; [|apply preserves_raise].
  apply preserves_bind.
  - destruct (Z.ltb (Z.of_nat (nb_faces m)) c); [apply preserves_lift|].
    apply preserves_bind; [apply preserves_lift | intros starts].
    apply preserves_for_loop. intros i phi. unfold potential_chunk.
    repeat preserves_step.
  - intros phi. repeat preserves_step.
Qed.

(** X8.  [get_free_surface_elevation] writes at most one entry of the
    result it is given: the problem, forces, sources, potential and pressure
    of the result are as before, and so is the elevation stored for any
    other free surface.  With [keep_details] and on success, the returned
    elevation is what a lookup under the given free surface finds
    afterwards; without [keep_details], or when the call raises, the result
    is untouched.  No accumulator of the ledger records a timing. *)
Theorem get_free_surface_elevation_writes_one_entry
    self (result : Result C Mesh) (fs : FreeSurface Mesh) (kd : bool) st o st' result' :
  get_free_surface_elevation self result fs kd st = (o, st', result') ->
  res_problem result' = res_problem result /\
  forces result' = forces result /\
  sources result' = sources result /\
  potential result' = potential result /\
  pressure result' = pressure result /\
  (forall key, key <> fs_id fs ->
               fs_elevation result' !! key = fs_elevation result !! key) /\
  (kd = false -> result' = result) /\
  (forall e, o = Raise e -> result' = result) /\
  (forall elevation, o = Return elevation -> kd = true ->
                     fs_elevation result' !! fs_id fs = Some elevation) /\
  (forall name, nb_timings name st' = nb_timings name st).
Proof.
  unfold get_free_surface_elevation.
  destruct (float_ne (forward_speed (res_problem result)) 0%float).
  { intros Hr. inversion Hr; subst. repeat split; try reflexivity; discriminate. }
  pose proof (fun name =>
                preserves_get_potential_on_mesh name self result (fs_mesh fs) 50 st) as Ht.
  destruct (get_potential_on_mesh self result (fs_mesh fs) 50 st) as [[phi|e] s1];
    intros Hr; inversion Hr; subst; cbn [snd] in Ht.
  - destruct kd; cbn [set_fs_elevation res_problem forces sources potential pressure
                        fs_elevation];
      repeat split; try reflexivity; try discriminate; try exact Ht.
    + intros key Hkey. now apply lookup_insert_ne.
    + intros elevation Ho _. inversion Ho; subst. apply lookup_insert_eq.
  - repeat split; try reflexivity; try discriminate; exact Ht.
Qed.

(** ** The parallel path *)

(** X9.  With [n_jobs] other than 1 and no importable [joblib], a call of
    [solve_all] whose progress-bar setting is valid raises [ImportError]
    right after the diagnostics: no problem has been solved, not even
    sequentially, and the ledger is unchanged. *)
Theorem solve_all_without_joblib
    (rt : @Runtime C Mesh) self problems method_arg n_jobs progress_bar cw kd st b :
  n_jobs <> 1%Z ->
  joblib rt = None ->
  progress_bar_setting progress_bar (environ rt) = Return b ->
  solve_all rt self problems method_arg n_jobs progress_bar cw kd st
  = (Raise (ImportError (missing_joblib_msg n_jobs)), snd (diagnostics cw problems st)) /\
  timer (snd (diagnostics cw problems st)) = timer st.
Proof.
  intros Hn Hj Hb. destruct (diagnostics_run cw problems st) as [evs Hd]. split.
  - unfold solve_all. change (if cw then _ else _) with (diagnostics cw problems).
    rewrite (bind_returns _ _ _ _ _ Hd), Hd, Hb, bind_run. cbn [lift].
    apply Z.eqb_neq in Hn. now rewrite Hn, Hj.
  - now rewrite Hd.
Qed.

(** X10.  On the parallel path, with an executor that hands back every
    value in dispatch order, the output of [solve_all] is the concatenation,
    group by group in the order of the grouping policy, of each group's
    entries in sorted order; it is a rearrangement of one entry per problem
    of the groups, and follows the input order only as far as grouping and
    sorting do. *)
Theorem solve_all_parallel_output_order
    (rt : @Runtime C Mesh) self problems method_arg n_jobs progress_bar cw kd st b parallel :
  progress_bar_setting progress_bar (environ rt) = Return b ->
  n_jobs <> 1%Z -> joblib rt = Some parallel -> dispatches_in_order parallel ->
  fst (solve_all rt self problems method_arg n_jobs progress_bar cw kd st)
  = Return (concat (map (fun grp => map (isolated self method_arg kd) (sorted grp))
                      (_group_for_parallel_resolution problems))) /\
  Permutation
    (map problem_of
       (concat (map (fun grp => map (isolated self method_arg kd) (sorted grp))
                  (_group_for_parallel_resolution problems))))
    (concat (_group_for_parallel_resolution problems)).
Proof.
  intros Hb Hn Hj Hpar.
  assert (Heq : concat (map (fun grp => map (isolated self method_arg kd) (sorted grp))
                          (_group_for_parallel_resolution problems))
                = map (isolated self method_arg kd)
                    (concat (map sorted (_group_for_parallel_resolution problems)))).
  { now rewrite concat_map, map_map. }
  rewrite Heq. split.
  - now apply solve_all_parallel_fst with (b := b) (parallel := parallel).
  - rewrite map_map.
    rewrite (map_ext _ (fun pb => pb) (problem_of_isolated self method_arg kd)), map_id.
    apply concat_sorted_permutation.
Qed.

(** ** A per-call method in a batch and in [fill_dataset] *)

Lemma solve_all_method_not_validated
    (rt : @Runtime C Mesh) self problems (m : string) n_jobs progress_bar cw kd :
  m <> "direct" ->
  solve_all rt self problems (Some m) n_jobs progress_bar cw kd
  = solve_all rt self problems (Some "indirect") n_jobs progress_bar cw kd.
Proof.
  intros Hm. apply String.eqb_neq in Hm.
  unfold solve_all, solve_all_group, sequential_resolution, _solve_and_catch_errors,
    solve, solve_unwrapped.
  now rewrite Hm.
Qed.

(** X11.  [solve_all] hands its [method] to [solve] as it is: a batch
    solved with a per-call method that is not exactly "direct" ("Direct",
    "banana", ...) is the batch solved with "indirect", on either path,
    with the same results, log and ledger; the string is never rejected. *)
Theorem solve_all_per_call_method_is_not_validated
    (rt : @Runtime C Mesh) self problems (m : string) n_jobs progress_bar cw kd st :
  m <> "direct" ->
  solve_all rt self problems (Some m) n_jobs progress_bar cw kd st
  = solve_all rt self problems (Some "indirect") n_jobs progress_bar cw kd st.
Proof. intros Hm. now rewrite (solve_all_method_not_validated rt self problems m). Qed.

End LedgerProperties.

Section DatasetProperties.
Context {C : Type} `{Complex128 C} {Mesh : Type} `{MeshModel Mesh}
        {Points : Type} `{PointsModel Mesh Points} `{@ProblemModel C Mesh}
        {Dataset : Type} `{DatasetModel C Mesh Dataset}.

(** X12.  [fill_dataset] keeps the details of the results exactly when the
    dataset has a [theta] coordinate (and then merges the Kochin data in),
    and stamps the dataset with the per-call method as given.  For a method
    that is not exactly "direct" the stamped attribute is that string while
    the results are those of the indirect method. *)
Theorem fill_dataset_stamps_the_method_as_given
    (rt : @Runtime C Mesh) (self : @BEMSolver C Mesh Points) settings now
    (dataset : Dataset) bodies (m : string) n_jobs cw progress_bar st :
  m <> "direct" ->
  fill_dataset rt self settings now dataset bodies (Some m) n_jobs cw progress_bar st
  = (results <- solve_all rt self (problems_from_dataset dataset bodies) (Some "indirect")
                  n_jobs progress_bar cw (has_theta dataset) ;;
     ret (if has_theta dataset
          then dataset_update
                 (assemble_dataset results (fill_dataset_attrs now settings (Some m)))
                 (kochin_data_array results dataset)
          else assemble_dataset results (fill_dataset_attrs now settings (Some m)))) st /\
  fill_dataset_attrs now settings (Some m) !! "method" = Some m.
Proof.
  intros Hm. split.
  - unfold fill_dataset.
    rewrite !(solve_all_method_not_validated rt self _ m) by exact Hm.
    now destruct (has_theta dataset).
  - unfold fill_dataset_attrs. apply lookup_insert_eq.
Qed.

(** X13.  The exported settings and the attributes of a filled dataset.
    The solver's own (validated, lower-case) method overrides a "method"
    setting of the Green function or of the engine, and the engine's
    settings override the Green function's; when either collaborator has no
    exportable settings, nothing is exported, not even the method.  In the
    attributes, a per-call method overrides the exported one, without a
    per-call method the attribute is the exported one (absent when nothing
    is exported), and the start time is recorded unless a setting of that
    name takes its place. *)
Theorem exported_settings_and_dataset_attributes
    (self : @BEMSolver C Mesh Points) (gs es settings : gmap string string)
    (now m : string) (key : string) :
  exportable_settings (Some gs) (Some es) self !! "method" = Some (method self) /\
  (key <> "method" ->
   exportable_settings (Some gs) (Some es) self !! key
   = match es !! key with Some v => Some v | None => gs !! key end) /\
  exportable_settings None (Some es) self = ∅ /\
  exportable_settings (Some gs) None self = ∅ /\
  fill_dataset_attrs now settings (Some m) !! "method" = Some m /\
  fill_dataset_attrs now settings None !! "method" = settings !! "method" /\
  fill_dataset_attrs now (exportable_settings None (Some es) self) None !! "method" = None /\
  fill_dataset_attrs now settings None !! "start_of_computation"
  = match settings !! "start_of_computation" with Some v => Some v | None => Some now end.
Proof.
  split; [apply lookup_insert_eq|].
  split.
  { intros Hk. unfold exportable_settings.
    rewrite lookup_insert_ne by congruence. rewrite lookup_union.
    destruct (es !! key), (gs !! key); reflexivity. }
  split; [reflexivity|]. split; [reflexivity|].
  split; [apply lookup_insert_eq|].
  split.
  { unfold fill_dataset_attrs. rewrite lookup_union, lookup_singleton_ne by discriminate.
    now destruct (settings !! "method"). }
  split.
  { unfold fill_dataset_attrs, exportable_settings.
    rewrite lookup_union, lookup_empty, lookup_singleton_ne by discriminate. reflexivity. }
  unfold fill_dataset_attrs. rewrite lookup_union, lookup_singleton_eq.
  now destruct (settings !! "start_of_computation").
Qed.

End DatasetProperties.

Section CheckAndShapeProperties.
Context {C : Type} `{Complex128 C} {Mesh : Type} `{MeshModel Mesh}
        {Points : Type} `{PointsModel Mesh Points} `{@ProblemModel C Mesh}.

Implicit Types (self : @BEMSolver C Mesh Points) (pb : Problem C Mesh)
  (st : State C Mesh) (problems : list (Problem C Mesh)).

(** ** The mesh-resolution check *)

(** X14.  The mesh-resolution check returns without raising and touches no
    timer.  It logs one warning exactly when some problem of the batch has a
    wavelength strictly between zero and the minimal computable wavelength
    of its body, and nothing but its debug line otherwise.  For a single
    risky problem the warning carries that problem, its own frequency
    attribute and the largest face radius of its body; for several, it
    carries their number and their frequencies, all of them read through the
    frequency attribute of the first risky problem. *)
Theorem mesh_resolution_check problems st :
  exists evs,
    _check_wavelength_and_mesh_resolution problems st
    = (Return tt,
       {| timer := timer st;
          events := events st ++ Log DEBUG CheckMeshResolutionMsg :: evs |}) /\
    (evs = [] <-> forall pb, In pb problems -> mesh_resolution_risky pb = false) /\
    (forall pb,
        List.filter mesh_resolution_risky problems = [pb] ->
        evs = [Log WARNING
                 (MeshResolutionOneMsg pb (provided_freq_type pb)
                    (getattribute pb (provided_freq_type pb)) (faces_radiuses_max (body pb)))]) /\
    (forall pb0 pb1 rest,
        List.filter mesh_resolution_risky problems = pb0 :: pb1 :: rest ->
        evs = [Log WARNING
                 (MeshResolutionManyMsg (2 + length rest) (provided_freq_type pb0)
                    (map (fun pb => getattribute pb (provided_freq_type pb0))
                       (pb0 :: pb1 :: rest)))]) /\
    (forall pb,
        mesh_resolution_risky pb = true <->
        PrimFloat.ltb 0%float (wavelength pb) = true /\
        PrimFloat.ltb (wavelength pb) (minimal_computable_wavelength (body pb)) = true).
Proof.
  assert (Hnone : List.filter mesh_resolution_risky problems = [] <->
                  forall pb, In pb problems -> mesh_resolution_risky pb = false).
  { split.
    - intros Hf pb Hin. destruct (mesh_resolution_risky pb) eqn:Hr; [|reflexivity].
      assert (Hin' : In pb (List.filter mesh_resolution_risky problems))
        by (apply filter_In; auto).
      rewrite Hf in Hin'. destruct Hin'.
    - intros Hall. destruct (List.filter mesh_resolution_risky problems) as [|pb l] eqn:Hf;
        [reflexivity|].
      assert (Hin : In pb (List.filter mesh_resolution_risky problems))
        by (rewrite Hf; now left).
      apply filter_In in Hin. destruct Hin as [Hin Hr]. rewrite (Hall _ Hin) in Hr.
      discriminate. }
  assert (Hrisky : forall pb,
             mesh_resolution_risky pb = true <->
             PrimFloat.ltb 0%float (wavelength pb) = true /\
             PrimFloat.ltb (wavelength pb) (minimal_computable_wavelength (body pb)) = true).
  { intros pb. unfold mesh_resolution_risky. now rewrite andb_true_iff. }
  unfold _check_wavelength_and_mesh_resolution, bind, log, ret.
  destruct (List.filter mesh_resolution_risky problems) as [|pb0 [|pb1 rest]] eqn:Hf;
    simpl; rewrite <- ?app_assoc; simpl; eexists; (split; [reflexivity|]);
    (split; [|split; [|split; [|exact Hrisky]]]);
    try (intros; discriminate).
  - now rewrite <- Hnone.
  - rewrite <- Hnone. split; discriminate.
  - intros pb Heq. now inversion Heq.
  - rewrite <- Hnone. split; discriminate.
  - intros a b l Heq. now inversion Heq.
Qed.

(** ** The shape of evaluated fields *)

Lemma reshape_inv {A : Type} (data : list A) (shape : list nat) x :
  reshape data shape = Return x ->
  x = (shape, data) /\ length data = fold_right Nat.mul 1 shape.
Proof.
  unfold reshape. destruct (Nat.eqb (fold_right Nat.mul 1 shape) (length data)) eqn:E;
    [|discriminate].
  intros Hr. inversion Hr. apply Nat.eqb_eq in E. now split.
Qed.

Lemma compute_potential_shape self (points : Points) (result : Result C Mesh)
    st shape data st' :
  compute_potential self points result st = (Return (shape, data), st') ->
  shape = snd (_normalize_points points) /\ length data = fold_right Nat.mul 1 shape.
Proof.
  unfold compute_potential. destruct (_normalize_points points) as [pts sh].
  destruct (sources result) as [src|]; [|discriminate].
  intros Hs.
  apply bind_inv in Hs. destruct Hs as ([Sm G] & s1 & _ & Hs).
  apply bind_inv in Hs. destruct Hs as (phi & s2 & _ & Hs).
  apply lift_inv in Hs. apply reshape_inv in Hs. destruct Hs as [Hx Hlen].
  inversion Hx; subst. now split.
Qed.

Lemma compute_potential_gradient_shape self (points : Points) (result : Result C Mesh)
    st shape data st' :
  _compute_potential_gradient self points result st = (Return (shape, data), st') ->
  shape = snd (_normalize_points points) /\ length data = fold_right Nat.mul 1 shape.
Proof.
  unfold _compute_potential_gradient. destruct (_normalize_points points) as [pts sh].
  destruct (sources result) as [src|]; [|discriminate].
  intros Hs.
  apply bind_inv in Hs. destruct Hs as ([Sm G] & s1 & _ & Hs).
  apply bind_inv in Hs. destruct Hs as (v & s2 & _ & Hs).
  apply lift_inv in Hs. apply reshape_inv in Hs. destruct Hs as [Hx Hlen].
  inversion Hx; subst. now split.
Qed.

(** X15.  When a field evaluation returns, its output has the shape the
    normalisation of the points asked for, and exactly as many values as
    that shape holds (one 3-vector per point for the velocity): for
    [compute_potential], [compute_velocity] and [compute_pressure] the shape
    is the one of [_normalize_points], for
    [compute_free_surface_elevation] the one of
    [_normalize_free_surface_points]. *)
Theorem field_outputs_have_the_normalised_shape
    self (points : Points) (result : Result C Mesh) st :
  (forall shape data st',
      compute_potential self points result st = (Return (shape, data), st') ->
      shape = snd (_normalize_points points) /\ length data = fold_right Nat.mul 1 shape) /\
  (forall shape data st',
      compute_velocity self points result st = (Return (shape, data), st') ->
      shape = snd (_normalize_points points) /\ length data = fold_right Nat.mul 1 shape) /\
  (forall shape data st',
      compute_pressure self points result st = (Return (shape, data), st') ->
      shape = snd (_normalize_points points) /\ length data = fold_right Nat.mul 1 shape) /\
  (forall shape data st',
      compute_free_surface_elevation self points result st = (Return (shape, data), st') ->
      shape = snd (_normalize_free_surface_points points) /\
      length data = fold_right Nat.mul 1 shape).
Proof.
  split; [|split; [|split]].
  - intros shape data st'. apply compute_potential_shape.
  - intros shape data st' Hs. unfold compute_velocity in Hs.
    apply bind_inv in Hs. destruct Hs as ([sh nabla] & s1 & Hg & Hs).
    apply compute_potential_gradient_shape in Hg. destruct Hg as [-> Hlen].
    destruct (float_ne (forward_speed (res_problem result)) 0%float);
      apply ret_inv in Hs; inversion Hs; subst; (split; [reflexivity|]);
      now rewrite ?length_map.
  - intros shape data st' Hs. unfold compute_pressure in Hs.
    destruct (float_ne (forward_speed (res_problem result)) 0%float).
    + apply bind_inv in Hs. destruct Hs as ([sh phi] & s1 & Hp & Hs).
      apply compute_potential_shape in Hp. destruct Hp as [-> Hlen].
      apply bind_inv in Hs. destruct Hs as ([sh' nabla] & s2 & _ & Hs).
      apply bind_inv in Hs. destruct Hs as (p & s3 & Hadd & Hs).
      apply lift_inv, iadd_length in Hadd. rewrite length_scale in Hadd.
      apply ret_inv in Hs. inversion Hs; subst. split; [reflexivity | congruence].
    + apply bind_inv in Hs. destruct Hs as ([sh phi] & s1 & Hp & Hs).
      apply compute_potential_shape in Hp. destruct Hp as [-> Hlen].
      apply ret_inv in Hs. inversion Hs; subst. split; [reflexivity|].
      now rewrite length_scale.
  - intros shape data st' Hs. unfold compute_free_surface_elevation in Hs.
    destruct (_normalize_free_surface_points points) as [pts sh]. cbn [snd].
    destruct (float_ne (forward_speed (res_problem result)) 0%float).
    + apply bind_inv in Hs. destruct Hs as ([sh1 phi] & s1 & _ & Hs).
      apply bind_inv in Hs. destruct Hs as ([sh2 nabla] & s2 & _ & Hs).
      apply bind_inv in Hs. destruct Hs as (e & s3 & _ & Hs).
      apply lift_inv, reshape_inv in Hs. destruct Hs as [Hx Hlen].
      inversion Hx; subst. now split.
    + apply bind_inv in Hs. destruct Hs as ([sh1 phi] & s1 & _ & Hs).
      apply lift_inv, reshape_inv in Hs. destruct Hs as [Hx Hlen].
      inversion Hx; subst. now split.
Qed.

(** ** What the diagnostics and the progress bar do not change *)

Lemma bind_after_returning {A B : Type} (m : M C Mesh A) (k : A -> M C Mesh B) (a : A) :
  (forall st, exists st', m st = (Return a, st')) ->
  stateless (k a) ->
  forall st st2, fst (bind m k st) = fst (k a st2).
Proof.
  intros Hm Hk st st2. unfold bind. destruct (Hm st) as [st' ->]. apply Hk.
Qed.

Lemma solve_outcome_without_diagnostics self pb method_arg kd cw :
  solve_outcome self pb method_arg kd cw = solve_outcome self pb method_arg kd false.
Proof.
  unfold solve_outcome, solve, timed.
  destruct (solve_unwrapped self pb method_arg kd cw empty_state) as [r1 s1] eqn:E1.
  destruct (solve_unwrapped self pb method_arg kd false empty_state) as [r2 s2] eqn:E2.
  cbn [fst].
  change r1 with (fst (r1, s1)). change r2 with (fst (r2, s2)). rewrite <- E1, <- E2.
  unfold solve_unwrapped.
  change (if cw then _ else _) with (diagnostics cw [pb]).
  rewrite !bind_run. cbn [log].
  set (s0 := {| timer := timer empty_state;
                events := events empty_state ++ [Log INFO (SolveMsg pb)] |}).
  destruct (diagnostics_run cw [pb] s0) as [evs Hd].
  rewrite (bind_returns _ _ _ _ _ Hd).
  match goal with
  | |- fst (?k ?s) = fst (bind (ret tt) ?k' s0) =>
      change (fst (k s) = fst (k s0))
  end.
  match goal with
  | |- fst (?k ?s) = fst (?k s0) => assert (Hk : stateless k); [|apply Hk]
  end.
  unfold solve_direct, solve_indirect, _compute_potential_gradient.
  repeat first
    [ apply stateless_bind; [| intros ?]
    | apply stateless_ret | apply stateless_raise | apply stateless_lift
    | apply stateless_log | apply stateless_timed
    | match goal with
      | |- stateless (if ?b then _ else _) => destruct b
      | |- stateless (match ?x with _ => _ end) => destruct x
      end ].
Qed.

(** X16.  The diagnostics only warn and the progress bar only displays:
    what [solve] returns or raises is the same with and without
    [_check_wavelength], from any state of the ledger and the log; and on
    the sequential path, with a valid progress-bar setting, what [solve_all]
    returns is the same whatever the setting and with or without the
    diagnostics. *)
Theorem results_do_not_depend_on_diagnostics_or_progress_bar
    (rt : @Runtime C Mesh) self problems pb method_arg progress_bar cw kd st st2 b :
  progress_bar_setting progress_bar (environ rt) = Return b ->
  fst (solve_all rt self problems method_arg 1 progress_bar cw kd st)
  = fst (solve_all rt self problems method_arg 1 (Some false) false kd st2) /\
  fst (solve self pb method_arg kd cw st) = fst (solve self pb method_arg kd false st2).
Proof.
  intros Hb. split.
  - rewrite (solve_all_sequential_fst rt self problems method_arg progress_bar cw kd st b Hb).
    now rewrite (solve_all_sequential_fst rt self problems method_arg (Some false) false kd
                   st2 false).
  - now rewrite !solve_fst, solve_outcome_without_diagnostics.
Qed.

End CheckAndShapeProperties.

Section LinearSolverProperties.
Context {C : Type} `{Complex128 C} {Mesh : Type} `{MeshModel Mesh}
        {Points : Type} `{PointsModel Mesh Points} `{@ProblemModel C Mesh}.

Implicit Types (self : @BEMSolver C Mesh Points) (pb : Problem C Mesh)
  (st : State C Mesh).

Lemma solve_indirect_wrong_shape self pb method_arg kd st (s : list C) :
  undefined_diffraction pb = false ->
  selected_method self method_arg <> "direct" ->
  linear_solver (engine self)
    (snd (build_matrices (engine self)
            (mesh_including_lid (body pb)) (mesh_including_lid (body pb))
            (free_surface pb) (water_depth pb) (snd (selected_frequency pb))
            (green_function self) true))
    (boundary_condition pb) = Return s ->
  length s <> length (boundary_condition pb) ->
  fst (solve self pb method_arg kd false st)
  = Raise (ValueError (shape_mismatch_msg self (length s) (length (boundary_condition pb)))).
Proof.
  unfold undefined_diffraction, selected_method, selected_frequency.
  intros Hbad Hm Hsol Hlen.
  apply String.eqb_neq in Hm. apply Nat.eqb_neq in Hlen.
  unfold solve, timed, solve_unwrapped.
  rewrite bind_run. cbn [log]. rewrite bind_run. cbn [ret]. rewrite Hbad.
  rewrite bind_run. cbn [ret].
  destruct (float_ne (forward_speed pb) 0%float); cbn [fst snd] in Hsol |- *;
    rewrite Hm; unfold solve_indirect, timed;
    rewrite !bind_run; cbn [ret];
    destruct (build_matrices _ _ _ _ _ _ _ _) as [Sm Km]; cbn [snd] in Hsol;
    rewrite !bind_run; cbn [lift]; rewrite Hsol; rewrite !bind_run; rewrite Hlen;
    reflexivity.
Qed.

Lemma solve_direct_wrong_shape self pb method_arg kd st (rhs phi : list C) :
  undefined_diffraction pb = false ->
  selected_method self method_arg = "direct" ->
  float_ne (forward_speed pb) 0%float = false ->
  matmul (fst (build_matrices (engine self)
                 (mesh_including_lid (body pb)) (mesh_including_lid (body pb))
                 (free_surface pb) (water_depth pb) (wavenumber pb)
                 (green_function self) false))
    (boundary_condition pb) = Return rhs ->
  linear_solver (engine self)
    (snd (build_matrices (engine self)
            (mesh_including_lid (body pb)) (mesh_including_lid (body pb))
            (free_surface pb) (water_depth pb) (wavenumber pb)
            (green_function self) false)) rhs = Return phi ->
  length phi <> length (boundary_condition pb) ->
  fst (solve self pb method_arg kd false st)
  = Raise (ValueError (shape_mismatch_msg self (length phi)
                         (length (boundary_condition pb)))).
Proof.
  unfold undefined_diffraction, selected_method.
  intros Hbad Hm HU Hrhs Hsol Hlen.
  apply Nat.eqb_neq in Hlen.
  unfold solve, timed, solve_unwrapped.
  rewrite bind_run. cbn [log]. rewrite bind_run. cbn [ret]. rewrite Hbad.
  rewrite bind_run. cbn [ret]. rewrite HU, Hm.
  cbn [String.eqb Ascii.eqb Bool.eqb].
  unfold solve_direct, timed. rewrite HU.
  rewrite !bind_run; cbn [ret].
  destruct (build_matrices _ _ _ _ _ _ _ _) as [Sm Dm]; cbn [fst snd] in Hrhs, Hsol.
  rewrite !bind_run; cbn [lift]. rewrite Hrhs. rewrite !bind_run. rewrite Hsol.
  rewrite !bind_run. rewrite Hlen. reflexivity.
Qed.

Lemma solve_and_catch_errors_raise self pb method_arg kd cw st e :
  fst (solve self pb method_arg kd cw st) = Raise e ->
  fst (_solve_and_catch_errors self pb method_arg kd cw st)
  = Return (Failed (make_failed_results_container pb e)).
Proof.
  intros Hs. unfold _solve_and_catch_errors, try_except. rewrite bind_run.
  destruct (solve self pb method_arg kd cw st) as [[r|e'] s1]; simpl in Hs; [discriminate|].
  inversion Hs; subst. reflexivity.
Qed.

(** X17.  The output of the engine's linear solver is checked against the
    boundary condition.  On a problem that passes the frequency check, when
    the linear solver returns a vector with another number of entries,
    [solve] raises the [ValueError] that names the engine and both shapes,
    for the indirect method (whatever the forward speed) and for the direct
    method at rest; in a batch the failure-isolating wrapper turns it into
    the failed result of that problem. *)
Theorem linear_solver_output_shape_is_checked self pb method_arg kd cw st (s : list C) :
  undefined_diffraction pb = false ->
  length s <> length (boundary_condition pb) ->
  (selected_method self method_arg <> "direct" ->
   linear_solver (engine self)
     (snd (build_matrices (engine self)
             (mesh_including_lid (body pb)) (mesh_including_lid (body pb))
             (free_surface pb) (water_depth pb) (snd (selected_frequency pb))
             (green_function self) true))
     (boundary_condition pb) = Return s ->
   fst (solve self pb method_arg kd cw st)
   = Raise (ValueError (shape_mismatch_msg self (length s) (length (boundary_condition pb)))) /\
   fst (_solve_and_catch_errors self pb method_arg kd cw st)
   = Return (Failed (make_failed_results_container pb
                       (ValueError (shape_mismatch_msg self (length s)
                                      (length (boundary_condition pb))))))) /\
  (forall rhs,
      selected_method self method_arg = "direct" ->
      float_ne (forward_speed pb) 0%float = false ->
      matmul (fst (build_matrices (engine self)
                     (mesh_including_lid (body pb)) (mesh_including_lid (body pb))
                     (free_surface pb) (water_depth pb) (wavenumber pb)
                     (green_function self) false))
        (boundary_condition pb) = Return rhs ->
      linear_solver (engine self)
        (snd (build_matrices (engine self)
                (mesh_including_lid (body pb)) (mesh_including_lid (body pb))
                (free_surface pb) (water_depth pb) (wavenumber pb)
                (green_function self) false)) rhs = Return s ->
      fst (solve self pb method_arg kd cw st)
      = Raise (ValueError (shape_mismatch_msg self (length s)
                             (length (boundary_condition pb)))) /\
      fst (_solve_and_catch_errors self pb method_arg kd cw st)
      = Return (Failed (make_failed_results_container pb
                          (ValueError (shape_mismatch_msg self (length s)
                                         (length (boundary_condition pb))))))).
Proof.
  intros Hbad Hlen. split.
  - intros Hm Hsol.
    assert (Hs : fst (solve self pb method_arg kd cw st)
                 = Raise (ValueError (shape_mismatch_msg self (length s)
                                        (length (boundary_condition pb))))).
    { rewrite solve_fst, solve_outcome_without_diagnostics. unfold solve_outcome.
      now apply solve_indirect_wrong_shape. }
    split; [exact Hs | now apply solve_and_catch_errors_raise].
  - intros rhs Hm HU Hrhs Hsol.
    assert (Hs : fst (solve self pb method_arg kd cw st)
                 = Raise (ValueError (shape_mismatch_msg self (length s)
                                        (length (boundary_condition pb))))).
    { rewrite solve_fst, solve_outcome_without_diagnostics. unfold solve_outcome.
      now apply (solve_direct_wrong_shape self pb method_arg kd empty_state rhs s). }
    split; [exact Hs | now apply solve_and_catch_errors_raise].
Qed.

End LinearSolverProperties.

(** * The further properties on explicit inputs *)

Lemma toy_engine_uses_green_function (m : string) : engine_uses_green_function (toy_solver m).
Proof. intros msh fs wd k adj. reflexivity. Qed.

Lemma toy_S_matrices_agree (m : string) : S_matrices_agree (toy_solver m).
Proof. intros m1 m2 fs wd k. reflexivity. Qed.

Lemma solve_all_records_one_timing_per_problem_witness :
  progress_bar_setting None (environ (toy_runtime ∅)) = Return true /\
  nb_timings "Solve total"
    (snd (solve_all (toy_runtime ∅) (toy_solver "indirect")
            [toy_diffraction_0; toy_radiation_1] None 1 None true true toy_state))
  = Nat.add (length [toy_diffraction_0; toy_radiation_1]) <$> nb_timings "Solve total" toy_state /\
  (forall gf eng m,
      BEMSolver_init gf eng m = Return (toy_solver "indirect", toy_state) ->
      nb_timings "Solve total"
        (snd (solve_all (toy_runtime ∅) (toy_solver "indirect")
                [toy_diffraction_0; toy_radiation_1] None 1 None true true toy_state))
      = Some (length [toy_diffraction_0; toy_radiation_1])).
Proof.
  split; [reflexivity|].
  exact (solve_all_records_one_timing_per_problem (toy_runtime ∅) (toy_solver "indirect")
           [toy_diffraction_0; toy_radiation_1] None None true true toy_state true eq_refl).
Defined.

(** The ledger of a fresh solver after a batch of two, one of which
    fails. *)
Example toy_ledger_after_batch :
  BEMSolver_init toy_green_function toy_engine "Indirect"
  = Return (toy_solver "indirect", toy_state) /\
  nb_timings "Solve total"
    (snd (solve_all (toy_runtime ∅) (toy_solver "indirect")
            [toy_diffraction_0; toy_radiation_1] None 1 None true true toy_state)) = Some 2 /\
  nb_timings "  Linear solver"
    (snd (solve_all (toy_runtime ∅) (toy_solver "indirect")
            [toy_diffraction_0; toy_radiation_1] None 1 None true true toy_state)) = Some 1.
Proof. repeat split; vm_compute; reflexivity. Qed.

Lemma successful_solve_timings_witness :
  exists r st',
    solve (toy_solver "indirect") toy_radiation_moving None true true toy_state
    = (Return r, st') /\
    nb_timings "  Linear solver" st' = S <$> nb_timings "  Linear solver" toy_state /\
    nb_timings "  Green function" st'
    = (if negb (String.eqb (selected_method (toy_solver "indirect") None) "direct")
          && float_ne (forward_speed toy_radiation_moving) 0%float
       then Nat.add 2 else S) <$> nb_timings "  Green function" toy_state.
Proof.
  destruct (solve (toy_solver "indirect") toy_radiation_moving None true true toy_state)
    as [[r|e] st'] eqn:E; [|vm_compute in E; discriminate].
  exists r, st'. split; [reflexivity|].
  exact (successful_solve_timings (toy_solver "indirect") toy_radiation_moving None true true
           toy_state r st' E).
Defined.

Example toy_moving_solve_timings :
  exists r st',
    solve (toy_solver "indirect") toy_radiation_moving None true true toy_state
    = (Return r, st') /\
    nb_timings "  Green function" st' = Some 2 /\
    nb_timings "  Linear solver" st' = Some 1 /\
    nb_timings "Solve total" st' = Some 1.
Proof. eexists. eexists. split; [vm_compute; reflexivity|]. repeat split. Qed.

Lemma field_evaluation_needs_a_detailed_indirect_solve_witness :
  exists st',
    solve (toy_solver "direct") toy_radiation_1 None true true toy_state
    = (Return toy_direct_result, st') /\
    (sources toy_direct_result = None <->
     true = false \/ selected_method (toy_solver "direct") None = "direct") /\
    compute_pressure (toy_solver "indirect") toy_hull toy_direct_result toy_state
    = (Raise (PyException (sources_missing_msg toy_direct_result)), toy_state).
Proof.
  destruct (solve (toy_solver "direct") toy_radiation_1 None true true toy_state)
    as [[r|e] st'] eqn:E; [|vm_compute in E; discriminate].
  assert (Hr : r = toy_direct_result).
  { pose proof toy_direct_solve as Hd. rewrite E in Hd. now inversion Hd. }
  subst r. exists st'. split; [reflexivity|].
  destruct (field_evaluation_needs_a_detailed_indirect_solve (toy_solver "direct")
              toy_radiation_1 None true true toy_state toy_direct_result st' E)
    as (Hiff & _ & Hfail).
  split; [exact Hiff|].
  destruct (Hfail (or_intror eq_refl) (toy_solver "indirect") toy_hull toy_hull 1%Z toy_state)
    as (_ & _ & Hp & _).
  exact Hp.
Defined.

Lemma compute_potential_on_own_mesh_gives_stored_potential_witness :
  exists r st' phi,
    solve (toy_solver "indirect") toy_radiation_1 None true true toy_state = (Return r, st') /\
    potential r = Some phi /\
    fst (compute_potential (toy_solver "indirect")
           (points_of_mesh (mesh_including_lid (body toy_radiation_1))) r toy_state)
    = Return ([nb_faces (mesh_including_lid (body toy_radiation_1))], phi).
Proof.
  destruct (solve (toy_solver "indirect") toy_radiation_1 None true true toy_state)
    as [[r|e] st'] eqn:E; [|vm_compute in E; discriminate].
  destruct (compute_potential_on_own_mesh_gives_stored_potential (toy_solver "indirect")
              toy_radiation_1 None true toy_state r st' toy_state) as (phi & Hphi & Hc).
  - apply toy_engine_uses_green_function.
  - apply toy_solver_one_row_per_face.
  - reflexivity.
  - intros _. reflexivity.
  - discriminate.
  - exact E.
  - exists r, st', phi. now repeat split.
Defined.

Lemma get_potential_on_own_mesh_gives_stored_potential_witness :
  exists r st' phi,
    solve (toy_solver "indirect") toy_radiation_1 None true true toy_state = (Return r, st') /\
    potential r = Some phi /\
    fst (get_potential_on_mesh (toy_solver "indirect") r
           (mesh_including_lid (body toy_radiation_1)) 2 toy_state) = Return phi.
Proof.
  destruct (solve (toy_solver "indirect") toy_radiation_1 None true true toy_state)
    as [[r|e] st'] eqn:E; [|vm_compute in E; discriminate].
  destruct (get_potential_on_own_mesh_gives_stored_potential (toy_solver "indirect")
              toy_radiation_1 None true toy_state r st' 2%Z toy_state) as (phi & Hphi & Hc).
  - apply toy_solver_row_local.
  - apply toy_S_matrices_agree.
  - reflexivity.
  - discriminate.
  - lia.
  - exact E.
  - exists r, st', phi. now repeat split.
Defined.

Lemma get_free_surface_elevation_writes_one_entry_witness :
  exists elevation st' result',
    get_free_surface_elevation (toy_solver "indirect") toy_result_with_sources
      toy_free_surface true toy_state = (Return elevation, st', result') /\
    fs_elevation result' !! fs_id toy_free_surface = Some elevation /\
    (forall key, key <> fs_id toy_free_surface ->
                 fs_elevation result' !! key = fs_elevation toy_result_with_sources !! key) /\
    sources result' = sources toy_result_with_sources.
Proof.
  destruct (get_free_surface_elevation (toy_solver "indirect") toy_result_with_sources
              toy_free_surface true toy_state) as [[[elevation|e] st'] result'] eqn:E;
    [|vm_compute in E; discriminate].
  destruct (get_free_surface_elevation_writes_one_entry (toy_solver "indirect")
              toy_result_with_sources toy_free_surface true toy_state
              (Return elevation) st' result' E)
    as (_ & _ & Hsrc & _ & _ & Hother & _ & _ & Hkey & _).
  exists elevation, st', result'. split; [reflexivity|].
  split; [now apply Hkey|]. now split.
Defined.

Lemma solve_all_without_joblib_witness :
  2%Z <> 1%Z /\ joblib (toy_runtime ∅) = None /\
  progress_bar_setting None (environ (toy_runtime ∅)) = Return true /\
  solve_all (toy_runtime ∅) (toy_solver "indirect") [toy_radiation_1] None 2 None true true
    toy_state
  = (Raise (ImportError (missing_joblib_msg 2)),
     snd (diagnostics true [toy_radiation_1] toy_state)) /\
  timer (snd (diagnostics true [toy_radiation_1] toy_state)) = timer toy_state.
Proof.
  split; [discriminate|]. split; [reflexivity|]. split; [reflexivity|].
  apply (solve_all_without_joblib (toy_runtime ∅) (toy_solver "indirect") [toy_radiation_1]
           None 2%Z None true true toy_state true); [discriminate | reflexivity | reflexivity].
Defined.

Lemma solve_all_parallel_output_order_witness :
  fst (solve_all toy_runtime_with_joblib (toy_solver "indirect")
         [toy_radiation_2; toy_radiation_1] None 2 None true true toy_state)
  = Return (concat (map (fun grp => map (isolated (toy_solver "indirect") None true) (sorted grp))
                      (_group_for_parallel_resolution [toy_radiation_2; toy_radiation_1]))) /\
  Permutation
    (map problem_of
       (concat (map (fun grp => map (isolated (toy_solver "indirect") None true) (sorted grp))
                  (_group_for_parallel_resolution [toy_radiation_2; toy_radiation_1]))))
    (concat (_group_for_parallel_resolution [toy_radiation_2; toy_radiation_1])).
Proof.
  apply (solve_all_parallel_output_order toy_runtime_with_joblib (toy_solver "indirect")
           [toy_radiation_2; toy_radiation_1] None 2%Z None true true toy_state true
           toy_parallel);
    [reflexivity | discriminate | reflexivity | apply toy_parallel_in_order].
Defined.

(** With one problem per group, the parallel path keeps the input order
    that the sequential path sorts away. *)
Example toy_parallel_keeps_group_order :
  exists results,
    fst (solve_all toy_runtime_with_joblib (toy_solver "indirect")
           [toy_radiation_2; toy_radiation_1] None 2 None true true toy_state)
    = Return results /\
    map problem_of results = [toy_radiation_2; toy_radiation_1].
Proof. eexists. split; [vm_compute; reflexivity | reflexivity]. Qed.

Lemma solve_all_per_call_method_is_not_validated_witness :
  "Direct" <> "direct" /\
  solve_all toy_runtime_with_joblib (toy_solver "direct") [toy_radiation_2; toy_radiation_1]
    (Some "Direct") 2 None true true toy_state
  = solve_all toy_runtime_with_joblib (toy_solver "direct") [toy_radiation_2; toy_radiation_1]
      (Some "indirect") 2 None true true toy_state.
Proof.
  split; [discriminate|].
  apply (solve_all_per_call_method_is_not_validated toy_runtime_with_joblib
           (toy_solver "direct") [toy_radiation_2; toy_radiation_1] "Direct" 2%Z None
           true true toy_state).
  discriminate.
Defined.

Lemma fill_dataset_stamps_the_method_as_given_witness :
  "Direct" <> "direct" /\
  fill_dataset (toy_runtime ∅) (toy_solver "direct") ∅ "2024-01-01T00:00:00"
    (toy_grid_dataset true) [] (Some "Direct") 1 true None toy_state
  = (results <- solve_all (toy_runtime ∅) (toy_solver "direct")
                  (problems_from_dataset (toy_grid_dataset true) []) (Some "indirect")
                  1 None true (has_theta (toy_grid_dataset true)) ;;
     ret (if has_theta (toy_grid_dataset true)
          then dataset_update
                 (assemble_dataset results
                    (fill_dataset_attrs "2024-01-01T00:00:00" ∅ (Some "Direct")))
                 (kochin_data_array results (toy_grid_dataset true))
          else assemble_dataset results
                 (fill_dataset_attrs "2024-01-01T00:00:00" ∅ (Some "Direct")))) toy_state /\
  fill_dataset_attrs "2024-01-01T00:00:00" ∅ (Some "Direct") !! "method" = Some "Direct".
Proof.
  split; [discriminate|].
  apply (fill_dataset_stamps_the_method_as_given (toy_runtime ∅) (toy_solver "direct") ∅
           "2024-01-01T00:00:00" (toy_grid_dataset true) [] "Direct" 1%Z true None toy_state).
  discriminate.
Defined.

(** A dataset filled with [method="Direct"]: stamped "Direct", solved with
    sources, that is by the indirect method. *)
Example toy_filled_dataset :
  exists ds,
    fst (fill_dataset (toy_runtime ∅) (toy_solver "direct") ∅ "2024-01-01T00:00:00"
           (toy_grid_dataset true) [] (Some "Direct") 1 true None toy_state) = Return ds /\
    toy_attrs ds !! "method" = Some "Direct" /\
    toy_kochin ds = true /\
    map (fun r => match r with
                  | Solved res => match sources res with Some _ => true | None => false end
                  | Failed _ => false
                  end) (toy_filled ds) = [true; true].
Proof. eexists. split; [vm_compute; reflexivity|]. repeat split. Qed.

Lemma results_do_not_depend_on_diagnostics_or_progress_bar_witness :
  progress_bar_setting None (environ (toy_runtime ∅)) = Return true /\
  fst (solve_all (toy_runtime ∅) (toy_solver "indirect") [toy_bare_risky; toy_radiation_1]
         None 1 None true true toy_state)
  = fst (solve_all (toy_runtime ∅) (toy_solver "indirect") [toy_bare_risky; toy_radiation_1]
           None 1 (Some false) false true empty_state) /\
  fst (solve (toy_solver "indirect") toy_bare_risky None true true toy_state)
  = fst (solve (toy_solver "indirect") toy_bare_risky None true false empty_state).
Proof.
  split; [reflexivity|].
  exact (results_do_not_depend_on_diagnostics_or_progress_bar (toy_runtime ∅)
           (toy_solver "indirect") [toy_bare_risky; toy_radiation_1] toy_bare_risky
           None None true true toy_state empty_state true eq_refl).
Defined.

(** A batch of two risky problems given with different frequency
    attributes: one warning per check, the frequencies read as [omega]. *)
Example toy_aggregated_warnings :
  warnings (events (snd (solve_all (toy_runtime ∅) (toy_solver "indirect")
                           [toy_bare_risky; toy_bare_risky] None 1 None true true
                           toy_state))) = 1.
Proof. vm_compute. reflexivity. Qed.

(** The four field evaluations on a moving result that holds sources: each
    returns, with one value per face of the hull given as points. *)
Example toy_field_evaluations_return :
  exists phi v p eta,
    fst (compute_potential (toy_solver "indirect") toy_hull toy_moving_result toy_state)
    = Return ([length (toy_faces toy_hull)], phi) /\
    fst (compute_velocity (toy_solver "indirect") toy_hull toy_moving_result toy_state)
    = Return ([length (toy_faces toy_hull)], v) /\
    fst (compute_pressure (toy_solver "indirect") toy_hull toy_moving_result toy_state)
    = Return ([length (toy_faces toy_hull)], p) /\
    fst (compute_free_surface_elevation (toy_solver "indirect") toy_hull toy_moving_result
           toy_state)
    = Return ([length (toy_faces toy_hull)], eta) /\
    length phi = length (toy_faces toy_hull) /\ length v = length (toy_faces toy_hull) /\
    length p = length (toy_faces toy_hull) /\ length eta = length (toy_faces toy_hull).
Proof.
  do 4 eexists.
  split; [vm_compute; reflexivity|]. split; [vm_compute; reflexivity|].
  split; [vm_compute; reflexivity|]. split; [vm_compute; reflexivity|].
  repeat split.
Qed.

Lemma linear_solver_output_shape_is_checked_witness :
  undefined_diffraction toy_radiation_moving = false /\
  length (tl (boundary_condition toy_radiation_moving))
  <> length (boundary_condition toy_radiation_moving) /\
  fst (solve (toy_short_solver "indirect") toy_radiation_moving None true true toy_state)
  = Raise (ValueError (shape_mismatch_msg (toy_short_solver "indirect")
                         (length (tl (boundary_condition toy_radiation_moving)))
                         (length (boundary_condition toy_radiation_moving)))) /\
  fst (_solve_and_catch_errors (toy_short_solver "indirect") toy_radiation_moving None true true
         toy_state)
  = Return (Failed (make_failed_results_container toy_radiation_moving
                      (ValueError (shape_mismatch_msg (toy_short_solver "indirect")
                                     (length (tl (boundary_condition toy_radiation_moving)))
                                     (length (boundary_condition toy_radiation_moving)))))).
Proof.
  split; [reflexivity|]. split; [vm_compute; lia|].
  refine (proj1 (linear_solver_output_shape_is_checked (toy_short_solver "indirect")
                   toy_radiation_moving None true true toy_state
                   (tl (boundary_condition toy_radiation_moving)) eq_refl _) _ eq_refl).
  - vm_compute. lia.
  - discriminate.
Defined.

(** The message of the shape check, for a boundary condition of three
    entries of which the linear solver returns two. *)
Example toy_shape_mismatch_message :
  fst (solve (toy_short_solver "direct") toy_radiation_1 None false true toy_state)
  = Raise (ValueError
             "Error in linear solver of ShortEngine: the shape of the output ((2,)) does not match the expected shape ((3,))").
Proof. vm_compute. reflexivity. Qed.
